(** * yaml-fm-lint: a shallow embedding of the front-matter linter

    The development follows the linter's main module: [getSnippet],
    [lintLineByLine], [extraLinters] and [lintFile].  JavaScript strings are
    lists of code units (restricted to the range 0..255, read as Latin-1),
    the regular expressions of the source are written in a small regex
    language with JavaScript's leftmost, greedy, backtracking semantics,
    module-level variables ([errorNumber], [warningNumber], [fixableErrors],
    [args], [config]) live in an explicit state together with the file
    system and the console, and the YAML library ([load], [dump]) is an
    interface the linter is parameterised over. *)

From Stdlib Require Import Ascii String ZArith DecimalString Sorted.
From stdpp Require Import gmap strings list.

Local Open Scope nat_scope.

(** ** JavaScript strings *)

Abbreviation jsstring := (list ascii).

Definition js (s : string) : jsstring := list_ascii_of_string s.

Definition LF : ascii := "010"%char.
Definition CR : ascii := "013"%char.
Definition TAB : ascii := "009"%char.
Definition DQUOTE : ascii := "034"%char.

Definition chr_eqb (a b : ascii) : bool := Ascii.eqb a b.

(** [\s]: tab, line feed, vertical tab, form feed, carriage return, space and
    the no-break space (code unit 160). *)
Definition is_s (c : ascii) : bool :=
  let n := nat_of_ascii c in
  ((9 <=? n) && (n <=? 13)) || (n =? 32) || (n =? 160).

Definition is_S (c : ascii) : bool := negb (is_s c).

(** [\w]: letters, digits and the underscore. *)
Definition is_w (c : ascii) : bool :=
  let n := nat_of_ascii c in
  ((48 <=? n) && (n <=? 57)) || ((65 <=? n) && (n <=? 90))
  || ((97 <=? n) && (n <=? 122)) || (n =? 95).

(** [.]: any code unit but a line terminator. *)
Definition is_dot (c : ascii) : bool :=
  negb (chr_eqb c LF || chr_eqb c CR).

Definition is_blank_tab (c : ascii) : bool :=
  chr_eqb c " "%char || chr_eqb c TAB.

Definition one_of (cs : jsstring) (c : ascii) : bool :=
  existsb (chr_eqb c) cs.

(** [s.split(sep)] for a one-character separator. *)
Fixpoint split_on (sep : ascii) (s : jsstring) : list jsstring :=
  match s with
  | [] => [[]]
  | c :: s' =>
      if chr_eqb c sep then [] :: split_on sep s'
      else match split_on sep s' with
           | l :: ls => (c :: l) :: ls
           | [] => [[c]]
           end
  end.

(** [ls.join(sep)]. *)
Fixpoint join (sep : jsstring) (ls : list jsstring) : jsstring :=
  match ls with
  | [] => []
  | [l] => l
  | l :: ls' => l ++ sep ++ join sep ls'
  end.

(** [data.replace(/\r/g, E)], [E] the empty string. *)
Definition remove_cr (s : jsstring) : jsstring :=
  List.filter (fun c => negb (chr_eqb c CR)) s.

Fixpoint trimStart (s : jsstring) : jsstring :=
  match s with
  | c :: s' => if is_s c then trimStart s' else s
  | [] => []
  end.

Definition trim (s : jsstring) : jsstring :=
  rev (trimStart (rev (trimStart s))).

Definition jsstring_eqb (a b : jsstring) : bool := bool_decide (a = b).

Fixpoint startsWith (s p : jsstring) : bool :=
  match p, s with
  | [], _ => true
  | c :: p', d :: s' => chr_eqb c d && startsWith s' p'
  | _ :: _, [] => false
  end.

(** [arr.indexOf(x, from)], [None] standing for [-1]. *)
Fixpoint indexOf_from (x : jsstring) (pos : nat) (l : list jsstring)
  : option nat :=
  match l with
  | [] => None
  | y :: l' => if jsstring_eqb y x then Some pos else indexOf_from x (S pos) l'
  end.

Definition indexOf (l : list jsstring) (x : jsstring) (from : nat)
  : option nat :=
  indexOf_from x from (drop from l).

(** [arr.splice(i, 1)]. *)
Definition splice1 {A} (i : nat) (l : list A) : list A :=
  take i l ++ drop (S i) l.

(** Template interpolation of a number. *)
Definition showNat (n : nat) : jsstring :=
  list_ascii_of_string (NilZero.string_of_uint (Nat.to_uint n)).

(** Template interpolation of [lines[k]]: a missing element prints as
    [undefined]. *)
Definition elt (lines : list jsstring) (k : nat) : jsstring :=
  match lines !! k with
  | Some l => l
  | None => js "undefined"
  end.

(** ["----^".padStart(n, "-")]. *)
Definition padStart_caret (n : Z) : jsstring :=
  replicate (Z.to_nat (n - 5)) "-"%char ++ js "----^".

(** ** Regular expressions

    A regex is a sequence of atoms; every repetition in the source is over a
    character class, so backtracking only varies the length of a run. *)

Inductive atom : Type :=
| Cls (p : ascii -> bool)            (* one character of a class *)
| Rep (lo : nat) (p : ascii -> bool) (* greedy [p{lo,}]: [*] is 0, [+] is 1 *)
| Opt (p : ascii -> bool)            (* greedy [p?] *)
| Bol                                (* [^] (no multiline flag) *)
| Eol.                               (* [$] (no multiline flag) *)

Abbreviation regex := (list atom).

(** Length of the longest prefix of [s] inside the class [p]. *)
Fixpoint run (p : ascii -> bool) (s : jsstring) : nat :=
  match s with
  | c :: s' => if p c then S (run p s') else 0
  | [] => 0
  end.

(** Greedy choice with backtracking: try [k] repetitions, then [k-1], ...,
    down to [lo]. *)
Fixpoint backtrack (rest : nat -> option (list nat)) (lo k : nat)
  : option (list nat) :=
  if k <? lo then None
  else match rest k with
       | Some ls => Some (k :: ls)
       | None => match k with
                 | 0 => None
                 | S k' => backtrack rest lo k'
                 end
       end.

(** [match_here r pos s]: match [r] against the suffix [s] that starts at
    index [pos] of the subject; the result gives the number of code units
    each atom consumed. *)
Fixpoint match_here (r : regex) (pos : nat) (s : jsstring)
  : option (list nat) :=
  match r with
  | [] => Some []
  | Cls p :: r' =>
      match s with
      | c :: s' => if p c then cons 1 <$> match_here r' (S pos) s' else None
      | [] => None
      end
  | Rep lo p :: r' =>
      backtrack (fun k => match_here r' (pos + k) (drop k s)) lo (run p s)
  | Opt p :: r' =>
      backtrack (fun k => match_here r' (pos + k) (drop k s)) 0
                (Nat.min 1 (run p s))
  | Bol :: r' =>
      if pos =? 0 then cons 0 <$> match_here r' pos s else None
  | Eol :: r' =>
      match s with
      | [] => cons 0 <$> match_here r' pos s
      | _ :: _ => None
      end
  end.

(** A successful match: [index] and the lengths consumed by the atoms. *)
Record rmatch : Type := mkMatch { index : nat; lens : list nat }.

Definition match_len (m : rmatch) : nat := foldr Nat.add 0 (lens m).

(** [match[0]]. *)
Definition matched (line : jsstring) (m : rmatch) : jsstring :=
  take (match_len m) (drop (index m) line).

(** Length of the text captured by the atom at position [g]. *)
Definition group_len (m : rmatch) (g : nat) : nat := nth g (lens m) 0.

Fixpoint exec_from (r : regex) (pos : nat) (s : jsstring) : option rmatch :=
  match match_here r pos s with
  | Some ls => Some (mkMatch pos ls)
  | None => match s with
            | [] => None
            | _ :: s' => exec_from r (S pos) s'
            end
  end.

(** [re.exec(line)] for a global regex whose [lastIndex] is [lastIndex]. *)
Definition exec (r : regex) (line : jsstring) (lastIndex : nat)
  : option rmatch :=
  if lastIndex <=? length line then exec_from r lastIndex (drop lastIndex line)
  else None.

(** [s.search(re)]: always from the start, [-1] when there is no match. *)
Definition search (r : regex) (s : jsstring) : Z :=
  match exec r s 0 with
  | Some m => Z.of_nat (index m)
  | None => (-1)%Z
  end.

(** [while ((match = re.exec(line)) !== null) { ... }]: the body returns the
    new [lastIndex] and the value it pushes.  [lastIndex] grows in every
    iteration of every loop of the source, so [length line + 1] iterations
    are enough (see [exec_while_fuel]). *)
Fixpoint exec_while {A} (fuel : nat) (r : regex) (line : jsstring)
    (lastIndex : nat) (body : rmatch -> nat * A) : list A :=
  match fuel with
  | 0 => []
  | S fuel' =>
      match exec r line lastIndex with
      | None => []
      | Some m => (body m).2 :: exec_while fuel' r line (body m).1 body
      end
  end.

Definition loop_fuel (line : jsstring) : nat := S (S (length line)).

(** The regular expressions of [lintLineByLine] and [lintFile]. *)
Definition attributeRegex : regex :=       (* /^Q?\w+Q?\s*:/g, Q a quote *)
  [Bol; Opt (chr_eqb DQUOTE); Rep 1 is_w; Opt (chr_eqb DQUOTE); Rep 0 is_s;
   Cls (chr_eqb ":"%char)].
Definition wsbcRegex : regex :=            (* /(\s+):/g *)
  [Rep 1 is_s; Cls (chr_eqb ":"%char)].
Definition colonRegex : regex :=           (* /:/ *)
  [Cls (chr_eqb ":"%char)].
Definition quoteRegex : regex :=           (* /[qQ]/g, q and Q the quotes *)
  [Cls (one_of ["'"%char; DQUOTE])].
Definition trailingSpaceRegex : regex :=   (* /(\s+)$/g *)
  [Rep 1 is_s; Eol].
Definition bracketsRegex : regex :=        (* /[\[\]]/g *)
  [Cls (one_of (js "[]"))].
Definition curlyBraceRegex : regex :=      (* /[\{\}]/g *)
  [Cls (one_of (js "{}"))].
Definition nonSpaceRegex : regex :=        (* /\S/g *)
  [Cls is_S].
Definition repeatingSpaceRegex : regex :=  (* /\w(\s{2,})\w/g *)
  [Cls is_w; Rep 2 is_s; Cls is_w].
Definition spaceWordRegex : regex :=       (* /\s\w/g *)
  [Cls is_s; Cls is_w].
Definition spacesAfterColon : regex :=     (* /:([ \t]{2,})\S/g *)
  [Cls (chr_eqb ":"%char); Rep 2 is_blank_tab; Cls is_S].
Definition blankNonSpaceRegex : regex :=   (* /[ \t]\S/g *)
  [Cls is_blank_tab; Cls is_S].
Definition trailingCommaRegex : regex :=   (* /,\s*$/g *)
  [Cls (chr_eqb ","%char); Rep 0 is_s; Eol].
Definition commaInFrontMatterRegex : regex := (* /,./g *)
  [Cls (chr_eqb ","%char); Cls is_dot].
Definition dumpCommaRegex : regex :=       (* /\s*,$/g *)
  [Rep 0 is_s; Cls (chr_eqb ","%char); Eol].

(** ** Violations and snippets *)

(** A positioned violation as [lintLineByLine] pushes it; [colStart] and
    [colEnd] are present for the rules that report a span. *)
Record Violation : Type := mkViolation {
  row : nat;
  col : Z;
  colStart : option Z;
  colEnd : option Z;
  snippet : jsstring
}.

(** [lines[k]] where the source indexes an element that exists. *)
Definition lineAt (lines : list jsstring) (k : nat) : jsstring :=
  default [] (lines !! k).

(** [getSnippet(lines, col, row)].  For [row >= 1],
    [Math.floor(Math.log10(row))] is the number of decimal digits less one.
    For row 0, which no call site passes, [row - 1] is [-1], [lines[-1]] is
    [undefined], and [Math.log10(0)] is [-Infinity], so that the marker is
    not padded. *)
Definition getSnippet (lines : list jsstring) (col : Z) (row : nat)
  : jsstring :=
  if row =? 0 then
    js "-1 | undefined" ++ [LF]
    ++ js "0 | " ++ elt lines 0 ++ [LF]
    ++ js "----^" ++ [LF]
    ++ js "1 | " ++ elt lines 1 ++ [LF]
  else
    showNat (row - 1) ++ js " | " ++ elt lines (row - 1) ++ [LF]
    ++ showNat row ++ js " | " ++ elt lines row ++ [LF]
    ++ padStart_caret (col + 3 + Z.of_nat (length (showNat row) - 1)) ++ [LF]
    ++ showNat (row + 1) ++ js " | " ++ elt lines (row + 1) ++ [LF].

(** ** The rules of [lintLineByLine], one definition per rule

    Each definition is the rule's [while] or [if] statement and returns what
    the statement pushes for line [i] of the block [fm]. *)

Section Rules.
Variable fm : list jsstring.
Variable i : nat.
Variable line : jsstring.

(** no-whitespace-before-colon *)
Definition spacesBeforeColon_body (m : rmatch) : nat * Violation :=
  let wsbcLength := (Z.of_nat (group_len m 0) + 1)%Z in
  let col := (Z.of_nat (index m) + search colonRegex (matched line m) + 1)%Z in
  (Z.to_nat (col - 1),
   mkViolation i col (Some (col - wsbcLength)%Z) (Some (col - 1)%Z)
               (getSnippet fm col i)).

Definition spacesBeforeColon : list Violation :=
  exec_while (loop_fuel line) wsbcRegex line 0 spacesBeforeColon_body.

(** The body shared by no-quotes, no-brackets and no-curly-braces:
    [col = match.index + match[0].search(re) + 2]. *)
Definition charRule_body (r : regex) (m : rmatch) : nat * Violation :=
  let col := (Z.of_nat (index m) + search r (matched line m) + 2)%Z in
  (index m + 1, mkViolation i col None None (getSnippet fm col i)).

Definition quotes : list Violation :=
  exec_while (loop_fuel line) quoteRegex line 0 (charRule_body quoteRegex).

Definition brackets : list Violation :=
  exec_while (loop_fuel line) bracketsRegex line 0
             (charRule_body bracketsRegex).

Definition curlyBraces : list Violation :=
  exec_while (loop_fuel line) curlyBraceRegex line 0
             (charRule_body curlyBraceRegex).

(** no-trailing-spaces.  The [None] branch is the source's
    [exec(line)[0]] on [null]; it cannot be reached after the [search]. *)
Definition trailingSpaces : list Violation :=
  if bool_decide (search trailingSpaceRegex line ≠ (-1)%Z) then
    match exec trailingSpaceRegex line 0 with
    | Some m =>
        let spaceCount := (Z.of_nat (match_len m) + 1)%Z in
        let col := (Z.of_nat (length line) + 1)%Z in
        [mkViolation i col (Some (col - spaceCount)%Z) (Some col)
                     (getSnippet fm col i)]
    | None => []
    end
  else [].

(** incorrect-indentation *)
Definition indentation : list Violation :=
  let indentationCurr := search nonSpaceRegex line in
  if bool_decide (indentationCurr > 0)%Z then
    let indentationPrev := search nonSpaceRegex (lineAt fm (i - 1)) in
    let indentationPrev :=
      if bool_decide (indentationPrev = (-1)%Z) then 0%Z else indentationPrev in
    if bool_decide (indentationCurr - indentationPrev > 2)%Z then
      let col := (indentationCurr + 1)%Z in
      [mkViolation i col (Some 0%Z) (Some (col - 1)%Z) (getSnippet fm col i)]
    else []
  else [].

(** no-repeating-spaces *)
Definition repeatingSpaces_body (m : rmatch) : nat * Violation :=
  let spaceCount := (Z.of_nat (group_len m 1) + 1)%Z in
  let col :=
    (Z.of_nat (index m) + search spaceWordRegex (matched line m) + 2)%Z in
  (index m + 1,
   mkViolation i col (Some (col - spaceCount)%Z) (Some (col - 1)%Z)
               (getSnippet fm col i)).

Definition repeatingSpaces : list Violation :=
  exec_while (loop_fuel line) repeatingSpaceRegex line 0 repeatingSpaces_body.

(** one-space-after-colon *)
Definition spacesAfterColon_body (m : rmatch) : nat * Violation :=
  let spaceCount := (Z.of_nat (group_len m 1) + 1)%Z in
  let col :=
    (Z.of_nat (index m) + search blankNonSpaceRegex (matched line m) + 2)%Z in
  (index m + 1,
   mkViolation i col (Some (col - spaceCount)%Z) (Some (col - 1)%Z)
               (getSnippet fm col i)).

Definition oneSpaceAfterColon : list Violation :=
  exec_while (loop_fuel line) spacesAfterColon line 0 spacesAfterColon_body.

(** no-trailing-commas *)
Definition trailingCommas : list Violation :=
  if bool_decide (search trailingCommaRegex line ≠ (-1)%Z) then
    let col := (Z.of_nat (length line) + 1)%Z in
    [mkViolation i col None None (getSnippet fm col i)]
  else [].

(** warn-commas-in-front-matter *)
Definition warnCommas_body (m : rmatch) : nat * Violation :=
  let col := (Z.of_nat (index m) + 2)%Z in
  (index m + 1, mkViolation i col None None (getSnippet fm col i)).

Definition warnCommas : list Violation :=
  exec_while (loop_fuel line) commaInFrontMatterRegex line 0 warnCommas_body.
End Rules.

(** ** [lintLineByLine] *)

(** The object [basicErrors], one field per key, in the order of the keys. *)
Record BasicErrors : Type := mkBasicErrors {
  missingRequiredAttribute : list jsstring;
  noWhitespaceBeforeColon : list Violation;
  noEmptyLines : list nat;
  noQuotes : list Violation;
  noTrailingSpaces : list Violation;
  noBrackets : list Violation;
  noCurlyBraces : list Violation;
  indentationJump : list Violation;
  noTrailingCommas : list Violation
}.

(** The object [basicWarnings]. *)
Record BasicWarnings : Type := mkBasicWarnings {
  unintendedWhitespace : list Violation;
  unintendedCommas : list Violation
}.

(** The variables the loop of [lintLineByLine] updates. *)
Record Scan : Type := mkScan {
  scanErrors : nat;           (* fileErrors *)
  scanWarnings : nat;         (* fileWarnings *)
  scanFixable : nat;          (* the module's fixableErrors *)
  scanBasicErrors : BasicErrors;
  scanBasicWarnings : BasicWarnings
}.

(** [line.split(":")[0]]. *)
Definition beforeColon (line : jsstring) : jsstring :=
  default [] (head (split_on ":"%char line)).

Fixpoint list_indexOf (x : jsstring) (l : list jsstring) : option nat :=
  match l with
  | [] => None
  | y :: l' => if jsstring_eqb y x then Some 0 else S <$> list_indexOf x l'
  end.

(** The [// attributes] step: a line that starts with a key removes the key
    from the required attributes still missing. *)
Definition seenAttribute (line : jsstring) (missing : list jsstring)
  : list jsstring :=
  match exec attributeRegex line 0 with
  | Some _ =>
      match list_indexOf (trim (beforeColon line)) missing with
      | Some atrIndex => splice1 atrIndex missing
      | None => missing
      end
  | None => missing
  end.

(** [!args.fix && ...] in front of a rule. *)
Definition unless_fix {A} (fix_ : bool) (l : list A) : list A :=
  if fix_ then [] else l.

(** One iteration of the [for] loop. *)
Definition lintLine (fix_ : bool) (fm : list jsstring) (acc : Scan) (i : nat)
  : Scan :=
  let line := lineAt fm i in
  let be := scanBasicErrors acc in
  let bw := scanBasicWarnings acc in
  let missing := seenAttribute line (missingRequiredAttribute be) in
  if negb fix_ && jsstring_eqb (trim line) [] then
    (* no-empty-lines, then [continue] *)
    mkScan (scanErrors acc + 1) (scanWarnings acc) (scanFixable acc + 1)
      (mkBasicErrors missing (noWhitespaceBeforeColon be)
         (noEmptyLines be ++ [i]) (noQuotes be) (noTrailingSpaces be)
         (noBrackets be) (noCurlyBraces be) (indentationJump be)
         (noTrailingCommas be))
      bw
  else
    let e_wsbc := unless_fix fix_ (spacesBeforeColon fm i line) in
    let e_quotes := unless_fix fix_ (quotes fm i line) in
    let e_trailing := unless_fix fix_ (trailingSpaces fm i line) in
    let e_brackets := unless_fix fix_ (brackets fm i line) in
    let e_curly := unless_fix fix_ (curlyBraces fm i line) in
    let e_indent := unless_fix fix_ (indentation fm i line) in
    let w_repeat := repeatingSpaces fm i line in
    let w_colon := unless_fix fix_ (oneSpaceAfterColon fm i line) in
    let e_commas := unless_fix fix_ (trailingCommas fm i line) in
    let w_commas := warnCommas fm i line in
    let found := length e_wsbc + length e_quotes + length e_trailing
                 + length e_brackets + length e_curly + length e_indent
                 + length e_commas in
    mkScan (scanErrors acc + found)
      (scanWarnings acc + length w_repeat + length w_colon + length w_commas)
      (scanFixable acc + found)
      (mkBasicErrors missing (noWhitespaceBeforeColon be ++ e_wsbc)
         (noEmptyLines be) (noQuotes be ++ e_quotes)
         (noTrailingSpaces be ++ e_trailing) (noBrackets be ++ e_brackets)
         (noCurlyBraces be ++ e_curly) (indentationJump be ++ e_indent)
         (noTrailingCommas be ++ e_commas))
      (mkBasicWarnings (unintendedWhitespace bw ++ w_repeat ++ w_colon)
         (unintendedCommas bw ++ w_commas)).

(** The rows the loop visits: [for (let i = 1; i < fm.length - 1; i++)]. *)
Definition bodyRows (fm : list jsstring) : list nat := seq 1 (length fm - 2).

Definition scanStart (requiredAttributes : list jsstring) (fixable : nat)
  : Scan :=
  mkScan 0 0 fixable
    (mkBasicErrors requiredAttributes [] [] [] [] [] [] [] [])
    (mkBasicWarnings [] []).

Definition scanLines (fix_ : bool) (fm : list jsstring)
    (requiredAttributes : list jsstring) (fixable : nat) : Scan :=
  foldl (lintLine fix_ fm) (scanStart requiredAttributes fixable) (bodyRows fm).

(** ** Messages, reported entries and the console *)

Definition msg_missing : jsstring := js "missing required attribute".
Definition msg_wsbc : jsstring :=
  js "there must be no whitespace before colons".
Definition msg_empty : jsstring := js "there must be no empty lines".
Definition msg_quotes : jsstring :=
  js "there must be no quotes in the front matter".
Definition msg_trailing : jsstring := js "there must be no trailing spaces".
Definition msg_brackets : jsstring := js "there must be no brackets".
Definition msg_curly : jsstring := js "there must be no curly braces".
Definition msg_indent : jsstring :=
  js "lines cannot be indented more than 2 spaces from the previous line".
Definition msg_commas : jsstring := js "there must be no trailing commas".
Definition msg_whitespace : jsstring := js "possibly unintended whitespace".
Definition msg_warn_commas : jsstring := js "possibly unintended commas".

Definition oneLineErrors : list jsstring := [msg_empty; msg_missing].

(** The affected-location descriptor a plugin hands to its callback; every
    property may be absent. *)
Record Affected : Type := mkAffected {
  affRow : option Z;
  affCol : option Z;
  affSnippet : option jsstring
}.

(** What the arrays of the error and warning objects hold: attribute names,
    row numbers, violations, or a plugin's descriptor. *)
Inductive entry : Type :=
| EAttr (a : jsstring)
| ERow (i : nat)
| EViol (v : Violation)
| EAffected (a : Affected).

(** The [affected] argument of the reporting functions of [errors.js]. *)
Inductive shown : Type :=
| ShownText (s : jsstring)
| ShownEntries (l : list entry)
| ShownMark (r c : option nat) (snip : jsstring)
| ShownAffected (a : Affected)
| ShownRow (r : Z)
| ShownSnippet (s : option jsstring).

(** Calls of the reporting functions and of [console.log], in order; the
    [args] argument they all receive is left out.  [ShowErrorUndefined] is
    [showError] called with the [reason] of an exception that has none, and
    [ConsoleLogThrown] is [console.log] of such an exception. *)
Inductive event : Type :=
| ShowError (message filePath : jsstring) (affected : shown) (oneline : bool)
| ShowWarning (message filePath : jsstring) (affected : shown) (oneline : bool)
| ShowOneline (type message filePath : jsstring) (logAffected : option shown)
| ConsoleLogError (reason : jsstring)
| ShowErrorUndefined (filePath : jsstring) (affected : shown)
| ConsoleLogThrown.

(** [basicErrors] and [basicWarnings] as the objects they are. *)
Definition errorsObject (be : BasicErrors) : list (jsstring * list entry) :=
  [ (msg_missing, EAttr <$> missingRequiredAttribute be);
    (msg_wsbc, EViol <$> noWhitespaceBeforeColon be);
    (msg_empty, ERow <$> noEmptyLines be);
    (msg_quotes, EViol <$> noQuotes be);
    (msg_trailing, EViol <$> noTrailingSpaces be);
    (msg_brackets, EViol <$> noBrackets be);
    (msg_curly, EViol <$> noCurlyBraces be);
    (msg_indent, EViol <$> indentationJump be);
    (msg_commas, EViol <$> noTrailingCommas be) ].

Definition warningsObject (bw : BasicWarnings) : list (jsstring * list entry) :=
  [ (msg_whitespace, EViol <$> unintendedWhitespace bw);
    (msg_warn_commas, EViol <$> unintendedCommas bw) ].

(** [Object.keys(o).forEach(message => { if (o[message].length > 0) ... })],
    the dots being a call of [showError] or [showWarning]. *)
Definition reportAll (show : jsstring -> list entry -> event)
    (o : list (jsstring * list entry)) : list event :=
  omap (fun kv : jsstring * list entry =>
          match kv.2 with
          | [] => None
          | _ :: _ => Some (show kv.1 kv.2)
          end) o.

(** ** Arguments, results and the module state *)

(** The arguments object, with the properties the linter reads. *)
Record Args : Type := mkArgs {
  path : jsstring;
  fix_ : bool;
  recursive : bool;
  quiet : bool;
  oneline : bool;
  colored : bool
}.

Definition set_quiet (q : bool) (a : Args) : Args :=
  mkArgs (path a) (fix_ a) (recursive a) q (oneline a) (colored a).

(** What [lintLineByLine] returns. *)
Module Basic.
Record t : Type := mk {
  filePath : jsstring;
  fileErrors : nat;
  fileWarnings : nat;
  errors : BasicErrors;
  warnings : BasicWarnings
}.
End Basic.

(** What [extraLinters] returns. *)
Module Extra.
Record t : Type := mk {
  extraErrors : gmap jsstring (list entry);
  extraWarnings : gmap jsstring (list entry);
  fileErrors : nat;
  fileWarnings : nat
}.
End Extra.

(** The [errors] property of what [lintFile] resolves with. *)
Inductive errorsResult : Type :=
| NoFrontMatter                                   (* { noFrontMatter: true } *)
| CustomError (message : jsstring) (r c : option nat)
                                                  (* { customError: {...} } *)
| ErrorsByMessage (m : gmap jsstring (list entry))
| CustomErrorUndefined.  (* { customError: {} }, all three undefined *)

(** What [lintFile] resolves with. *)
Module Outcome.
Record t : Type := mk {
  filePath : jsstring;
  fileErrors : nat;
  fileWarnings : nat;
  errors : errorsResult;
  warnings : gmap jsstring (list entry)
}.
End Outcome.

(** An exception of the YAML library: [reason] and, when the library gives
    one, [mark] with its zero-based [line] and [column]. *)
Record YAMLException : Type := mkYAMLException {
  reason : jsstring;
  mark : option (nat * nat)
}.

(** What the inner [try] of [lintFile] can catch: an exception of the YAML
    library, what [writeFileSync] throws for a path, or the [TypeError] of
    spreading a value that is not iterable, raised for a message.  Only the
    first has a [reason] and, at times, a [mark]. *)
Inductive Thrown : Type :=
| ThrownByYaml (e : YAMLException)
| ThrownByWrite (filePath : jsstring)
| ThrownBySpread (message : jsstring).

(** The names of the properties every object inherits from
    [Object.prototype]; each holds a function or an object, so it is truthy
    and cannot be spread into an array. *)
Definition objectPrototype : list jsstring :=
  js <$> [ "constructor"; "__defineGetter__"; "__defineSetter__";
           "hasOwnProperty"; "__lookupGetter__"; "__lookupSetter__";
           "isPrototypeOf"; "propertyIsEnumerable"; "toString"; "valueOf";
           "__proto__"; "toLocaleString" ].

(** One call of a plugin's [showOneline] callback. *)
Record Report : Type := mkReport {
  reportType : jsstring;
  reportMessage : jsstring;
  reportAffected : option Affected
}.

(** What running a plugin amounts to: the calls of the callback it makes, in
    order, and the [errors] and [warnings] it returns.  A plugin does not
    catch what its callback throws: the exception ends it. *)
Record PluginRun : Type := mkPluginRun {
  reports : list Report;
  pluginErrors : nat;
  pluginWarnings : nat
}.

(** ** The linter, over the YAML library *)

Section Linter.
(** The value [load] returns, and the two functions taken from js-yaml;
    both may throw. *)
Variable Attributes : Type.
Variable load : jsstring -> YAMLException + Attributes.
Variable dump : Attributes -> YAMLException + jsstring.

(** A plugin of [config.extraLintFns] sees the attributes and the lines of
    the block; it is taken to throw nothing of its own. *)
Definition Plugin : Type := Attributes -> list jsstring -> PluginRun.

(** The configuration, with the properties the linter reads. *)
Record Config : Type := mkConfig {
  requiredAttributes : list jsstring;
  mandatory : bool;
  extraLintFns : option (list Plugin)
}.

(** The module-level variables, the file system and the console.
    [files] holds the text [readFileSync] gives for a path, and
    [readOnly] the paths [writeFileSync] throws on. *)
Record State : Type := mkStateOn {
  args : Args;
  config : Config;
  errorNumber : nat;
  fixableErrors : nat;
  warningNumber : nat;
  exitCode : option nat;
  files : gmap jsstring jsstring;
  console : list event;
  readOnly : gset jsstring
}.

(** A state in which every path can be written. *)
Definition mkState (a : Args) (c : Config) (errors fixable warnings : nat)
    (code : option nat) (fs : gmap jsstring jsstring) (out : list event)
  : State :=
  mkStateOn a c errors fixable warnings code fs out ∅.

Definition log (es : list event) (st : State) : State :=
  mkStateOn (args st) (config st) (errorNumber st) (fixableErrors st)
            (warningNumber st) (exitCode st) (files st) (console st ++ es)
            (readOnly st).

(** [lintLineByLine(fm, filePath)] *)
Definition lintLineByLine (fm : list jsstring) (filePath : jsstring)
    (st : State) : Basic.t * State :=
  let sc := scanLines (fix_ (args st)) fm (requiredAttributes (config st))
                      (fixableErrors st) in
  let basicErrors := scanBasicErrors sc in
  let basicWarnings := scanBasicWarnings sc in
  let fileErrors :=
    scanErrors sc + length (missingRequiredAttribute basicErrors) in
  let shownNow :=
    if quiet (args st) then []
    else
      reportAll (fun message es =>
                   ShowError message filePath (ShownEntries es)
                             (bool_decide (message ∈ oneLineErrors)))
                (errorsObject basicErrors)
      ++ reportAll (fun message es =>
                      ShowWarning message filePath (ShownEntries es) false)
                   (warningsObject basicWarnings) in
  (Basic.mk filePath fileErrors (scanWarnings sc) basicErrors basicWarnings,
   mkStateOn (args st) (config st) (errorNumber st) (scanFixable sc)
             (warningNumber st) (exitCode st) (files st)
             (console st ++ shownNow) (readOnly st)).

(** JavaScript truthiness of an optional number and an optional string. *)
Definition truthyNum (o : option Z) : bool :=
  match o with
  | Some z => negb (z =? 0)%Z
  | None => false
  end.

Definition truthyStr (o : option jsstring) : bool :=
  match o with
  | Some (_ :: _) => true
  | _ => false
  end.

(** What the callback of [extraLinters] has built so far. *)
Record Collected : Type := mkCollected {
  extraErrors : gmap jsstring (list entry);
  extraWarnings : gmap jsstring (list entry);
  oneliners : list event
}.

(** [{ row: 0, col: 3 }] *)
Definition defaultAffected : Affected := mkAffected (Some 0%Z) (Some 3%Z) None.

(** [{ ...o, [message]: [...(!o[message] ? [] : o[message]), x] }].
    [o] is a plain object whose own properties are the keys of the map:
    for a message it does not hold itself, [o[message]] is [undefined]
    unless the message names a property of [Object.prototype]; then it is
    the inherited value, and spreading that throws.  [None] stands for the
    exception. *)
Definition record (message : jsstring) (x : Affected)
    (o : gmap jsstring (list entry)) : option (gmap jsstring (list entry)) :=
  match o !! message with
  | Some es => Some (<[message := es ++ [EAffected x]]> o)
  | None =>
      if bool_decide (message ∈ objectPrototype) then None
      else Some (<[message := [EAffected x]]> o)
  end.

(** The callback [showOneline: (type, message, affected) => { ... }]:
    what it has built when it returns, or what it throws, after the call
    of the imported [showOneline], with what it had built. *)
Definition showOnelineCallback (filePath : jsstring) (acc : Collected)
    (r : Report) : Thrown * Collected + Collected :=
  let affected := reportAffected r in
  let dropped :=
    match affected with
    | Some a => negb (truthyNum (affRow a)) && negb (truthyStr (affSnippet a))
    | None => false
    end in
  if dropped then inr acc
  else
    let logAffected :=
      match affected with
      | None => None
      | Some a =>
          if truthyNum (affCol a) then Some (ShownAffected a)
          else if truthyNum (affRow a)
               then Some (ShownRow (default 0%Z (affRow a)))
               else Some (ShownSnippet (affSnippet a))
      end in
    let shownNow :=
      [ShowOneline (reportType r) (reportMessage r) filePath logAffected] in
    let extensionAffected :=
      match affected with
      | Some a => if truthyNum (affRow a) then a else defaultAffected
      | None => defaultAffected
      end in
    let thrown :=
      (ThrownBySpread (reportMessage r),
       mkCollected (extraErrors acc) (extraWarnings acc)
                   (oneliners acc ++ shownNow)) in
    if jsstring_eqb (reportType r) (js "Error") then
      match record (reportMessage r) extensionAffected (extraErrors acc) with
      | Some extraErrors =>
          inr (mkCollected extraErrors (extraWarnings acc)
                           (oneliners acc ++ shownNow))
      | None => inl thrown
      end
    else
      match record (reportMessage r) extensionAffected
                   (extraWarnings acc) with
      | Some extraWarnings =>
          inr (mkCollected (extraErrors acc) extraWarnings
                           (oneliners acc ++ shownNow))
      | None => inl thrown
      end.

(** The calls of the callback a plugin makes, up to the first that
    throws. *)
Fixpoint callAll (filePath : jsstring) (acc : Collected)
    (rs : list Report) : Thrown * Collected + Collected :=
  match rs with
  | [] => inr acc
  | r :: rs' =>
      match showOnelineCallback filePath acc r with
      | inl thrown => inl thrown
      | inr acc => callAll filePath acc rs'
      end
  end.

(** One turn of [config.extraLintFns.forEach]. *)
Definition runLinter (attributes : Attributes) (fmLines : list jsstring)
    (filePath : jsstring) (acc : Collected * (nat * nat)) (linter : Plugin)
  : Thrown * Collected + Collected * (nat * nat) :=
  let ran := linter attributes fmLines in
  match callAll filePath acc.1 (reports ran) with
  | inl thrown => inl thrown
  | inr collected =>
      inr (collected,
           (acc.2.1 + pluginErrors ran, acc.2.2 + pluginWarnings ran))
  end.

(** [config.extraLintFns.forEach((linter) => { ... })], up to the first
    turn that throws. *)
Fixpoint runLinters (attributes : Attributes) (fmLines : list jsstring)
    (filePath : jsstring) (acc : Collected * (nat * nat))
    (fns : list Plugin) : Thrown * Collected + Collected * (nat * nat) :=
  match fns with
  | [] => inr acc
  | linter :: fns' =>
      match runLinter attributes fmLines filePath acc linter with
      | inl thrown => inl thrown
      | inr acc => runLinters attributes fmLines filePath acc fns'
      end
  end.

(** [extraLinters(attributes, fmLines, filePath)]: what it returns, or
    what it throws; either way the console has what [showOneline] was
    given up to then. *)
Definition extraLinters (attributes : Attributes) (fmLines : list jsstring)
    (filePath : jsstring) (st : State)
  : Thrown * State + Extra.t * State :=
  match extraLintFns (config st) with
  | None => inr (Extra.mk ∅ ∅ 0 0, st)
  | Some fns =>
      match runLinters attributes fmLines filePath
                       (mkCollected ∅ ∅ [], (0, 0)) fns with
      | inl (thrown, collected) =>
          inl (thrown, log (oneliners collected) st)
      | inr final =>
          inr (Extra.mk (extraErrors final.1) (extraWarnings final.1)
                        final.2.1 final.2.2,
               log (oneliners final.1) st)
      end
  end.

(** [line.replace(/\s*,$/g, E)], [E] the empty string: a match ends where
    the line ends, so there is at most one. *)
Definition stripTrailingComma (line : jsstring) : jsstring :=
  match exec dumpCommaRegex line 0 with
  | Some m => take (index m) line ++ drop (index m + match_len m) line
  | None => line
  end.

(** The block fix mode builds from [dump(attributes)]: the lines of the
    dump without trailing commas, the sentinel and the opening delimiter in
    front, and the last element overwritten by the closing delimiter. *)
Definition fixedFrontMatter (dumped : jsstring) : list jsstring :=
  let fixedFm :=
    [] :: js "---" :: (stripTrailingComma <$> split_on LF dumped) in
  <[length fixedFm - 1 := js "---"]> fixedFm.

(** [writeFileSync(filePath, data)]: the file has the data, or, for a
    path that cannot be written, the call throws and nothing changes. *)
Definition writeFileSync (filePath data : jsstring) (st : State)
  : Thrown + State :=
  if bool_decide (filePath ∈ readOnly st) then inl (ThrownByWrite filePath)
  else
    inr (mkStateOn (args st) (config st) (errorNumber st) (fixableErrors st)
                   (warningNumber st) (exitCode st)
                   (<[filePath := data]> (files st)) (console st)
                   (readOnly st)).

Definition addTotals (e w : nat) (st : State) : State :=
  mkStateOn (args st) (config st) (errorNumber st + e) (fixableErrors st)
            (warningNumber st + w) (exitCode st) (files st) (console st)
            (readOnly st).

Definition setExitCode (n : nat) (st : State) : State :=
  mkStateOn (args st) (config st) (errorNumber st) (fixableErrors st)
            (warningNumber st) (Some n) (files st) (console st)
            (readOnly st).

Definition setArgsConfig (a : Args) (c : Config) (st : State) : State :=
  mkStateOn a c (errorNumber st) (fixableErrors st) (warningNumber st)
            (exitCode st) (files st) (console st) (readOnly st).

(** The lines of the file: carriage returns removed, split at line feeds,
    and an empty line in front so that indices are line numbers. *)
Definition fileLines (data : jsstring) : list jsstring :=
  [] :: split_on LF (remove_cr data).

(** The argument of [load]. *)
Definition loadInput (fmLines : list jsstring) : jsstring :=
  join [LF] (List.filter (fun l => negb (jsstring_eqb l (js "---"))) fmLines).

(** The inner [try] block of [lintFile], up to [resolve]: the outcome, or
    what is thrown, either way with the state reached. *)
Definition lintFrontMatter (filePath : jsstring) (lines : list jsstring)
    (fmClosingTagIndex : nat) (st : State)
  : Thrown * State + Outcome.t * State :=
  let fmLines := take (fmClosingTagIndex + 1) lines in
  match load (loadInput fmLines) with
  | inl error => inl (ThrownByYaml error, st)
  | inr attributes =>
      let fixed :=
        if fix_ (args st) then
          match dump attributes with
          | inl error => inl (ThrownByYaml error, st)
          | inr dumped =>
              let fixedFm := fixedFrontMatter dumped in
              let content := join [LF] (drop (fmClosingTagIndex + 1) lines) in
              match writeFileSync filePath
                      (join [LF] (drop 1 fixedFm) ++ [LF] ++ content) st with
              | inl thrown => inl (thrown, st)
              | inr st => inr (fixedFm, st)
              end
          end
        else inr (fmLines, st) in
      match fixed with
      | inl thrown => inl thrown
      | inr (fmLines, st) =>
          let (basic, st) := lintLineByLine fmLines filePath st in
          match extraLinters attributes fmLines filePath st with
          | inl thrown => inl thrown
          | inr (extra, st) =>
              let st :=
                addTotals
                  (Basic.fileErrors basic + Extra.fileErrors extra)
                  (Basic.fileWarnings basic + Extra.fileWarnings extra)
                  st in
              inr (Outcome.mk filePath (errorNumber st) (warningNumber st)
                     (ErrorsByMessage
                        (Extra.extraErrors extra
                         ∪ list_to_map (errorsObject (Basic.errors basic))))
                     (Extra.extraWarnings extra
                      ∪ list_to_map
                          (warningsObject (Basic.warnings basic))),
                   st)
          end
      end
  end.

(** [getSnippet(fmLines, col, row)] in the [catch] block, where [row] and
    [col] are [undefined] when the exception has no mark. *)
Definition markSnippet (fmLines : list jsstring) (mk : option (nat * nat))
  : jsstring :=
  match mk with
  | Some (l, c) => getSnippet fmLines (Z.of_nat (c + 1)) (l + 1)
  | None =>
      js "NaN | undefined" ++ [LF] ++ js "undefined | undefined" ++ [LF]
      ++ js "----^" ++ [LF] ++ js "NaN | undefined" ++ [LF]
  end.

(** [error.mark], which only an exception of the YAML library may
    have. *)
Definition thrownMark (error : Thrown) : option (nat * nat) :=
  match error with
  | ThrownByYaml e => mark e
  | _ => None
  end.

(** The [catch] block of the inner [try].  Where the exception has no
    mark, the snippet does not depend on [fmLines]. *)
Definition lintFileCatch (filePath text : jsstring) (fmLines : list jsstring)
    (error : Thrown) (st : State) : Outcome.t * State :=
  let st :=
    match text with
    | _ :: _ =>
        log [match error with
             | ThrownByYaml e => ConsoleLogError (reason e)
             | _ => ConsoleLogThrown
             end] st
    | [] => st
    end in
  let st := addTotals 1 0 st in
  let row := (fun m : nat * nat => m.1 + 1) <$> thrownMark error in
  let col := (fun m : nat * nat => m.2 + 1) <$> thrownMark error in
  let affected := ShownMark row col (markSnippet fmLines (thrownMark error)) in
  let st :=
    if quiet (args st) then st
    else log [match error with
              | ThrownByYaml e => ShowError (reason e) filePath affected false
              | _ => ShowErrorUndefined filePath affected
              end] st in
  (Outcome.mk filePath (errorNumber st) (warningNumber st)
              match error with
              | ThrownByYaml e => CustomError (reason e) row col
              | _ => CustomErrorUndefined
              end ∅,
   st).

(** How the promise of [lintFile] settles. *)
Inductive Settled : Type :=
| Resolved (o : Outcome.t)
| Rejected.

Definition makeSure : jsstring :=
  js "Make sure front matter is at the beginning of the file.".

(** The first statement of [lintFile]: a non-empty [text] is the data and
    installs [a] and [c] as the module's [args] and [config]; otherwise the
    file is read, and [None] stands for [readFileSync] throwing. *)
Definition lintFileInput (filePath text : jsstring) (a : Args) (c : Config)
    (st : State) : option (jsstring * State) :=
  match text with
  | _ :: _ => Some (text, setArgsConfig a c st)
  | [] => (fun data => (data, st)) <$> files st !! filePath
  end.

(** [lintFile(filePath, text, a, c)].  A missing file makes [readFileSync]
    throw, which the outer [catch] turns into a rejection. *)
Definition lintFile (filePath text : jsstring) (a : Args) (c : Config)
    (st : State) : Settled * State :=
  match lintFileInput filePath text a c st with
  | None => (Rejected, st)
  | Some (data, st) =>
      let lines := fileLines data in
      let fmClosingTagIndex := indexOf lines (js "---") 2 in
      match (if startsWith (lineAt lines 1) (js "---")
             then fmClosingTagIndex else None) with
      | None =>
          let st :=
            if quiet (args st) then st
            else
              log [(if mandatory (config st) then ShowError else ShowWarning)
                     (js "front matter not found") filePath
                     (ShownText makeSure) true] st in
          let st :=
            if mandatory (config st) then addTotals 1 0 (setExitCode 1 st)
            else addTotals 0 1 st in
          (Resolved (Outcome.mk filePath (errorNumber st) (warningNumber st)
                                NoFrontMatter ∅),
           st)
      | Some fmClosingTagIndex =>
          match lintFrontMatter filePath lines fmClosingTagIndex st with
          | inr (outcome, st) => (Resolved outcome, st)
          | inl (error, st) =>
              let (outcome, st) :=
                lintFileCatch filePath text
                  (take (fmClosingTagIndex + 1) lines) error st in
              (Resolved outcome, st)
          end
      end
  end.
End Linter.

Arguments mkConfig {Attributes}.
Arguments requiredAttributes {Attributes}.
Arguments mandatory {Attributes}.
Arguments extraLintFns {Attributes}.
Arguments mkState {Attributes}.
Arguments args {Attributes}.
Arguments config {Attributes}.
Arguments errorNumber {Attributes}.
Arguments fixableErrors {Attributes}.
Arguments warningNumber {Attributes}.
Arguments exitCode {Attributes}.
Arguments files {Attributes}.
Arguments console {Attributes}.
Arguments readOnly {Attributes}.
Arguments mkStateOn {Attributes}.
Arguments log {Attributes}.
Arguments writeFileSync {Attributes}.
Arguments addTotals {Attributes}.
Arguments setExitCode {Attributes}.
Arguments setArgsConfig {Attributes}.
Arguments lintLineByLine {Attributes}.
Arguments extraLinters {Attributes}.
Arguments lintFrontMatter {Attributes}.
Arguments lintFileCatch {Attributes}.
Arguments lintFileInput {Attributes}.
Arguments lintFile {Attributes}.

(** ** A YAML library for flat mappings of plain scalars

    An instance of the interface above, used to run the linter on concrete
    files: [load] reads one [key: value] entry per non-blank line and throws
    on a line without a colon, [dump] writes the entries back one per line,
    scalars unquoted. *)
Module PlainYaml.
Definition Attributes : Type := list (jsstring * jsstring).

Definition afterColon (line : jsstring) : jsstring :=
  drop (S (length (beforeColon line))) line.

Fixpoint loadLines (lineNo : nat) (ls : list jsstring)
  : YAMLException + Attributes :=
  match ls with
  | [] => inr []
  | l :: ls' =>
      if jsstring_eqb (trim l) [] then loadLines (S lineNo) ls'
      else if existsb (chr_eqb ":"%char) l then
        match loadLines (S lineNo) ls' with
        | inr kvs => inr ((trim (beforeColon l), trim (afterColon l)) :: kvs)
        | inl e => inl e
        end
      else inl (mkYAMLException
                  (js "can not read a block mapping entry") (Some (lineNo, 0)))
  end.

Definition load (s : jsstring) : YAMLException + Attributes :=
  loadLines 0 (split_on LF s).

Definition dumpEntry (kv : jsstring * jsstring) : jsstring :=
  kv.1 ++ js ": " ++ kv.2 ++ [LF].

Definition dump (a : Attributes) : YAMLException + jsstring :=
  match a with
  | [] => inr (js "{}" ++ [LF])
  | _ :: _ => inr (concat (dumpEntry <$> a))
  end.

Definition noPlugins : Config Attributes := mkConfig [] true None.

Definition start (a : Args) (fs : gmap jsstring jsstring)
  : State Attributes :=
  mkState a noPlugins 0 0 0 None fs [].

(** A quiet run on [post.md], without and with [--fix]. *)
Definition post : jsstring := js "post.md".
Definition lintArgs : Args := mkArgs post false false true false false.
Definition fixArgs : Args := mkArgs post true false true false false.
Definition linting : State Attributes := start lintArgs ∅.
Definition fixing : State Attributes := start fixArgs ∅.
End PlainYaml.

(** A text from its lines. *)
Definition text_of (ls : list string) : jsstring := join [LF] (js <$> ls).

(** ** Vocabulary of the properties *)

(** A line is blank when [line.trim()] is the empty string. *)
Definition blank (line : jsstring) : bool := jsstring_eqb (trim line) [].

(** The type of a rule: block, row and line to the violations pushed. *)
Definition Rule : Type := list jsstring -> nat -> jsstring -> list Violation.

(** What a rule contributes for row [i]: nothing in fix mode and nothing on
    a blank line, where the loop has already [continue]d. *)
Definition errorRule (rule : Rule) (fix_ : bool) (fm : list jsstring)
    (i : nat) : list Violation :=
  if fix_ then []
  else if blank (lineAt fm i) then [] else rule fm i (lineAt fm i).

(** The rules that run in fix mode too. *)
Definition warningRule (rule : Rule) (fix_ : bool) (fm : list jsstring)
    (i : nat) : list Violation :=
  if negb fix_ && blank (lineAt fm i) then [] else rule fm i (lineAt fm i).

(** Two states that differ at most in the console and in [args.quiet]. *)
Definition agree {A} (st1 st2 : State A) : Prop :=
  fix_ (args st1) = fix_ (args st2) /\ config st1 = config st2
  /\ errorNumber st1 = errorNumber st2 /\ fixableErrors st1 = fixableErrors st2
  /\ warningNumber st1 = warningNumber st2 /\ exitCode st1 = exitCode st2
  /\ files st1 = files st2 /\ readOnly st1 = readOnly st2.

(** What [lintFile] resolved with, if it did. *)
Definition resolved (s : Settled) : option Outcome.t :=
  match s with
  | Resolved o => Some o
  | Rejected => None
  end.

(** The spec's wording for the line an indentation is compared with: the
    nearest line above row [i] that is not blank. *)
Fixpoint previousNonBlank (fm : list jsstring) (i : nat) : option jsstring :=
  match i with
  | 0 => None
  | S j =>
      match fm !! j with
      | Some l => if blank l then previousNonBlank fm j else Some l
      | None => previousNonBlank fm j
      end
  end.

(** The text of [data] after its first [idx] lines. *)
Definition bodyAfter (idx : nat) (data : jsstring) : jsstring :=
  join [LF] (drop idx (split_on LF data)).

(** The lines of a block strictly between its two delimiter lines. *)
Definition blockBody (block : list jsstring) : list jsstring :=
  drop 2 (take (length block - 1) block).

(** [lintLineByLine] on a block of [post.md], for the examples. *)
Definition lintBlock (fm : list jsstring) (st : State PlainYaml.Attributes)
  : Basic.t :=
  (lintLineByLine fm PlainYaml.post st).1.

Arguments chr_eqb : simpl never.
Arguments is_s : simpl never.
Arguments is_w : simpl never.
Arguments is_dot : simpl never.
Arguments is_blank_tab : simpl never.

(** ** More vocabulary: what a result holds *)

(** Every positioned violation of a result, errors first. *)
Definition positioned (r : Basic.t) : list Violation :=
  noWhitespaceBeforeColon (Basic.errors r) ++ noQuotes (Basic.errors r)
  ++ noTrailingSpaces (Basic.errors r) ++ noBrackets (Basic.errors r)
  ++ noCurlyBraces (Basic.errors r) ++ indentationJump (Basic.errors r)
  ++ noTrailingCommas (Basic.errors r)
  ++ unintendedWhitespace (Basic.warnings r)
  ++ unintendedCommas (Basic.warnings r).

(** The indices of the characters of a line that lie in a class, in
    ascending order. *)
Fixpoint indices_from (q : ascii -> bool) (pos : nat) (line : jsstring)
  : list nat :=
  match line with
  | [] => []
  | c :: line' =>
      if q c then pos :: indices_from q (S pos) line'
      else indices_from q (S pos) line'
  end.

Definition indices (q : ascii -> bool) (line : jsstring) : list nat :=
  indices_from q 0 line.

(** A line declares a key when it starts like an attribute and the text in
    front of its first colon, trimmed, is the key. *)
Definition declares (line key : jsstring) : Prop :=
  is_Some (exec attributeRegex line 0) /\ trim (beforeColon line) = key.

(** The number of entries in the error arrays other than the missing
    attributes, in all the error arrays, and in the warning arrays. *)
Definition fixableEntries (be : BasicErrors) : nat :=
  length (noWhitespaceBeforeColon be) + length (noEmptyLines be)
  + length (noQuotes be) + length (noTrailingSpaces be)
  + length (noBrackets be) + length (noCurlyBraces be)
  + length (indentationJump be) + length (noTrailingCommas be).

Definition errorEntries (be : BasicErrors) : nat :=
  length (missingRequiredAttribute be) + fixableEntries be.

Definition warningEntries (bw : BasicWarnings) : nat :=
  length (unintendedWhitespace bw) + length (unintendedCommas bw).

(** A violation of row [i] that carries the snippet of its own position. *)
Definition wellPlaced (fm : list jsstring) (i : nat) (v : Violation) : Prop :=
  row v = i /\ snippet v = getSnippet fm (col v) i.

(** The classes of the character rules. *)
Definition is_quote : ascii -> bool := one_of ["'"%char; DQUOTE].
Definition is_bracket : ascii -> bool := one_of (js "[]").
Definition is_curly : ascii -> bool := one_of (js "{}").

(** The violation a character rule pushes for the character at index [p]
    of the line of row [i]. *)
Definition charViolation (fm : list jsstring) (i p : nat) : Violation :=
  mkViolation i (Z.of_nat p + 2) None None (getSnippet fm (Z.of_nat p + 2) i).

(** The violation of a whitespace run of [k] characters that starts right
    after index [p] of the line of row [i]: [col] is the column of the
    character after the run, and the span from [colStart] to [colEnd] is the
    run, as zero-based indices with the end excluded. *)
Definition spanViolation (fm : list jsstring) (i p k : nat) : Violation :=
  let col := (Z.of_nat p + Z.of_nat k + 2)%Z in
  mkViolation i col (Some (Z.of_nat p + 1)%Z)
              (Some (Z.of_nat p + Z.of_nat k + 1)%Z) (getSnippet fm col i).

(** The line has, at index [p], a character of [p1], then exactly [k >= 2]
    characters of [q], then a character of [p2]. *)
Definition spanAt (p1 q p2 : ascii -> bool) (line : jsstring) (p k : nat)
  : Prop :=
  exists pre a ws b post,
    line = pre ++ a :: ws ++ b :: post /\ length pre = p /\ length ws = k
    /\ p1 a = true /\ Forall (fun c => q c = true) ws /\ 2 <= k
    /\ p2 b = true.

(** The file has a front matter [lintFile] finds: its first line starts
    with the delimiter and a later line is the delimiter. *)
Definition hasFrontMatter (data : jsstring) : Prop :=
  let ls := split_on LF (remove_cr data) in
  startsWith (lineAt ls 0) (js "---") = true /\ js "---" ∈ drop 1 ls.

(** The report of a file without front matter. *)
Definition notFoundReport {A} (filePath : jsstring) (st : State A)
  : list event :=
  if quiet (args st) then []
  else [(if mandatory (config st) then ShowError else ShowWarning)
          (js "front matter not found") filePath (ShownText makeSure) true].

(** A serializer that refuses every value, for the examples. *)
Definition refuse (a : PlainYaml.Attributes) : YAMLException + jsstring :=
  inl (mkYAMLException (js "unacceptable kind of an object to dump") None).

(** From [st] to [st'] the counters have not decreased and the console has
    only been added to. *)
Definition grows {A} (st st' : State A) : Prop :=
  errorNumber st <= errorNumber st' /\ warningNumber st <= warningNumber st'
  /\ fixableErrors st <= fixableErrors st'
  /\ console st `prefix_of` console st'.

(** From [st] to [st'] no file but [filePath] has changed, and not even
    that one unless [fix] is set. *)
Definition writesOnly {A} (filePath : jsstring) (fix_ : bool)
    (st st' : State A) : Prop :=
  (forall p, p <> filePath -> files st' !! p = files st !! p)
  /\ (fix_ = false -> files st' = files st).

(** ** More vocabulary: what the plugins reported *)

(** A report the callback returns from at once: it has a descriptor with
    neither a row nor a snippet. *)
Definition dropped (r : Report) : bool :=
  match reportAffected r with
  | Some a => negb (truthyNum (affRow a)) && negb (truthyStr (affSnippet a))
  | None => false
  end.

(** The location a report is recorded with. *)
Definition recordedAs (r : Report) : Affected :=
  match reportAffected r with
  | Some a => if truthyNum (affRow a) then a else defaultAffected
  | None => defaultAffected
  end.

Definition isError (r : Report) : bool :=
  jsstring_eqb (reportType r) (js "Error").

(** The calls of the callback, over all plugins, in order. *)
Definition allReports {A} (attributes : A) (fmLines : list jsstring)
    (fns : list (Plugin A)) : list Report :=
  concat ((fun linter : Plugin A => reports (linter attributes fmLines))
            <$> fns).

(** The entries of the reports that are kept, are errors ([err]) or not,
    and carry the message [msg]. *)
Definition recordedUnder (err : bool) (msg : jsstring) (rs : list Report)
  : list entry :=
  (fun r => EAffected (recordedAs r))
    <$> List.filter (fun r => negb (dropped r) && Bool.eqb (isError r) err
                              && jsstring_eqb (reportMessage r) msg) rs.

(** An object has a property for a message only once something is recorded
    under it. *)
Definition asProperty (es : list entry) : option (list entry) :=
  match es with
  | [] => None
  | _ :: _ => Some es
  end.

(** A plugin that reports two errors under one message, one of them without
    a location, a report it drops, and a warning, and returns the counts
    1 and 1; for the examples. *)
Definition lengthPlugin : Plugin PlainYaml.Attributes :=
  fun _ _ =>
    mkPluginRun
      [ mkReport (js "Error") (js "too long")
                 (Some (mkAffected (Some 2%Z) (Some 9%Z) None));
        mkReport (js "Error") (js "too long") None;
        mkReport (js "Error") (js "too long")
                 (Some (mkAffected None (Some 4%Z) None));
        mkReport (js "Warning") (js "too short")
                 (Some (mkAffected (Some 3%Z) None None)) ]
      1 1.

(** ** A YAML library for block scalars in literal style

    A second instance of the interface, for the examples: [load] keeps the
    lines of the block that are not empty and [dump] writes them back as
    they are, each followed by a line feed.  That is what a YAML library
    does with a mapping of block scalars in literal style, whose lines it
    writes verbatim. *)
Module LiteralYaml.
Definition Attributes : Type := list jsstring.

Definition load (s : jsstring) : YAMLException + Attributes :=
  inr (List.filter (fun l => negb (jsstring_eqb l [])) (split_on LF s)).

Definition dump (a : Attributes) : YAMLException + jsstring :=
  inr (join [LF] a ++ [LF]).

Definition noPlugins : Config Attributes := mkConfig [] true None.

Definition start (a : Args) (fs : gmap jsstring jsstring)
  : State Attributes :=
  mkState a noPlugins 0 0 0 None fs [].
End LiteralYaml.

(** A plugin that reports one error under the message [constructor] and
    returns the counts 1 and 0; for the examples. *)
Definition constructorPlugin : Plugin PlainYaml.Attributes :=
  fun _ _ => mkPluginRun [mkReport (js "Error") (js "constructor") None] 1 0.

(** The line has a colon at index [p + k] with a run of [k >= 1] whitespace
    characters in front of it, the run starting at index [p] and being as
    long as it can: nothing or a character that is not whitespace stands
    before it. *)
Definition spaceBeforeColonAt (line : jsstring) (p k : nat) : Prop :=
  exists pre ws post,
    line = pre ++ ws ++ ":"%char :: post /\ length pre = p /\ length ws = k
    /\ 1 <= k /\ Forall (fun c => is_s c = true) ws
    /\ (forall c, last pre = Some c -> is_s c = false).

(** The violation for such a colon: [col] is the colon's column counted
    from one, and the span from [colStart] to [colEnd] is the run. *)
Definition colonViolation (fm : list jsstring) (i p k : nat) : Violation :=
  let col := (Z.of_nat p + Z.of_nat k + 1)%Z in
  mkViolation i col (Some (Z.of_nat p)) (Some (Z.of_nat p + Z.of_nat k)%Z)
              (getSnippet fm col i).

(** The shape of the two regular expressions for whitespace runs, and of
    the one their bodies search the match with. *)
Definition spanRegex (p1 q p2 : ascii -> bool) : regex :=
  [Cls p1; Rep 2 q; Cls p2].

Definition spanInner (q p2 : ascii -> bool) : regex := [Cls q; Cls p2].

(** Where a search for whitespace before a colon may start for its matches
    to be whole runs: at the start of the line or at a character that is
    not whitespace. *)
Definition startsRun (line : jsstring) (lastIndex : nat) : Prop :=
  lastIndex = 0 \/ exists c, line !! lastIndex = Some c /\ is_s c = false.

(** Violations in the order of their columns, no column twice. *)
Definition leftToRight (vs : list Violation) : Prop :=
  StronglySorted (fun v w => (col v < col w)%Z) vs.

(** ** The walkers and [main]

    [lintNonRecursively], [lintRecursively] and [main] see the file system
    through [lstatSync] and [readdirSync], print with [console.log] and
    settle promises.  Every promise of the module is created by running its
    executor to the end, so the calls of [lintFile] happen in the order in
    which the loops make them. *)

(** [s.endsWith(p)]. *)
Definition endsWith (s p : jsstring) : bool :=
  (length p <=? length s) && jsstring_eqb (drop (length s - length p) s) p.

(** The path of an entry of a directory: the entry's name for the directory
    [.], otherwise the directory, a slash and the name. *)
Definition childPath (path file : jsstring) : jsstring :=
  if jsstring_eqb path (js ".") then file else path ++ js "/" ++ file.

#[local] Set Warnings "-register-all".

(** What [lstatSync] and [readdirSync] find at a path: nothing, so that
    [lstatSync] throws; something that is not a directory; or a directory,
    with the names [readdirSync] returns and what they name, [None] being a
    directory [readdirSync] throws on.  [lstatSync] does not follow links:
    what a walk sees is a tree. *)
Inductive Node : Type :=
| Missing
| NotDir
| Dir (entries : option (list (jsstring * Node))).

(** The properties of the configuration the walkers read; [lintFile] reads
    none of them. *)
Record WalkConfig : Type := mkWalkConfig {
  extensions : list jsstring;
  excludeDirs : list jsstring;
  extraExcludeDirs : list jsstring;
  includeDirs : list jsstring
}.

(** [list.some((x) => path.endsWith(x))] *)
Definition someEndsWith (path : jsstring) (list : list jsstring) : bool :=
  existsb (endsWith path) list.

(** The reason of a rejection: what a function of [fs] threw for a path, or
    the message about the extension. *)
Inductive Reason : Type :=
| FsError (path : jsstring)
| InvalidExtension (message : jsstring).

(** What a walker resolves with: nothing, the outcome of one file, or an
    array of such values. *)
Inductive Value : Type :=
| Undefined
| One (o : Outcome.t)
| Many (vs : list Value).

(** How the promise of a walker settles.  [Failed] carries the reasons of
    all rejections below, in the order of the arrays; the promise rejects
    with the one [Promise.all] sees first. *)
Inductive Walk : Type :=
| Done (v : Value)
| Failed (reasons : list Reason).

Definition reasonsOf (r : Walk) : list Reason :=
  match r with
  | Done _ => []
  | Failed reasons => reasons
  end.

Definition valueOf (r : Walk) : Value :=
  match r with
  | Done v => v
  | Failed _ => Undefined
  end.

(** [Promise.all(promiseArr)] *)
Definition all (rs : list Walk) : Walk :=
  match concat (reasonsOf <$> rs) with
  | [] => Done (Many (valueOf <$> rs))
  | reasons => Failed reasons
  end.

(** What the walkers and [main] print with [console.log]. *)
Inductive printed : Type :=
| PrintedText (s : jsstring)
| PrintedReason (candidates : list Reason).

(** What [main] resolves with; [errors] is absent after a rejection. *)
Module Main.
Record t : Type := mk {
  errors : option Value;
  errorNumber : nat;
  warningNumber : nat
}.
End Main.

(** The loop of [lintRecursively] over the entries of a directory: [f] is
    the call made for an entry and what it names. *)
Definition eachEntry {W} (f : jsstring -> Node -> W -> Walk * W)
  : list (jsstring * Node) -> W -> list Walk * W :=
  fix each es w :=
    match es with
    | [] => ([], w)
    | (file, child) :: es' =>
        let (r, w) := f file child w in
        let (rs, w) := each es' w in
        (r :: rs, w)
    end.

Section Walkers.
Variable Attributes : Type.
Variable load : jsstring -> YAMLException + Attributes.
Variable dump : Attributes -> YAMLException + jsstring.

(** [process.cwd()] with slashes, and [chalk.red]. *)
Variable cwd : jsstring.
Variable red : jsstring -> jsstring.

(** The module state together with what the walkers and [main] have
    printed, each line with the number of reports on the console when it
    was printed. *)
Record World : Type := mkWorld {
  module_ : State Attributes;
  prints : list (nat * printed)
}.

Definition print (p : printed) (w : World) : World :=
  mkWorld (module_ w) (prints w ++ [(length (console (module_ w)), p)]).

(** [lintFile(path)] as a walker calls it: without text, so that [args]
    and [config] stay. *)
Definition lintFileAt (filePath : jsstring) (w : World) : Walk * World :=
  let st := module_ w in
  let (s, st) := lintFile load dump filePath [] (args st) (config st) st in
  (match s with
   | Resolved o => Done (One o)
   | Rejected => Failed [FsError filePath]
   end,
   mkWorld st (prints w)).

(** The calls of [lintFile] a loop makes, in order. *)
Fixpoint lintEach (paths : list jsstring) (w : World)
  : list Walk * World :=
  match paths with
  | [] => ([], w)
  | p :: paths' =>
      let (r, w) := lintFileAt p w in
      let (rs, w) := lintEach paths' w in
      (r :: rs, w)
  end.

Definition invalidExtension (colored : bool) (path : jsstring) : jsstring :=
  (if colored then red (js "YAMLException:") else js "YAMLException:")
  ++ js " " ++ path ++ js " does not have a valid extension.".

Definition noMarkdownFiles (path : jsstring) : jsstring :=
  js "No markdown files found in " ++ cwd ++ js "/" ++ path ++ js ".".

Variable wc : WalkConfig.

(** [lintNonRecursively(path)], [n] being what is at [path]. *)
Definition lintNonRecursively (path : jsstring) (n : Node) (w : World)
  : Walk * World :=
  match n with
  | Missing => (Failed [FsError path], w)
  | Dir None => (Failed [FsError path], w)
  | Dir (Some entries) =>
      let files :=
        List.filter (fun file => someEndsWith file (extensions wc))
                    (fst <$> entries) in
      match files with
      | [] => (Done Undefined, print (PrintedText (noMarkdownFiles path)) w)
      | _ :: _ =>
          let (rs, w) := lintEach (childPath path <$> files) w in
          (all rs, w)
      end
  | NotDir =>
      if someEndsWith path (extensions wc) then lintFileAt path w
      else (Failed [InvalidExtension
                      (invalidExtension (colored (args (module_ w))) path)],
            w)
  end.

(** [allExcludedDirs], as [main] sets it. *)
Definition allExcludedDirs : list jsstring :=
  excludeDirs wc ++ extraExcludeDirs wc.

(** The test that makes [lintRecursively] skip a directory. *)
Definition skipped (path : jsstring) : bool :=
  someEndsWith path allExcludedDirs
  && negb (someEndsWith path (includeDirs wc)).

(** [lintRecursively(path)], [n] being what is at [path]. *)
Fixpoint lintRecursively (path : jsstring) (n : Node) (w : World)
  {struct n} : Walk * World :=
  match n with
  | Missing => (Failed [FsError path], w)
  | Dir entries =>
      if skipped path then (Done Undefined, w)
      else
        match entries with
        | None => (Failed [FsError path], w)
        | Some entries =>
            let (rs, w) :=
              eachEntry (fun file child =>
                           lintRecursively (childPath path file) child)
                        entries w in
            (all rs, w)
        end
  | NotDir =>
      if someEndsWith path (extensions wc) then lintFileAt path w
      else (Done Undefined, w)
  end.

(** [main(a, c)], [root] being what is at [a.path]. *)
Definition main (a : Args) (c : Config Attributes) (root : Node)
    (w : World) : Main.t * World :=
  let w := mkWorld (setArgsConfig a c (module_ w)) (prints w) in
  let (r, w) :=
    if negb (recursive a) then lintNonRecursively (path a) root w
    else lintRecursively (path a) root w in
  match r with
  | Done errors =>
      (Main.mk (Some errors) (errorNumber (module_ w))
               (warningNumber (module_ w)),
       w)
  | Failed reasons =>
      let w := print (PrintedReason reasons) w in
      let w :=
        mkWorld (addTotals 1 0 (setExitCode 1 (module_ w))) (prints w) in
      (Main.mk None (errorNumber (module_ w)) (warningNumber (module_ w)),
       w)
  end.
End Walkers.

Arguments mkWorld {Attributes}.
Arguments module_ {Attributes}.
Arguments prints {Attributes}.
Arguments print {Attributes}.
Arguments lintFileAt {Attributes}.
Arguments lintEach {Attributes}.
Arguments lintNonRecursively {Attributes}.
Arguments lintRecursively {Attributes}.
Arguments main {Attributes}.

(** ** More vocabulary: what a walk leaves behind *)

(** From [w] to [w'] the counters have not decreased, the console and the
    printed lines have only been added to, the arguments and the
    configuration are the same, no file has changed unless [fix] is set, and
    the exit code is what it was or 1. *)
Definition steady {A} (w w' : World A) : Prop :=
  grows (module_ w) (module_ w')
  /\ prints w `prefix_of` prints w'
  /\ args (module_ w') = args (module_ w)
  /\ config (module_ w') = config (module_ w)
  /\ (fix_ (args (module_ w)) = false ->
      files (module_ w') = files (module_ w))
  /\ (exitCode (module_ w') = exitCode (module_ w)
      \/ exitCode (module_ w') = Some 1).

(** [s] ends with one of the strings of [list]. *)
Definition endsWithOneOf (s : jsstring) (list : list jsstring) : Prop :=
  exists p pre, p ∈ list /\ s = pre ++ p.

(** The walkers of the examples: Markdown files, [node_modules] excluded. *)
Definition markdown : WalkConfig :=
  mkWalkConfig [js ".md"] [js "node_modules"] [] [].

Definition plainRed (s : jsstring) : jsstring := s.

Definition inWorld {A} (st : State A) : World A := mkWorld st [].

(** The files the recursive walker gets to from [path], in the order of the
    directories: every path below that is not a directory and ends with a
    configured extension, directories that are skipped or cannot be read
    left out. *)
Fixpoint reachable (wc : WalkConfig) (path : jsstring) (n : Node)
  {struct n} : list jsstring :=
  match n with
  | Missing => []
  | NotDir => if someEndsWith path (extensions wc) then [path] else []
  | Dir entries =>
      if skipped wc path then []
      else
        match entries with
        | None => []
        | Some entries =>
            (fix each (es : list (jsstring * Node)) : list jsstring :=
               match es with
               | [] => []
               | (file, child) :: es' =>
                   reachable wc (childPath path file) child ++ each es'
               end) entries
        end
  end.

(** ** The command line: [getArguments] *)

(** What an option of the command line holds: [false], [true] or a
    string. *)
Inductive argValue : Type :=
| VFalse
| VTrue
| VString (s : jsstring).

(** What [getArguments] returns; [path] and [config] are absent when the
    command line has none. *)
Module Cli.
Record t : Type := mk {
  path : option argValue;
  fix_ : argValue;
  config : option argValue;
  recursive : argValue;
  mandatory : argValue;
  quiet : argValue;
  oneline : argValue;
  colored : argValue
}.
End Cli.

(** [key.replace(/^-{1,2}/, E)], [E] the empty string. *)
Definition stripDashes (key : jsstring) : jsstring :=
  match key with
  | "-"%char :: "-"%char :: key' => key'
  | "-"%char :: key' => key'
  | _ => key
  end.

(** [s.replace(pattern, E)] for a string [pattern]: its first occurrence is
    removed. *)
Fixpoint removeFirst (pattern s : jsstring) : jsstring :=
  if startsWith s pattern then drop (length pattern) s
  else match s with
       | [] => []
       | c :: s' => c :: removeFirst pattern s'
       end.

(** [value.replace(/\\/g, "/")] *)
Definition slashes (value : jsstring) : jsstring :=
  (fun c => if chr_eqb c "\"%char then "/"%char else c) <$> value.

(** [value === "false" ? false : value === undefined ? true : value] *)
Definition asValue (value : option jsstring) : argValue :=
  match value with
  | None => VTrue
  | Some v => if jsstring_eqb v (js "false") then VFalse else VString v
  end.

Section CommandLine.
(** [process.cwd()] with slashes, [chalk.red] and [chalk.yellow]. *)
Variable cwd : jsstring.
Variables red yellow : jsstring -> jsstring.

(** The accumulator of the [reduce], with [pathRead], what has been
    printed, and whether [process.exitCode] has been set to 9. *)
Record Parsed : Type := mkParsed {
  acc : gmap jsstring argValue;
  pathRead : bool;
  printedLines : list jsstring;
  exit9 : bool
}.

Definition invalidArgument (curr : jsstring) : jsstring :=
  red (js "Invalid argument:") ++ js " "
  ++ yellow ([DQUOTE] ++ curr ++ [DQUOTE])
  ++ js ". Only one path argument is allowed.".

Definition noPathArgument : jsstring :=
  red (js "Invalid arguments:")
  ++ js " No path argument found. Please specify a path.".

(** The path as it is stored. *)
Definition storedPath (value : jsstring) : jsstring :=
  slashes (if startsWith value cwd then removeFirst (cwd ++ js "/") value
           else value).

(** One call of the function given to [reduce]; [None] when it throws,
    which it does on an option named [path] without a value. *)
Definition parseArgument (p : Parsed) (curr : jsstring) : option Parsed :=
  let pieces := split_on "="%char curr in
  let key := lineAt pieces 0 in
  let value := pieces !! 1 in
  let '(key, value, p) :=
    if startsWith key (js "-") then (stripDashes key, value, p)
    else if negb (pathRead p) then
      (js "path", Some key,
       mkParsed (acc p) true (printedLines p) (exit9 p))
    else
      (js "path", Some key,
       mkParsed (acc p) (pathRead p)
                (printedLines p ++ [invalidArgument curr]) true) in
  let value :=
    if jsstring_eqb key (js "path") then
      match value with
      | Some v => Some (Some (storedPath v))
      | None => None
      end
    else Some value in
  (fun value =>
     mkParsed (<[key := asValue value]> (acc p)) (pathRead p)
              (printedLines p) (exit9 p)) <$> value.

(** [process.argv.slice(2).reduce(..., {})] *)
Fixpoint parseArguments (p : Parsed) (argv : list jsstring)
  : option Parsed :=
  match argv with
  | [] => Some p
  | curr :: argv' =>
      match parseArgument p curr with
      | Some p => parseArguments p argv'
      | None => None
      end
  end.

(** [a !== undefined ? a : b !== undefined ? b : d] *)
Definition firstDefined (a b : option argValue) (d : argValue) : argValue :=
  match a, b with
  | Some v, _ => v
  | None, Some v => v
  | None, None => d
  end.

(** [getArguments()] for the arguments [argv] that follow the script:
    what it returns, what it prints, and whether it sets the exit code
    9; [None] when it throws. *)
Definition getArguments (argv : list jsstring)
  : option (Cli.t * list jsstring * bool) :=
  match parseArguments (mkParsed ∅ false [] false) argv with
  | None => None
  | Some p =>
      let argv := acc p in
      let long (name : string) := argv !! js name in
      Some
        (Cli.mk (long "path")
                (firstDefined (long "fix") None VFalse)
                (long "config")
                (firstDefined (long "recursive") (long "r") VFalse)
                (firstDefined (long "mandatory") (long "m") VTrue)
                (firstDefined (long "quiet") (long "q") VFalse)
                (firstDefined (long "oneline") (long "o") VFalse)
                (firstDefined (long "colored") (long "c") VTrue),
         if pathRead p then printedLines p
         else printedLines p ++ [noPathArgument],
         exit9 p || negb (pathRead p))
  end.
End CommandLine.

(** ** More vocabulary: the tokens of the command line *)

(** A token that does not start with a dash is a path. *)
Definition positional (curr : jsstring) : bool :=
  negb (startsWith curr (js "-")).

(** The name under which a token is stored: [path] for a path, otherwise
    what stands before the first equals sign, without one or two leading
    dashes. *)
Definition tokenKey (curr : jsstring) : jsstring :=
  if positional curr then js "path"
  else stripDashes (lineAt (split_on "="%char curr) 0).

(** The text a token gives for its name: the token itself for a path,
    otherwise what stands between the first and the second equals sign,
    if there is an equals sign at all. *)
Definition tokenText (curr : jsstring) : option jsstring :=
  if positional curr then Some (lineAt (split_on "="%char curr) 0)
  else split_on "="%char curr !! 1.

(** The values the tokens named [key] give, in order. *)
Definition valuesFor (cwd key : jsstring) (argv : list jsstring)
  : list argValue :=
  omap (fun curr =>
          if jsstring_eqb (tokenKey curr) key then
            Some (asValue (if jsstring_eqb key (js "path")
                           then storedPath cwd <$> tokenText curr
                           else tokenText curr))
          else None) argv.

(** The colours of the examples. *)
Definition plainYellow (s : jsstring) : jsstring := s.

(** ** The configuration: [getConfig] *)

(** A property of the configuration object: a value that came from a
    configuration file, or the value of a command-line option. *)
Inductive setting (V : Type) : Type :=
| FromFile (v : V)
| FromCommandLine (v : argValue).

Arguments FromFile {V}.
Arguments FromCommandLine {V}.

Section Configuration.
(** The values configuration files hold, and the objects
    [JSON.parse(readFileSync(path))] and [require(path)] give for a path,
    [None] when they throw. *)
Variable V : Type.
Variable readJson : jsstring -> option (gmap jsstring V).
Variable requireJs : jsstring -> option (gmap jsstring V).

(** [__dirname] and [process.cwd()] with slashes. *)
Variable dirname : jsstring.
Variable cwd : jsstring.

(** The configuration of the project: [.yaml-fm-lint.js] when it loads,
    otherwise [.yaml-fm-lint.json] when it can be read, otherwise
    nothing. *)
Definition projectConfig : gmap jsstring V :=
  match requireJs (cwd ++ js "/.yaml-fm-lint.js") with
  | Some configJs => configJs
  | None => default ∅ (readJson (cwd ++ js "/.yaml-fm-lint.json"))
  end.

(** The object spread last: nothing when [a.config] is falsy, otherwise
    the file it names; [None] when loading it throws, as does calling
    [endsWith] on [true]. *)
Definition customConfig (a : Cli.t) : option (gmap jsstring V) :=
  match Cli.config a with
  | None | Some VFalse | Some (VString []) => Some ∅
  | Some VTrue => None
  | Some (VString path) =>
      if endsWith path (js ".js") then requireJs (cwd ++ js "/" ++ path)
      else readJson path
  end.

(** [getConfig(a)]; [None] when it throws.  In [{ ...x, ...y }] the
    properties of [y] win, as those of the left operand of a union do. *)
Definition getConfig (a : Cli.t) : option (gmap jsstring (setting V)) :=
  match readJson (slashes dirname ++ js "/config/default.json") with
  | None => None
  | Some defaults =>
      let config := projectConfig ∪ defaults in
      match customConfig a with
      | None => None
      | Some custom =>
          let config := custom ∪ config in
          Some (<[js "mandatory" := FromCommandLine (Cli.mandatory a)]>
                  (FromFile <$> config))
      end
  end.
End Configuration.

Arguments projectConfig {V}.
Arguments customConfig {V}.
Arguments getConfig {V}.

(** The files of the examples: defaults that make the front matter
    optional, and no configuration in the project. *)
Definition defaultsOnly (path : jsstring) : option (gmap jsstring bool) :=
  if jsstring_eqb path (js "/opt/lint/config/default.json")
  then Some {[js "mandatory" := false]} else None.

Definition noModule (path : jsstring) : option (gmap jsstring bool) := None.

(** * Properties *)

(** ** The scan of [lintLineByLine] as per-line contributions *)

Lemma foldl_pushes {B} (f : Scan -> nat -> Scan) (p : Scan -> list B)
    (g : nat -> list B) :
  (forall acc i, p (f acc i) = p acc ++ g i) ->
  forall rows acc, p (foldl f acc rows) = p acc ++ concat (g <$> rows).
Proof.
  intros Hstep rows. induction rows as [|i rows IH]; intros acc; csimpl.
  - by rewrite app_nil_r.
  - rewrite IH, Hstep. by rewrite <- app_assoc.
Qed.

Lemma foldl_counts (f : Scan -> nat -> Scan) (p : Scan -> nat)
    (g : nat -> nat) :
  (forall acc i, p (f acc i) = p acc + g i) ->
  forall rows acc, p (foldl f acc rows) = p acc + sum_list (g <$> rows).
Proof.
  intros Hstep rows. induction rows as [|i rows IH]; intros acc; csimpl.
  - lia.
  - rewrite IH, Hstep. lia.
Qed.

Lemma foldl_keeps {B} (f : Scan -> nat -> Scan) (p : Scan -> B) :
  (forall acc i, p (f acc i) = p acc) ->
  forall rows acc, p (foldl f acc rows) = p acc.
Proof.
  intros Hstep rows. induction rows as [|i rows IH]; intros acc; simpl; [done|].
  by rewrite IH, Hstep.
Qed.

Ltac lintLine_cases :=
  intros; unfold lintLine, errorRule, warningRule, unless_fix, blank;
  repeat match goal with
         | |- context [fix_ ?a] => destruct (fix_ a)
         | f : bool |- _ => destruct f
         | |- context [jsstring_eqb (trim ?l) []] =>
             destruct (jsstring_eqb (trim l) [])
         end;
  simpl; rewrite ?app_nil_r; try reflexivity.

Lemma scan_trailingSpaces fix_ fm req fx :
  noTrailingSpaces (scanBasicErrors (scanLines fix_ fm req fx))
  = concat (errorRule trailingSpaces fix_ fm <$> bodyRows fm).
Proof.
  unfold scanLines.
  rewrite (foldl_pushes _ (fun s => noTrailingSpaces (scanBasicErrors s))
             (errorRule trailingSpaces fix_ fm)); [done|].
  lintLine_cases.
Qed.

Lemma scan_indentation fix_ fm req fx :
  indentationJump (scanBasicErrors (scanLines fix_ fm req fx))
  = concat (errorRule indentation fix_ fm <$> bodyRows fm).
Proof.
  unfold scanLines.
  rewrite (foldl_pushes _ (fun s => indentationJump (scanBasicErrors s))
             (errorRule indentation fix_ fm)); [done|].
  lintLine_cases.
Qed.

Lemma scan_warnCommas fix_ fm req fx :
  unintendedCommas (scanBasicWarnings (scanLines fix_ fm req fx))
  = concat (warningRule warnCommas fix_ fm <$> bodyRows fm).
Proof.
  unfold scanLines.
  rewrite (foldl_pushes _ (fun s => unintendedCommas (scanBasicWarnings s))
             (warningRule warnCommas fix_ fm)); [done|].
  lintLine_cases.
Qed.

Lemma foldl_folds {B} (f : Scan -> nat -> Scan) (p : Scan -> B)
    (h : B -> nat -> B) :
  (forall acc i, p (f acc i) = h (p acc) i) ->
  forall rows acc, p (foldl f acc rows) = foldl h (p acc) rows.
Proof.
  intros Hstep rows. induction rows as [|i rows IH]; intros acc; simpl; [done|].
  by rewrite IH, Hstep.
Qed.

Lemma scan_missing fix_ fm req fx :
  missingRequiredAttribute (scanBasicErrors (scanLines fix_ fm req fx))
  = foldl (fun ms i => seenAttribute (lineAt fm i) ms) req (bodyRows fm).
Proof.
  unfold scanLines.
  rewrite (foldl_folds _ (fun s => missingRequiredAttribute (scanBasicErrors s))
             (fun ms i => seenAttribute (lineAt fm i) ms)); [done|].
  lintLine_cases.
Qed.

(** In fix mode the loop pushes to no error array. *)
Lemma scan_fix_errors fm req fx :
  let be := scanBasicErrors (scanLines true fm req fx) in
  noWhitespaceBeforeColon be = [] /\ noEmptyLines be = [] /\ noQuotes be = []
  /\ noTrailingSpaces be = [] /\ noBrackets be = [] /\ noCurlyBraces be = []
  /\ indentationJump be = [] /\ noTrailingCommas be = [].
Proof.
  unfold scanLines; repeat split;
    match goal with
    | |- ?p (scanBasicErrors _) = _ =>
        by rewrite (foldl_keeps _ (fun s => p (scanBasicErrors s)));
          [|lintLine_cases]
    end.
Qed.

Lemma foldl_invariant (f : Scan -> nat -> Scan) (P : Scan -> Prop) :
  (forall acc i, P acc -> P (f acc i)) ->
  forall rows acc, P acc -> P (foldl f acc rows).
Proof.
  intros Hstep rows. induction rows as [|i rows IH]; intros acc Hacc; simpl;
    [done|]. by apply IH, Hstep.
Qed.

Lemma scan_fix_counts fm req fx :
  let sc := scanLines true fm req fx in
  scanErrors sc = 0 /\ scanFixable sc = fx
  /\ scanWarnings sc
     = length (unintendedWhitespace (scanBasicWarnings sc))
       + length (unintendedCommas (scanBasicWarnings sc)).
Proof.
  unfold scanLines. repeat split.
  - by rewrite (foldl_keeps _ scanErrors); [|lintLine_cases; lia].
  - by rewrite (foldl_keeps _ scanFixable); [|lintLine_cases; lia].
  - apply (foldl_invariant _ (fun sc => scanWarnings sc
      = length (unintendedWhitespace (scanBasicWarnings sc))
        + length (unintendedCommas (scanBasicWarnings sc)))); [|done].
    intros acc i Hacc. unfold lintLine, unless_fix. simpl.
    rewrite !length_app, Hacc. simpl. lia.
Qed.

Lemma scan_fix_whitespace fm req fx :
  unintendedWhitespace (scanBasicWarnings (scanLines true fm req fx))
  = concat ((fun i => repeatingSpaces fm i (lineAt fm i)) <$> bodyRows fm).
Proof.
  unfold scanLines.
  rewrite (foldl_pushes _ (fun s => unintendedWhitespace (scanBasicWarnings s))
             (fun i => repeatingSpaces fm i (lineAt fm i))); [done|].
  lintLine_cases.
Qed.

(** ** What [lintLineByLine] and [extraLinters] leave alone *)

Section Frames.
Context {A : Type}.
Implicit Types st : State A.

Lemma lintLineByLine_result fm filePath st :
  let sc := scanLines (fix_ (args st)) fm (requiredAttributes (config st))
                      (fixableErrors st) in
  (lintLineByLine fm filePath st).1
  = Basic.mk filePath
      (scanErrors sc + length (missingRequiredAttribute (scanBasicErrors sc)))
      (scanWarnings sc) (scanBasicErrors sc) (scanBasicWarnings sc).
Proof. reflexivity. Qed.

Lemma lintLineByLine_frame fm filePath st :
  let st' := (lintLineByLine fm filePath st).2 in
  args st' = args st /\ config st' = config st
  /\ errorNumber st' = errorNumber st /\ warningNumber st' = warningNumber st
  /\ exitCode st' = exitCode st /\ files st' = files st.
Proof. by repeat split. Qed.

Lemma lintLineByLine_readOnly fm filePath st :
  readOnly (lintLineByLine fm filePath st).2 = readOnly st.
Proof. reflexivity. Qed.

(** The state [extraLinters] leaves, whether it returns or throws. *)
Lemma extraLinters_frame attributes fmLines filePath st :
  let st' := match extraLinters attributes fmLines filePath st with
             | inl thrown => thrown.2
             | inr returned => returned.2
             end in
  args st' = args st /\ config st' = config st
  /\ errorNumber st' = errorNumber st /\ warningNumber st' = warningNumber st
  /\ fixableErrors st' = fixableErrors st
  /\ exitCode st' = exitCode st /\ files st' = files st.
Proof.
  unfold extraLinters. destruct (extraLintFns (config st)); [|done].
  by destruct (runLinters _ _ _ _ _ _) as [[thrown collected]|final].
Qed.

Lemma extraLinters_readOnly attributes fmLines filePath st :
  readOnly match extraLinters attributes fmLines filePath st with
           | inl thrown => thrown.2
           | inr returned => returned.2
           end
  = readOnly st.
Proof.
  unfold extraLinters. destruct (extraLintFns (config st)); [|done].
  by destruct (runLinters _ _ _ _ _ _) as [[thrown collected]|final].
Qed.

Ltac agree_split :=
  match goal with
  | H : agree _ _ |- _ =>
      destruct H as (?Hfix & ?Hcfg & ?Herr & ?Hfx & ?Hwarn & ?Hexit & ?Hfiles
                     & ?Hro)
  end.

Lemma lintLineByLine_agree fm filePath st1 st2 :
  agree st1 st2 ->
  (lintLineByLine fm filePath st1).1 = (lintLineByLine fm filePath st2).1
  /\ agree (lintLineByLine fm filePath st1).2
           (lintLineByLine fm filePath st2).2.
Proof.
  intros H. agree_split. rewrite !lintLineByLine_result.
  unfold agree, lintLineByLine; simpl.
  rewrite Hfix, Hcfg, Hfx. by repeat split.
Qed.

Lemma extraLinters_agree attributes fmLines filePath st1 st2 :
  agree st1 st2 ->
  match extraLinters attributes fmLines filePath st1,
        extraLinters attributes fmLines filePath st2 with
  | inl (e1, s1), inl (e2, s2) => e1 = e2 /\ agree s1 s2
  | inr (x1, s1), inr (x2, s2) => x1 = x2 /\ agree s1 s2
  | _, _ => False
  end.
Proof.
  intros H. agree_split. unfold extraLinters, agree. rewrite Hcfg.
  destruct (extraLintFns (config st2)); simpl; [|by repeat split].
  destruct (runLinters _ _ _ _ _ _) as [[thrown collected]|final]; simpl;
    by repeat split.
Qed.

Lemma log_agree es1 es2 st1 st2 :
  agree st1 st2 -> agree (log es1 st1) (log es2 st2).
Proof. intros H. agree_split. by repeat split. Qed.

Lemma addTotals_agree e w st1 st2 :
  agree st1 st2 -> agree (addTotals e w st1) (addTotals e w st2).
Proof.
  intros H. agree_split. unfold agree; simpl. rewrite Herr, Hwarn.
  by repeat split.
Qed.

Lemma lintFrontMatter_agree load dump filePath lines idx st1 st2 :
  agree st1 st2 ->
  match lintFrontMatter load dump filePath lines idx st1,
        lintFrontMatter load dump filePath lines idx st2 with
  | inl (e1, st1'), inl (e2, st2') => e1 = e2 /\ agree st1' st2'
  | inr (o1, st1'), inr (o2, st2') => o1 = o2 /\ agree st1' st2'
  | _, _ => False
  end.
Proof.
  intros H. unfold lintFrontMatter.
  destruct (load _) as [e|attributes]; [done|].
  assert (Hfix : fix_ (args st1) = fix_ (args st2)) by apply H.
  rewrite <- Hfix.
  set (fixed1 := if fix_ (args st1) then _ else _).
  set (fixed2 := if fix_ (args st1) then _ else inr (_, st2)).
  assert (Hfixed : match fixed1, fixed2 with
                   | inl (e1, s1), inl (e2, s2) => e1 = e2 /\ agree s1 s2
                   | inr (l1, s1), inr (l2, s2) => l1 = l2 /\ agree s1 s2
                   | _, _ => False
                   end).
  { subst fixed1 fixed2. destruct (fix_ (args st1)); [|done].
    destruct (dump attributes); [done|]. unfold writeFileSync.
    assert (Hro : readOnly st1 = readOnly st2) by apply H. rewrite Hro.
    case_bool_decide; [done|]. split; [done|].
    agree_split. unfold agree; simpl. rewrite Hfiles. by repeat split. }
  destruct fixed1 as [[e1 s1]|[l1 s1]], fixed2 as [[e2 s2]|[l2 s2]];
    try done.
  destruct Hfixed as [-> Hs].
  destruct (lintLineByLine_agree l2 filePath s1 s2 Hs) as [Hb Hs'].
  destruct (lintLineByLine l2 filePath s1) as [b1 t1],
           (lintLineByLine l2 filePath s2) as [b2 t2].
  simpl in Hb, Hs'. subst b2.
  pose proof (extraLinters_agree attributes l2 filePath t1 t2 Hs') as Hx.
  destruct (extraLinters attributes l2 filePath t1) as [[e1 u1]|[x1 u1]],
           (extraLinters attributes l2 filePath t2) as [[e2 u2]|[x2 u2]];
    try done.
  destruct Hx as [-> Ht'].
  pose proof (addTotals_agree
    (Basic.fileErrors b1 + Extra.fileErrors x2)
    (Basic.fileWarnings b1 + Extra.fileWarnings x2) u1 u2 Ht') as Hu.
  split; [|done].
  destruct Hu as (_ & _ & Herr & _ & Hwarn & _). by rewrite Herr, Hwarn.
Qed.

Lemma lintFileCatch_agree filePath text fmLines error st1 st2 :
  agree st1 st2 ->
  (lintFileCatch filePath text fmLines error st1).1
  = (lintFileCatch filePath text fmLines error st2).1
  /\ agree (lintFileCatch filePath text fmLines error st1).2
           (lintFileCatch filePath text fmLines error st2).2.
Proof.
  intros H. unfold lintFileCatch.
  set (s1 := addTotals 1 0 _). set (s2 := addTotals 1 0 _).
  assert (Hs : agree s1 s2).
  { subst s1 s2. apply addTotals_agree. destruct text; [done|].
    by apply log_agree. }
  clearbody s1 s2.
  assert (Hs' : forall ev, agree
    (if quiet (args s1) then s1 else log [ev] s1)
    (if quiet (args s2) then s2 else log [ev] s2)).
  { intros ev. destruct (quiet (args s1)), (quiet (args s2)); try done;
      first [by apply (log_agree [] _ s1 s2) | by apply (log_agree _ [] s1 s2)
            | by apply log_agree]. }
  cbv zeta.
  match goal with
  | |- context [log [?ev] s1] => specialize (Hs' ev)
  end.
  simpl. split; [|done].
  destruct Hs' as (_ & _ & Herr & _ & Hwarn & _). by rewrite Herr, Hwarn.
Qed.
End Frames.

Section FileLevel.
Context {A : Type}.
Variable load : jsstring -> YAMLException + A.
Variable dump : A -> YAMLException + jsstring.
Implicit Types st : State A.

Lemma lintFile_agree filePath text a1 a2 c st1 st2 :
  fix_ a1 = fix_ a2 -> agree st1 st2 ->
  (lintFile load dump filePath text a1 c st1).1
  = (lintFile load dump filePath text a2 c st2).1
  /\ agree (lintFile load dump filePath text a1 c st1).2
           (lintFile load dump filePath text a2 c st2).2.
Proof.
  intros Ha H. unfold lintFile.
  assert (Hin : match lintFileInput filePath text a1 c st1,
                      lintFileInput filePath text a2 c st2 with
                | Some (d1, s1), Some (d2, s2) => d1 = d2 /\ agree s1 s2
                | None, None => True
                | _, _ => False
                end).
  { unfold lintFileInput. destruct text as [|ch text].
    - assert (Hfiles : files st1 = files st2) by apply H. rewrite Hfiles.
      by destruct (files st2 !! filePath).
    - split; [done|]. destruct H as (_ & _ & ? & ? & ? & ? & ? & ?).
      by repeat split. }
  destruct (lintFileInput filePath text a1 c st1) as [[d1 s1]|],
           (lintFileInput filePath text a2 c st2) as [[d2 s2]|]; try done.
  destruct Hin as [-> Hs].
  destruct (if startsWith _ _ then _ else None) as [idx|].
  - pose proof (lintFrontMatter_agree load dump filePath (fileLines d2) idx
                  s1 s2 Hs) as Hfm.
    destruct (lintFrontMatter load dump filePath (fileLines d2) idx s1)
      as [[e1 u1]|[o1 t1]],
      (lintFrontMatter load dump filePath (fileLines d2) idx s2)
      as [[e2 u2]|[o2 t2]]; try done.
    + destruct Hfm as [<- Hu].
      destruct (lintFileCatch_agree filePath text
                  (take (idx + 1) (fileLines d2)) e1 u1 u2 Hu) as [Ho Ht].
      destruct (lintFileCatch filePath text _ e1 u1) as [o1 t1],
               (lintFileCatch filePath text _ e1 u2) as [o2 t2].
      simpl in *. by subst.
    + destruct Hfm as [-> Ht]. by split.
  - set (t1 := if quiet (args s1) then s1 else _).
    set (t2 := if quiet (args s2) then s2 else _).
    assert (Ht : agree t1 t2).
    { subst t1 t2. destruct (quiet (args s1)), (quiet (args s2)); try done;
        first [by apply (log_agree [] _ s1 s2) | by apply (log_agree _ [] s1 s2)
              | by apply log_agree]. }
    clearbody t1 t2.
    assert (Hcfg : config t1 = config t2) by apply Ht. rewrite Hcfg.
    set (u1 := if mandatory (config t2) then _ else addTotals 0 1 t1).
    set (u2 := if mandatory (config t2) then _ else addTotals 0 1 t2).
    assert (Hu : agree u1 u2).
    { subst u1 u2. destruct (mandatory (config t2)); apply addTotals_agree;
        [|done]. destruct Ht as (? & ? & ? & ? & ? & ? & ? & ?).
      by repeat split. }
    simpl. split; [|done].
    destruct Hu as (_ & _ & Herr & _ & Hwarn & _). by rewrite Herr, Hwarn.
Qed.

(** C10. For every file path, text, arguments, configuration and state,
    [lintFile] run with [quiet] set and run with [quiet] unset settle with
    the same outcome (the same [fileErrors], [fileWarnings], [errors] and
    [warnings]) and leave the same counters, exit code and files: the flag
    changes nothing but what reaches the console. *)
Theorem lintFile_quiet_changes_console_only filePath text a c st :
  let quietly :=
    lintFile load dump filePath text (set_quiet true a) c
             (setArgsConfig (set_quiet true (args st)) (config st) st) in
  let loudly :=
    lintFile load dump filePath text (set_quiet false a) c
             (setArgsConfig (set_quiet false (args st)) (config st) st) in
  quietly.1 = loudly.1
  /\ errorNumber quietly.2 = errorNumber loudly.2
  /\ warningNumber quietly.2 = warningNumber loudly.2
  /\ fixableErrors quietly.2 = fixableErrors loudly.2
  /\ exitCode quietly.2 = exitCode loudly.2
  /\ files quietly.2 = files loudly.2.
Proof.
  intros quietly loudly.
  destruct (lintFile_agree filePath text (set_quiet true a)
              (set_quiet false a) c
              (setArgsConfig (set_quiet true (args st)) (config st) st)
              (setArgsConfig (set_quiet false (args st)) (config st) st))
    as [Ho (_ & _ & ? & ? & ? & ? & ? & _)]; [done|by repeat split|].
  by repeat split.
Qed.

(** C8. When the front matter is located and [load] throws on its body,
    [lintFile] resolves; the run's error count grows by exactly one; the
    outcome's [errors] is the single [customError] with the exception's
    reason and, when the exception has a mark, its line and column made
    one-based; the outcome has no warnings; and no rule has run: the
    fixable-error count, the warning count and the files are untouched and
    the console receives nothing but the report of this one error. *)
Theorem lintFile_parse_failure filePath text a c st data st0 idx error :
  lintFileInput filePath text a c st = Some (data, st0) ->
  startsWith (lineAt (fileLines data) 1) (js "---") = true ->
  indexOf (fileLines data) (js "---") 2 = Some idx ->
  load (loadInput (take (idx + 1) (fileLines data))) = inl error ->
  let row := (fun m : nat * nat => m.1 + 1) <$> mark error in
  let col := (fun m : nat * nat => m.2 + 1) <$> mark error in
  exists outcome st',
    lintFile load dump filePath text a c st = (Resolved outcome, st')
    /\ errorNumber st' = errorNumber st + 1
    /\ Outcome.errors outcome = CustomError (reason error) row col
    /\ Outcome.warnings outcome = ∅
    /\ Outcome.fileErrors outcome = errorNumber st'
    /\ warningNumber st' = warningNumber st
    /\ fixableErrors st' = fixableErrors st
    /\ files st' = files st
    /\ console st'
       = console st
         ++ (if bool_decide (text = []) then []
             else [ConsoleLogError (reason error)])
         ++ (if quiet (args st0) then []
             else [ShowError (reason error) filePath
                     (ShownMark row col
                        (markSnippet (take (idx + 1) (fileLines data))
                                     (mark error)))
                     false]).
Proof.
  intros Hin Hstart Hidx Hload row col. unfold lintFile.
  rewrite Hin, Hstart, Hidx. unfold lintFrontMatter. rewrite Hload.
  assert (Hst0 : errorNumber st0 = errorNumber st
                 /\ warningNumber st0 = warningNumber st
                 /\ fixableErrors st0 = fixableErrors st
                 /\ files st0 = files st /\ console st0 = console st).
  { unfold lintFileInput in Hin. destruct text.
    - destruct (files st !! filePath); simplify_eq/=. done.
    - simplify_eq/=. done. }
  destruct Hst0 as (He & Hw & Hf & Hfs & Hc).
  eexists _, _. split; [reflexivity|].
  unfold lintFileCatch.
  destruct text as [|ch text]; destruct (quiet (args st0)) eqn:Hq; simpl;
    rewrite ?Hq; simpl; rewrite ?He, ?Hw, ?Hf, ?Hfs, ?Hc, ?app_nil_r;
    repeat split; try done; try lia; by rewrite <- ?app_assoc.
Qed.
End FileLevel.

Lemma lintFile_parse_failure_witness :
  let a := PlainYaml.lintArgs in
  let data := text_of ["---"; "title"; "---"; "text"] in
  let st := PlainYaml.start a ∅ in
  let st0 := setArgsConfig a PlainYaml.noPlugins st in
  let error := mkYAMLException (js "can not read a block mapping entry")
                               (Some (1, 0)) in
  lintFileInput PlainYaml.post data a PlainYaml.noPlugins st = Some (data, st0)
  /\ startsWith (lineAt (fileLines data) 1) (js "---") = true
  /\ indexOf (fileLines data) (js "---") 2 = Some 3
  /\ PlainYaml.load (loadInput (take (3 + 1) (fileLines data))) = inl error
  /\ exists outcome st',
       lintFile PlainYaml.load PlainYaml.dump PlainYaml.post data a
                PlainYaml.noPlugins st = (Resolved outcome, st')
       /\ errorNumber st' = 1
       /\ Outcome.errors outcome
          = CustomError (js "can not read a block mapping entry")
                        (Some 2) (Some 1).
Proof.
  intros a data st st0 error.
  assert (H1 : lintFileInput PlainYaml.post data a PlainYaml.noPlugins st
               = Some (data, st0)) by reflexivity.
  assert (H2 : startsWith (lineAt (fileLines data) 1) (js "---") = true)
    by reflexivity.
  assert (H3 : indexOf (fileLines data) (js "---") 2 = Some 3) by reflexivity.
  assert (H4 : PlainYaml.load (loadInput (take (3 + 1) (fileLines data)))
               = inl error) by reflexivity.
  refine (conj H1 (conj H2 (conj H3 (conj H4 _)))).
  destruct (lintFile_parse_failure PlainYaml.load PlainYaml.dump PlainYaml.post
              data a PlainYaml.noPlugins st data st0 3 error H1 H2 H3 H4)
    as (outcome & st' & Hrun & Herr & Hout & _).
  exists outcome, st'. by repeat split.
Defined.

(** ** Fix mode in [lintLineByLine] *)

(** C2 (as the code has it). In fix mode [lintLineByLine] runs the
    required-attribute check, the repeating-whitespace rule and the
    comma-followed-by-char rule and nothing else: every other error array
    stays empty, the whitespace warnings are exactly the matches of the
    repeating-whitespace rule (the extra-space-after-colon rule is skipped
    with the others), and the counts are those of the three rules. *)
Theorem lintLineByLine_fix_mode_rules {A} fm filePath (st : State A) :
  fix_ (args st) = true ->
  let r := (lintLineByLine fm filePath st).1 in
  Basic.errors r
  = mkBasicErrors
      (foldl (fun ms i => seenAttribute (lineAt fm i) ms)
             (requiredAttributes (config st)) (bodyRows fm))
      [] [] [] [] [] [] [] []
  /\ Basic.warnings r
     = mkBasicWarnings
         (concat ((fun i => repeatingSpaces fm i (lineAt fm i))
                    <$> bodyRows fm))
         (concat ((fun i => warnCommas fm i (lineAt fm i)) <$> bodyRows fm))
  /\ Basic.fileErrors r = length (missingRequiredAttribute (Basic.errors r))
  /\ Basic.fileWarnings r
     = length (unintendedWhitespace (Basic.warnings r))
       + length (unintendedCommas (Basic.warnings r))
  /\ fixableErrors (lintLineByLine fm filePath st).2 = fixableErrors st.
Proof.
  intros Hfix r. subst r. rewrite lintLineByLine_result. simpl. rewrite Hfix.
  set (req := requiredAttributes (config st)). set (fx := fixableErrors st).
  pose proof (scan_fix_errors fm req fx)
    as (H1 & H2 & H3 & H4 & H5 & H6 & H7 & H8).
  pose proof (scan_fix_counts fm req fx) as (Hn & Hfx & Hw).
  pose proof (scan_missing true fm req fx) as Hm.
  pose proof (scan_fix_whitespace fm req fx) as Hws.
  pose proof (scan_warnCommas true fm req fx) as Hc.
  repeat split.
  - destruct (scanBasicErrors _); simpl in *. by subst.
  - destruct (scanBasicWarnings _); simpl in *. by subst.
  - lia.
  - done.
  - done.
Qed.

Lemma lintLineByLine_fix_mode_rules_witness :
  let fm := [[]; js "---"; js "a  b: x,y"; js "---"] in
  fix_ (args PlainYaml.fixing) = true
  /\ Basic.fileWarnings (lintBlock fm PlainYaml.fixing) = 2.
Proof.
  intros fm. split; [reflexivity|]. unfold lintBlock.
  pose proof (lintLineByLine_fix_mode_rules fm PlainYaml.post PlainYaml.fixing
                eq_refl) as (_ & Hw & _ & Hn & _).
  rewrite Hn, Hw. reflexivity.
Defined.

(** C2, the claim as stated fails: on the block whose only entry is
    [key:   value], with three spaces after the colon, [lintLineByLine] in
    fix mode records no warning at all, although the line matches the regex
    of the extra-space-after-colon rule and the same block outside fix mode
    yields the warning. *)
Lemma fix_mode_skips_extra_space_after_colon :
  let line := js "key:   value" in
  let fm := [[]; js "---"; line; js "---"] in
  index <$> exec spacesAfterColon line 0 = Some 3
  /\ unintendedWhitespace (Basic.warnings (lintBlock fm PlainYaml.fixing)) = []
  /\ Basic.fileWarnings (lintBlock fm PlainYaml.fixing) = 0
  /\ length (unintendedWhitespace
               (Basic.warnings (lintBlock fm PlainYaml.linting))) = 1.
Proof. vm_compute. done. Qed.

(** ** Plugins *)

(** C6 (as the code has it). A report without a row, under a message that
    is not the name of a property every object inherits, makes the callback
    return; it is recorded under its message with the default location
    [{ row: 0, col: 3 }] when it carries no descriptor at all or a
    descriptor with a snippet; a report whose descriptor lacks both a row
    and a snippet is dropped, leaving the maps and the console as they
    were. *)
Theorem showOneline_report_without_row filePath acc r :
  (forall a, reportAffected r = Some a -> truthyNum (affRow a) = false) ->
  reportMessage r ∉ objectPrototype ->
  let located :=
    match reportAffected r with
    | Some a => truthyStr (affSnippet a)
    | None => true
    end in
  exists acc',
    showOnelineCallback filePath acc r = inr acc'
    /\ if located then
         if jsstring_eqb (reportType r) (js "Error") then
           extraErrors acc' !! reportMessage r
           = Some (default [] (extraErrors acc !! reportMessage r)
                   ++ [EAffected defaultAffected])
           /\ extraWarnings acc' = extraWarnings acc
         else
           extraWarnings acc' !! reportMessage r
           = Some (default [] (extraWarnings acc !! reportMessage r)
                   ++ [EAffected defaultAffected])
           /\ extraErrors acc' = extraErrors acc
       else acc' = acc.
Proof.
  intros Hrow Hown located. subst located.
  assert (Hrec : forall o,
             exists o', record (reportMessage r) defaultAffected o = Some o'
                        /\ o' !! reportMessage r
                           = Some (default [] (o !! reportMessage r)
                                   ++ [EAffected defaultAffected])).
  { intros o. unfold record. destruct (o !! reportMessage r) as [es|].
    - eexists. split; [done|]. by rewrite lookup_insert_eq.
    - rewrite bool_decide_eq_false_2 by done.
      eexists. split; [done|]. by rewrite lookup_insert_eq. }
  unfold showOnelineCallback.
  destruct (reportAffected r) as [a|]; simpl.
  - rewrite (Hrow a eq_refl). simpl.
    destruct (truthyStr (affSnippet a)); simpl; [|by eexists].
    destruct (jsstring_eqb _ _); simpl.
    + destruct (Hrec (extraErrors acc)) as (o' & -> & Ho'). by eexists.
    + destruct (Hrec (extraWarnings acc)) as (o' & -> & Ho'). by eexists.
  - destruct (jsstring_eqb _ _); simpl.
    + destruct (Hrec (extraErrors acc)) as (o' & -> & Ho'). by eexists.
    + destruct (Hrec (extraWarnings acc)) as (o' & -> & Ho'). by eexists.
Qed.

Lemma showOneline_report_without_row_witness :
  let r := mkReport (js "Error") (js "too long")
                    (Some (mkAffected None None (Some (js "title: x")))) in
  (forall a, reportAffected r = Some a -> truthyNum (affRow a) = false)
  /\ (reportMessage r ∉ objectPrototype)
  /\ exists acc',
       showOnelineCallback PlainYaml.post (mkCollected ∅ ∅ []) r = inr acc'
       /\ extraErrors acc' !! js "too long"
          = Some [EAffected defaultAffected].
Proof.
  intros r.
  assert (Hrow : forall a,
             reportAffected r = Some a -> truthyNum (affRow a) = false).
  { intros a [= <-]. reflexivity. }
  assert (Hown : reportMessage r ∉ objectPrototype).
  { apply (bool_decide_unpack _). vm_compute. exact I. }
  refine (conj Hrow (conj Hown _)).
  destruct (showOneline_report_without_row PlainYaml.post
              (mkCollected ∅ ∅ []) r Hrow Hown) as (acc' & Hcall & Hrec).
  exists acc'. split; [exact Hcall|]. exact (proj1 Hrec).
Defined.

(** C6, the claim as stated fails: a plugin that reports an error with a
    descriptor holding a column but neither a row nor a snippet leaves
    nothing in the maps [extraLinters] returns, under any key, and nothing on
    the console. *)
Lemma report_without_row_and_snippet_is_dropped :
  let plugin : Plugin PlainYaml.Attributes :=
    fun _ _ => mkPluginRun
                 [mkReport (js "Error") (js "too long")
                           (Some (mkAffected None (Some 7%Z) None))] 1 0 in
  let st := mkState (mkArgs PlainYaml.post false false false false false)
                    (mkConfig [] true (Some [plugin])) 0 0 0 None ∅ [] in
  exists ran,
    extraLinters [] [[]; js "---"; js "title: x"; js "---"] PlainYaml.post st
    = inr ran
    /\ Extra.extraErrors ran.1 = ∅ /\ Extra.extraWarnings ran.1 = ∅
    /\ console ran.2 = [].
Proof. eexists. split; [vm_compute; reflexivity|]. vm_compute. done. Qed.

(** ** The counts of an outcome *)

(** Whatever the file, the counts of the outcome are the run's totals so
    far: [lintFile] reads them off [errorNumber] and [warningNumber]. *)
Lemma lintFile_counts_are_run_totals {A}
    (load : jsstring -> YAMLException + A)
    (dump : A -> YAMLException + jsstring) filePath text a c st outcome st' :
  lintFile load dump filePath text a c st = (Resolved outcome, st') ->
  Outcome.fileErrors outcome = errorNumber st'
  /\ Outcome.fileWarnings outcome = warningNumber st'.
Proof.
  unfold lintFile.
  destruct (lintFileInput filePath text a c st) as [[data s0]|]; [|done].
  destruct (if startsWith _ _ then _ else None) as [idx|].
  - destruct (lintFrontMatter load dump filePath (fileLines data) idx s0)
      as [[e s1]|[o s1]] eqn:Hfm.
    + unfold lintFileCatch. intros [= <- <-]. by destruct (quiet _).
    + intros [= <- <-]. unfold lintFrontMatter in Hfm.
      destruct (load _) as [|attributes]; [done|].
      destruct (if fix_ (args s0) then _ else _) as [|[fmLines s2]]; [done|].
      destruct (lintLineByLine fmLines filePath s2) as [basic s3].
      destruct (extraLinters attributes fmLines filePath s3)
        as [|[extra s4]]; [done|].
      by injection Hfm as <- <-.
  - intros [= <- <-]. by destruct (mandatory _).
Qed.

(** C4, the code at the failing input: the same text, with two quotes and
    so two errors of its own, linted twice in one run.  The first outcome
    has [fileErrors = 2]; the second has [fileErrors = 4], the run's total,
    because the outcome is filled from the module's [errorNumber]. *)
Theorem lintFile_fileErrors_is_run_total :
  let a := mkArgs (js "posts") false false true false false in
  let text := text_of ["---"; "title: 'x'"; "---"; "body"] in
  let first := lintFile PlainYaml.load PlainYaml.dump (js "posts/a.md") text a
                        PlainYaml.noPlugins (PlainYaml.start a ∅) in
  let second := lintFile PlainYaml.load PlainYaml.dump (js "posts/b.md") text a
                         PlainYaml.noPlugins first.2 in
  Outcome.fileErrors <$> resolved first.1 = Some 2
  /\ Outcome.fileErrors <$> resolved second.1 = Some 4
  /\ errorNumber second.2 = 4.
Proof. vm_compute. done. Qed.

(** ** The regex engine *)

Lemma chr_eqb_eq a b : chr_eqb a b = true <-> a = b.
Proof. apply Ascii.eqb_eq. Qed.

Lemma exec_from_Some r pos s m :
  exec_from r pos s = Some m ->
  exists k, index m = pos + k /\ k <= length s
    /\ match_here r (pos + k) (drop k s) = Some (lens m)
    /\ forall j, j < k -> match_here r (pos + j) (drop j s) = None.
Proof.
  revert pos. induction s as [|c s IH]; intros pos; simpl.
  - destruct (match_here r pos []) as [ls|] eqn:Hm; [|done].
    intros [= <-]. exists 0. simpl. rewrite Nat.add_0_r.
    repeat split; [lia|done|lia].
  - destruct (match_here r pos (c :: s)) as [ls|] eqn:Hm.
    + intros [= <-]. exists 0. simpl. rewrite Nat.add_0_r.
      repeat split; [lia|done|lia].
    + intros Hex. destruct (IH _ Hex) as (k & Hi & Hk & Hmk & Hnone).
      exists (S k). rewrite <- Nat.add_succ_comm. simpl.
      repeat split; [done|lia|done|].
      intros [|j] Hj; [by rewrite Nat.add_0_r|].
      rewrite <- Nat.add_succ_comm. simpl. apply Hnone. lia.
Qed.

Lemma exec_from_None r pos s :
  exec_from r pos s = None ->
  forall j, j <= length s -> match_here r (pos + j) (drop j s) = None.
Proof.
  revert pos. induction s as [|c s IH]; intros pos; simpl.
  - destruct (match_here r pos []) eqn:Hm; [done|].
    intros _ j Hj. replace j with 0 by lia. by rewrite Nat.add_0_r.
  - destruct (match_here r pos (c :: s)) eqn:Hm; [done|].
    intros Hex [|j] Hj; [by rewrite Nat.add_0_r|].
    rewrite <- Nat.add_succ_comm. simpl. apply (IH _ Hex). lia.
Qed.

Lemma exec_Some r line lastIndex m :
  exec r line lastIndex = Some m ->
  lastIndex <= index m <= length line
  /\ match_here r (index m) (drop (index m) line) = Some (lens m)
  /\ forall j, lastIndex <= j < index m ->
               match_here r j (drop j line) = None.
Proof.
  unfold exec. destruct (lastIndex <=? length line) eqn:Hle; [|done].
  apply Nat.leb_le in Hle. intros Hex.
  destruct (exec_from_Some _ _ _ _ Hex) as (k & Hi & Hk & Hm & Hnone).
  rewrite length_drop in Hk. rewrite drop_drop in Hm. rewrite Hi.
  repeat split; [lia|lia|done|].
  intros j Hj. specialize (Hnone (j - lastIndex)).
  rewrite drop_drop in Hnone.
  replace (lastIndex + (j - lastIndex)) with j in Hnone by lia.
  apply Hnone. lia.
Qed.

Lemma exec_None r line lastIndex :
  exec r line lastIndex = None ->
  forall j, lastIndex <= j <= length line ->
            match_here r j (drop j line) = None.
Proof.
  unfold exec. destruct (lastIndex <=? length line) eqn:Hle.
  - apply Nat.leb_le in Hle. intros Hex j Hj.
    pose proof (exec_from_None _ _ _ Hex (j - lastIndex)) as Hnone.
    rewrite length_drop, drop_drop in Hnone.
    replace (lastIndex + (j - lastIndex)) with j in Hnone by lia.
    apply Hnone. lia.
  - apply Nat.leb_gt in Hle. intros _ j Hj. lia.
Qed.

(** A loop that sets [lastIndex = match.index + 1] visits every position at
    which the regex matches, and the fuel of [loop_fuel] lets it. *)
Lemma exec_while_elem {B} r line (body : rmatch -> nat * B) :
  (forall m, (body m).1 = index m + 1) ->
  forall fuel lastIndex, length line + 2 <= fuel + lastIndex ->
  forall v, v ∈ exec_while fuel r line lastIndex body
    <-> exists p ls, lastIndex <= p <= length line
          /\ match_here r p (drop p line) = Some ls
          /\ v = (body (mkMatch p ls)).2.
Proof.
  intros Hnext fuel. induction fuel as [|fuel IH]; intros lastIndex Hfuel v.
  - simpl. split; [by intros ?%elem_of_nil|]. intros (p & ls & Hp & _). lia.
  - simpl. destruct (exec r line lastIndex) as [m|] eqn:Hex.
    + destruct (exec_Some _ _ _ _ Hex) as (Hi & Hm & Hnone).
      rewrite elem_of_cons, IH by (rewrite Hnext; lia). rewrite Hnext.
      split.
      * intros [->|(p & ls & Hp & Hmp & ->)].
        -- exists (index m), (lens m). by destruct m.
        -- exists p, ls. repeat split; [lia|lia|done].
      * intros (p & ls & Hp & Hmp & ->).
        destruct (decide (p < index m)) as [Hlt|Hge].
        { rewrite Hnone in Hmp by lia. done. }
        destruct (decide (p = index m)) as [->|Hne].
        { left. rewrite Hm in Hmp. injection Hmp as <-. by destruct m. }
        right. exists p, ls. repeat split; [lia|lia|done].
    + split; [by intros ?%elem_of_nil|]. intros (p & ls & Hp & Hmp & _).
      rewrite (exec_None _ _ _ Hex) in Hmp by lia. done.
Qed.

Lemma elem_of_concat_fmap {B} (g : nat -> list B) rows v :
  v ∈ concat (g <$> rows) <-> exists i, i ∈ rows /\ v ∈ g i.
Proof.
  induction rows as [|j rows IH]; csimpl.
  - split; [by intros ?%elem_of_nil|]. by intros (i & ?%elem_of_nil & _).
  - rewrite elem_of_app, IH. split.
    + intros [Hv|(i & Hi & Hv)]; [exists j|exists i]; split; try done;
        [left|by right].
    + intros (i & [->|Hi]%elem_of_cons & Hv); [by left|right; eauto].
Qed.

Lemma bodyRows_elem fm i : i ∈ bodyRows fm <-> 1 <= i < length fm - 1.
Proof. unfold bodyRows. rewrite elem_of_seq. lia. Qed.

(** ** Blank lines *)

Lemma trimStart_head s :
  match trimStart s with
  | [] => Forall (fun c => is_s c = true) s
  | c :: _ => is_s c = false
  end.
Proof.
  induction s as [|c s IH]; simpl; [done|].
  destruct (is_s c) eqn:Hc; [|done].
  destruct (trimStart s); [by constructor|done].
Qed.

Lemma blank_spaces line :
  blank line = true -> Forall (fun c => is_s c = true) line.
Proof.
  unfold blank, jsstring_eqb, trim. intros Hb%bool_decide_eq_true.
  apply (f_equal (@rev ascii)) in Hb. rewrite rev_involutive in Hb.
  simpl in Hb.
  pose proof (trimStart_head (rev (trimStart line))) as H1. rewrite Hb in H1.
  pose proof (trimStart_head line) as H2.
  destruct (trimStart line) as [|c rest]; [done|].
  rewrite Forall_forall in H1. specialize (H1 c).
  assert (Hin : c ∈ rev (c :: rest)).
  { apply list_elem_of_In. rewrite <- in_rev. by left. }
  specialize (H1 Hin). congruence.
Qed.

Lemma not_blank_nonspace line c :
  c ∈ line -> is_s c = false -> blank line = false.
Proof.
  intros Hin Hc. destruct (blank line) eqn:Hb; [|done].
  apply blank_spaces in Hb. rewrite Forall_forall in Hb.
  specialize (Hb c Hin). congruence.
Qed.

(** ** The loops of [lintLineByLine] do not run out of fuel *)

(** When every iteration moves [lastIndex] past the match it found, the loop
    is over within [length line + 2 - lastIndex] iterations: more fuel gives
    the same list. *)
Lemma exec_while_fuel {B} r line (body : rmatch -> nat * B) :
  (forall lastIndex m,
      exec r line lastIndex = Some m -> index m < (body m).1) ->
  forall fuel fuel' lastIndex,
    length line + 2 <= fuel + lastIndex ->
    length line + 2 <= fuel' + lastIndex ->
    exec_while fuel r line lastIndex body
    = exec_while fuel' r line lastIndex body.
Proof.
  intros Hnext fuel.
  induction fuel as [|fuel IH]; intros fuel' lastIndex Hfuel Hfuel'.
  - destruct fuel' as [|fuel']; [done|]. simpl. unfold exec.
    by rewrite (proj2 (Nat.leb_gt _ _)) by lia.
  - destruct fuel' as [|fuel'].
    + simpl. unfold exec. by rewrite (proj2 (Nat.leb_gt _ _)) by lia.
    + simpl. destruct (exec r line lastIndex) as [m|] eqn:Hex; [|done].
      pose proof (Hnext _ _ Hex) as Hm.
      destruct (exec_Some _ _ _ _ Hex) as (Hi & _).
      f_equal. apply IH; lia.
Qed.

Lemma backtrack_Some rest lo k ls :
  backtrack rest lo k = Some ls ->
  exists j ls', ls = j :: ls' /\ lo <= j <= k /\ rest j = Some ls'.
Proof.
  induction k as [|k IH]; simpl.
  - destruct (0 <? lo) eqn:Hlo; [done|]. apply Nat.ltb_ge in Hlo.
    destruct (rest 0) as [ls'|] eqn:Hr; [|done].
    intros [= <-]. exists 0, ls'. repeat split; [lia|lia|done].
  - destruct (S k <? lo) eqn:Hlo; [done|]. apply Nat.ltb_ge in Hlo.
    destruct (rest (S k)) as [ls'|] eqn:Hr.
    + intros [= <-]. exists (S k), ls'. repeat split; [lia|lia|done].
    + intros (j & ls' & -> & Hj & Hrest)%IH. exists j, ls'.
      repeat split; [lia|lia|done].
Qed.

Lemma run_take p s j :
  j <= run p s -> Forall (fun c => p c = true) (take j s).
Proof.
  revert j. induction s as [|c s IH]; intros j; simpl.
  - intros Hj. by rewrite take_nil.
  - destruct j as [|j]; [by constructor|]. destruct (p c) eqn:Hc; [|lia].
    intros Hj. constructor; [done|]. apply IH. lia.
Qed.

Lemma exec_from_class_first q pos l1 c l2 :
  Forall (fun x => q x = false) l1 -> q c = true ->
  exec_from [Cls q] pos (l1 ++ c :: l2) = Some (mkMatch (pos + length l1) [1]).
Proof.
  intros Hl1 Hc. revert pos.
  induction Hl1 as [|x l1 Hx _ IH]; intros pos.
  - cbn. rewrite Hc. cbn. by rewrite Nat.add_0_r.
  - cbn. rewrite Hx. rewrite IH. simpl. do 2 f_equal. lia.
Qed.

(** A match of [/(\s+):/g] is a run of whitespace and the colon after it;
    the loop resumes at the colon. *)
Lemma spacesBeforeColon_next fm i line lastIndex m :
  exec wsbcRegex line lastIndex = Some m ->
  index m < (spacesBeforeColon_body fm i line m).1.
Proof.
  intros Hex. destruct (exec_Some _ _ _ _ Hex) as (_ & Hm & _).
  unfold wsbcRegex in Hm. cbn in Hm.
  apply backtrack_Some in Hm as (j & ls' & Hlens & Hj & Hrest).
  set (s := drop (index m) line) in *.
  destruct (drop j s) as [|c rest] eqn:Hd; [done|].
  destruct (chr_eqb ":"%char c) eqn:Hc; [|done]. cbn in Hrest.
  injection Hrest as <-. apply chr_eqb_eq in Hc as <-.
  assert (Hcolon : s !! j = Some ":"%char).
  { pose proof (lookup_drop s j 0) as H0. rewrite Hd, Nat.add_0_r in H0.
    done. }
  assert (Hmatched : matched line m = take j s ++ [":"%char]).
  { unfold matched, match_len. rewrite Hlens. simpl. fold s.
    replace (j + 1) with (S j) by lia. by apply take_S_r. }
  assert (Hsearch : search colonRegex (matched line m) = Z.of_nat j).
  { rewrite Hmatched. unfold search, exec, colonRegex. simpl.
    rewrite drop_0, (exec_from_class_first _ 0 (take j s) ":"%char []).
    - simpl. rewrite length_take. f_equal.
      assert (j < length s) by (by eapply lookup_lt_Some). lia.
    - eapply Forall_impl; [apply (run_take is_s); lia|].
      intros x Hx. destruct (chr_eqb ":"%char x) eqn:Heq; [|done].
      apply chr_eqb_eq in Heq as <-. by vm_compute in Hx.
    - done. }
  unfold spacesBeforeColon_body. simpl. rewrite Hsearch. lia.
Qed.

(** [loop_fuel] is enough for every loop of [lintLineByLine]: any larger
    fuel gives the same violations. *)
Lemma lintLineByLine_loops_fuel fm i line fuel :
  loop_fuel line <= fuel ->
  exec_while fuel wsbcRegex line 0 (spacesBeforeColon_body fm i line)
  = spacesBeforeColon fm i line
  /\ exec_while fuel quoteRegex line 0 (charRule_body fm i line quoteRegex)
     = quotes fm i line
  /\ exec_while fuel bracketsRegex line 0
       (charRule_body fm i line bracketsRegex)
     = brackets fm i line
  /\ exec_while fuel curlyBraceRegex line 0
       (charRule_body fm i line curlyBraceRegex)
     = curlyBraces fm i line
  /\ exec_while fuel repeatingSpaceRegex line 0 (repeatingSpaces_body fm i line)
     = repeatingSpaces fm i line
  /\ exec_while fuel spacesAfterColon line 0 (spacesAfterColon_body fm i line)
     = oneSpaceAfterColon fm i line
  /\ exec_while fuel commaInFrontMatterRegex line 0 (warnCommas_body fm i)
     = warnCommas fm i line.
Proof.
  unfold spacesBeforeColon, quotes, brackets, curlyBraces, repeatingSpaces,
    oneSpaceAfterColon, warnCommas, loop_fuel.
  intros Hfuel.
  repeat split; apply exec_while_fuel; try lia;
    first [ apply spacesBeforeColon_next | intros ? ? _; simpl; lia ].
Qed.

(** ** Commas *)

Lemma is_dot_spec c : is_dot c = true <-> c <> LF /\ c <> CR.
Proof.
  unfold is_dot. rewrite negb_true_iff, orb_false_iff.
  split; intros [H1 H2].
  - unfold chr_eqb in *. split; intros ->; by rewrite ?Ascii.eqb_refl in *.
  - split; apply not_true_is_false; by rewrite chr_eqb_eq.
Qed.

Lemma drop_two {B} (l : list B) p a b :
  (exists rest, drop p l = a :: b :: rest)
  <-> l !! p = Some a /\ l !! (p + 1) = Some b.
Proof.
  split.
  - intros [rest Hd].
    pose proof (lookup_drop l p 0) as H0. pose proof (lookup_drop l p 1) as H1.
    rewrite Hd in H0, H1. rewrite Nat.add_0_r in H0. by split.
  - intros [Ha Hb]. exists (drop (S (S p)) l).
    rewrite (drop_S _ _ _ Ha). f_equal. apply drop_S.
    by rewrite <- Nat.add_1_r.
Qed.

Lemma match_comma p s ls :
  match_here commaInFrontMatterRegex p s = Some ls
  <-> ls = [1; 1]
      /\ exists c rest, s = ","%char :: c :: rest /\ is_dot c = true.
Proof.
  unfold commaInFrontMatterRegex.
  destruct s as [|a [|b rest]]; cbn.
  - split; [done|]. by intros (_ & ? & ? & ? & ?).
  - destruct (chr_eqb ","%char a); cbn; (split; [done|]);
      by intros (_ & ? & ? & ? & ?).
  - destruct (chr_eqb ","%char a) eqn:Ha; cbn.
    + apply chr_eqb_eq in Ha as <-.
      destruct (is_dot b) eqn:Hb; cbn.
      * split; [intros [= <-]; split; [done|by exists b, rest]|].
        by intros [-> _].
      * split; [done|]. intros (_ & c & rest' & [= <- <-] & Hc). congruence.
    + split; [done|]. intros (_ & c & rest' & Heq & _).
      injection Heq as -> _ _. by vm_compute in Ha.
Qed.

Lemma warnCommas_elem fm i line v :
  v ∈ warnCommas fm i line
  <-> exists p c, line !! p = Some ","%char /\ line !! (p + 1) = Some c
        /\ is_dot c = true
        /\ v = mkViolation i (Z.of_nat p + 2) None None
                 (getSnippet fm (Z.of_nat p + 2) i).
Proof.
  unfold warnCommas.
  rewrite exec_while_elem; [|done|unfold loop_fuel; lia].
  split.
  - intros (p & ls & Hp & Hm & ->).
    apply match_comma in Hm as (-> & c & rest & Hd & Hc).
    destruct (proj1 (drop_two line p _ _) (ex_intro _ rest Hd)) as [H1 H2].
    by exists p, c.
  - intros (p & c & H1 & H2 & Hc & ->).
    destruct (proj2 (drop_two line p _ _) (conj H1 H2)) as [rest Hd].
    exists p, [1; 1]. repeat split.
    + lia.
    + apply lookup_lt_Some in H1. lia.
    + apply match_comma. split; [done|]. by exists c, rest.
Qed.

(** C7 (as the code has it). For every row of the block and every comma in
    its line, [lintLineByLine] records a comma warning that points at that
    comma (its [col] is the comma's index plus 2) iff the comma is followed
    by a character that is not a line terminator; a space after the comma
    counts as such a character. *)
Theorem comma_warning_iff {A} fm filePath (st : State A) i line idx :
  i ∈ bodyRows fm ->
  fm !! i = Some line ->
  line !! idx = Some ","%char ->
  (exists v,
      v ∈ unintendedCommas (Basic.warnings (lintLineByLine fm filePath st).1)
      /\ row v = i /\ col v = (Z.of_nat idx + 2)%Z)
  <-> (exists c, line !! (idx + 1) = Some c /\ c <> LF /\ c <> CR).
Proof.
  intros Hi Hline Hcomma. rewrite lintLineByLine_result. simpl.
  rewrite scan_warnCommas.
  assert (Hat : lineAt fm i = line) by (unfold lineAt; by rewrite Hline).
  split.
  - intros (v & Hv & Hrow & Hcol).
    apply elem_of_concat_fmap in Hv as (j & _ & Hv).
    assert (Hv' : v ∈ warnCommas fm j (lineAt fm j)).
    { unfold warningRule in Hv.
      destruct (negb _ && _); [by apply elem_of_nil in Hv|done]. }
    apply warnCommas_elem in Hv' as (p & c & H1 & H2 & Hc & ->).
    simpl in Hrow, Hcol. subst j. rewrite Hat in H2.
    assert (p = idx) as -> by lia.
    exists c. split; [done|]. by apply is_dot_spec.
  - intros (c & Hnext & Hc). apply is_dot_spec in Hc.
    exists (mkViolation i (Z.of_nat idx + 2) None None
              (getSnippet fm (Z.of_nat idx + 2) i)).
    split; [|done].
    apply elem_of_concat_fmap. exists i. split; [done|].
    unfold warningRule. rewrite Hat.
    rewrite (not_blank_nonspace line ","%char), andb_false_r;
      [|by eapply list_elem_of_lookup_2|done].
    apply warnCommas_elem. by exists idx, c.
Qed.

Lemma comma_warning_iff_witness :
  let line := js "tags: a,b" in
  let fm := [[]; js "---"; line; js "---"] in
  2 ∈ bodyRows fm /\ fm !! 2 = Some line /\ line !! 7 = Some ","%char
  /\ exists v,
       v ∈ unintendedCommas (Basic.warnings (lintBlock fm PlainYaml.linting))
       /\ row v = 2 /\ col v = 9%Z.
Proof.
  intros line fm.
  assert (H1 : 2 ∈ bodyRows fm) by (apply bodyRows_elem; simpl; lia).
  assert (H2 : fm !! 2 = Some line) by reflexivity.
  assert (H3 : line !! 7 = Some ","%char) by reflexivity.
  refine (conj H1 (conj H2 (conj H3 _))).
  apply (proj2 (comma_warning_iff fm PlainYaml.post PlainYaml.linting 2 line 7
                  H1 H2 H3)).
  exists "b"%char. by repeat split.
Defined.

(** C7, the claim as stated fails: in [tags: a, b] the comma is followed by
    a space, and [lintLineByLine] records the comma warning all the same. *)
Lemma comma_followed_by_space_is_reported :
  let line := js "tags: a, b" in
  let fm := [[]; js "---"; line; js "---"] in
  line !! 7 = Some ","%char
  /\ is_s <$> line !! 8 = Some true
  /\ (fun v => (row v, col v))
       <$> unintendedCommas (Basic.warnings (lintBlock fm PlainYaml.linting))
     = [(2, 9%Z)].
Proof. vm_compute. done. Qed.

(** ** Leading and trailing whitespace *)

Lemma run_lookup p s :
  run p s < length s -> exists c, s !! run p s = Some c /\ p c = false.
Proof.
  induction s as [|c s IH]; simpl; [lia|].
  destruct (p c) eqn:Hc.
  - intros H. apply IH. lia.
  - intros _. by exists c.
Qed.

Lemma run_all p s : Forall (fun c => p c = true) s -> run p s = length s.
Proof. induction 1 as [|c s Hc _ IH]; simpl; [done|]. by rewrite Hc, IH. Qed.


Lemma exec_from_nonSpace pos s :
  exec_from nonSpaceRegex pos s
  = if run is_s s <? length s
    then Some (mkMatch (pos + run is_s s) [1]) else None.
Proof.
  revert pos. induction s as [|c s IH]; intros pos; [done|].
  cbn. unfold is_S. destruct (is_s c); cbn.
  - rewrite IH. replace (S (run is_s s) <? S (length s))
      with (run is_s s <? length s) by done.
    by rewrite <- Nat.add_succ_comm.
  - by rewrite Nat.add_0_r.
Qed.

(** [line.search(/\S/g)] is the number of leading whitespace characters, or
    [-1] on a line that has nothing else. *)
Lemma search_nonSpace line :
  search nonSpaceRegex line
  = if run is_s line <? length line then Z.of_nat (run is_s line) else (-1)%Z.
Proof.
  unfold search, exec. simpl. rewrite drop_0, exec_from_nonSpace.
  by destruct (run is_s line <? length line).
Qed.


Lemma backtrack_first rest lo k ls :
  lo <= k -> rest k = Some ls -> backtrack rest lo k = Some (k :: ls).
Proof.
  intros Hlo Hk.
  destruct k; simpl; by rewrite (proj2 (Nat.ltb_ge _ _) Hlo), Hk.
Qed.



Lemma exec_from_cons r pos c s :
  exec_from r pos (c :: s)
  = match match_here r pos (c :: s) with
    | Some ls => Some (mkMatch pos ls)
    | None => exec_from r (S pos) s
    end.
Proof. done. Qed.




Lemma indentation_row fm j line v : v ∈ indentation fm j line -> row v = j.
Proof.
  unfold indentation. repeat (destruct (bool_decide _));
    first [by intros ?%elem_of_nil | by intros ->%list_elem_of_singleton].
Qed.

Lemma errorRule_row rule fix_ fm j v :
  (forall line w, w ∈ rule fm j line -> row w = j) ->
  v ∈ errorRule rule fix_ fm j -> row v = j.
Proof.
  intros Hrule. unfold errorRule.
  destruct fix_; [by intros ?%elem_of_nil|].
  destruct (blank _); [by intros ?%elem_of_nil|]. apply Hrule.
Qed.

Lemma filter_row_concat (g : nat -> list Violation) rows i :
  (forall j v, v ∈ g j -> row v = j) -> NoDup rows -> i ∈ rows ->
  filter (fun v => row v = i) (concat (g <$> rows)) = g i.
Proof.
  intros Hrow.
  assert (Hsame : forall l : list Violation, (forall v, v ∈ l -> row v = i) ->
                            filter (fun v => row v = i) l = l).
  { induction l as [|v l IH]; intros Hl; [done|].
    rewrite filter_cons_True by (apply Hl; by left).
    f_equal. apply IH. intros w Hw. apply Hl. by right. }
  assert (Hother : forall l : list Violation,
             (forall v, v ∈ l -> row v <> i) ->
             filter (fun v => row v = i) l = []).
  { induction l as [|v l IH]; intros Hl; [done|].
    rewrite filter_cons_False by (apply Hl; by left).
    apply IH. intros w Hw. apply Hl. by right. }
  assert (Hrest : forall rows' : list nat, i ∉ rows' ->
            filter (fun v => row v = i) (concat (g <$> rows')) = []).
  { induction rows' as [|j rows' IH]; intros Hni; csimpl; [done|].
    apply not_elem_of_cons in Hni as [Hne Hni'].
    rewrite filter_app, (IH Hni'), app_nil_r.
    apply Hother. intros v Hv Heq. apply Hrow in Hv.
    congruence. }
  induction rows as [|j rows IH]; intros Hnd Hi; [by apply elem_of_nil in Hi|].
  apply NoDup_cons in Hnd as [Hj Hnd]. csimpl. rewrite filter_app.
  destruct (decide (i = j)) as [<-|Hne].
  - rewrite Hrest, app_nil_r by done. apply Hsame, Hrow.
  - apply elem_of_cons in Hi as [?|Hi]; [done|].
    rewrite (IH Hnd Hi). rewrite Hother; [done|].
    intros v Hv Heq. apply Hrow in Hv. congruence.
Qed.




(** ** Indentation *)

(** C5 (as the code has it). Outside fix mode, for every row of the block
    whose line starts with whitespace and has some other character,
    [lintLineByLine] records an indentation violation for the row iff the
    line's leading whitespace exceeds by more than 2 that of the line
    directly above, a blank line above counting as indentation 0; an excess
    of exactly 2 records none. *)
Theorem indentation_jump_iff {A} fm filePath (st : State A) i line above :
  fix_ (args st) = false ->
  i ∈ bodyRows fm ->
  fm !! i = Some line ->
  fm !! (i - 1) = Some above ->
  0 < run is_s line < length line ->
  let indentationPrev :=
    if bool_decide (run is_s above < length above) then run is_s above else 0 in
  (exists v,
      v ∈ indentationJump (Basic.errors (lintLineByLine fm filePath st).1)
      /\ row v = i)
  <-> indentationPrev + 2 < run is_s line.
Proof.
  intros Hfix Hi Hline Habove Hrun prev.
  rewrite lintLineByLine_result. simpl. rewrite Hfix, scan_indentation.
  assert (Hat : lineAt fm i = line) by (unfold lineAt; by rewrite Hline).
  assert (Hat' : lineAt fm (i - 1) = above)
    by (unfold lineAt; by rewrite Habove).
  assert (Hnb : blank line = false).
  { destruct (run_lookup is_s line) as (c & Hc & Hs); [lia|].
    eapply not_blank_nonspace; [by eapply list_elem_of_lookup_2|done]. }
  assert (Hrule : errorRule indentation false fm i
                  = if bool_decide (prev + 2 < run is_s line)
                    then [mkViolation i (Z.of_nat (run is_s line) + 1)
                            (Some 0%Z)
                            (Some (Z.of_nat (run is_s line) + 1 - 1)%Z)
                            (getSnippet fm (Z.of_nat (run is_s line) + 1) i)]
                    else []).
  { unfold errorRule, indentation. rewrite Hat, Hat', Hnb, !search_nonSpace.
    rewrite (proj2 (Nat.ltb_lt _ _)) by lia. subst prev.
    destruct (run is_s above <? length above) eqn:Hab;
      [apply Nat.ltb_lt in Hab|apply Nat.ltb_ge in Hab];
      repeat case_bool_decide; try done; lia. }
  split.
  - intros (v & Hv & Hrow).
    apply elem_of_concat_fmap in Hv as (j & _ & Hv).
    pose proof (errorRule_row indentation false fm j v
                  (fun l w => indentation_row fm j l w) Hv) as Hj.
    assert (j = i) as -> by congruence.
    rewrite Hrule in Hv.
    destruct (decide (prev + 2 < run is_s line)) as [Hlt|Hge]; [done|].
    rewrite bool_decide_false in Hv by done. by apply elem_of_nil in Hv.
  - intros Hgt. eexists. split.
    + apply elem_of_concat_fmap. exists i. split; [done|].
      rewrite Hrule, bool_decide_true by done. by left.
    + done.
Qed.

Lemma indentation_jump_iff_witness :
  let line := js "     b: x" in
  let fm := [[]; js "---"; js "a:"; line; js "---"] in
  fix_ (args PlainYaml.linting) = false /\ 3 ∈ bodyRows fm
  /\ fm !! 3 = Some line /\ fm !! (3 - 1) = Some (js "a:")
  /\ 0 < run is_s line < length line
  /\ exists v,
       v ∈ indentationJump (Basic.errors (lintBlock fm PlainYaml.linting))
       /\ row v = 3.
Proof.
  intros line fm.
  assert (H1 : fix_ (args PlainYaml.linting) = false) by reflexivity.
  assert (H2 : 3 ∈ bodyRows fm) by (apply bodyRows_elem; simpl; lia).
  assert (H3 : fm !! 3 = Some line) by reflexivity.
  assert (H4 : fm !! (3 - 1) = Some (js "a:")) by reflexivity.
  assert (H5 : 0 < run is_s line < length line) by (vm_compute; lia).
  refine (conj H1 (conj H2 (conj H3 (conj H4 (conj H5 _))))).
  apply (proj2 (indentation_jump_iff fm PlainYaml.post PlainYaml.linting 3
                  line (js "a:") H1 H2 H3 H4 H5)).
  vm_compute. lia.
Defined.

(** C5, the claim as stated fails: row 5 is indented by 4, the nearest
    non-blank line above it (row 3) by 2, an excess of exactly 2; the line
    directly above is blank, the code compares with 0 and records the
    violation. *)
Lemma indentation_compares_with_line_directly_above :
  let fm := [[]; js "---"; js "a:"; js "  b:"; []; js "    c: x"; js "---"] in
  run is_s (lineAt fm 5) = 4
  /\ run is_s <$> previousNonBlank fm 5 = Some 2
  /\ row <$> indentationJump (Basic.errors (lintBlock fm PlainYaml.linting))
     = [5].
Proof. vm_compute. done. Qed.

(** ** Splitting and joining *)

Lemma split_on_nonempty sep s : split_on sep s <> [].
Proof.
  destruct s as [|c s]; simpl; [done|].
  destruct (chr_eqb c sep); [done|]. by destruct (split_on sep s).
Qed.

Lemma split_on_app sep a b :
  split_on sep (a ++ sep :: b) = split_on sep a ++ split_on sep b.
Proof.
  induction a as [|c a IH]; simpl.
  - unfold chr_eqb. by rewrite Ascii.eqb_refl.
  - destruct (chr_eqb c sep); [by rewrite IH|].
    rewrite IH. pose proof (split_on_nonempty sep a).
    by destruct (split_on sep a).
Qed.

Lemma split_on_without sep l : sep ∉ l -> split_on sep l = [l].
Proof.
  induction l as [|c l IH]; intros Hl; simpl; [done|].
  apply not_elem_of_cons in Hl as [Hc Hl].
  destruct (chr_eqb c sep) eqn:Heq.
  - apply chr_eqb_eq in Heq. congruence.
  - by rewrite (IH Hl).
Qed.

Lemma split_on_elems sep s :
  Forall (fun l => sep ∉ l) (split_on sep s).
Proof.
  induction s as [|c s IH]; simpl.
  - repeat constructor. apply not_elem_of_nil.
  - destruct (chr_eqb c sep) eqn:Heq.
    + constructor; [apply not_elem_of_nil|done].
    + destruct (split_on sep s) as [|l ls]; simpl.
      * repeat constructor. apply not_elem_of_cons.
        split; [|apply not_elem_of_nil].
        intros ->. unfold chr_eqb in Heq. by rewrite Ascii.eqb_refl in Heq.
      * apply Forall_cons in IH as [Hl Hls]. constructor; [|done].
        apply not_elem_of_cons. split; [|done].
        intros ->. unfold chr_eqb in Heq. by rewrite Ascii.eqb_refl in Heq.
Qed.

Lemma split_on_subset sep s l c : l ∈ split_on sep s -> c ∈ l -> c ∈ s.
Proof.
  revert l. induction s as [|x s IH]; intros l; simpl.
  - intros ->%list_elem_of_singleton. by intros ?%elem_of_nil.
  - destruct (chr_eqb x sep).
    + intros [->|Hl]%elem_of_cons; [by intros ?%elem_of_nil|].
      intros Hc. right. by eapply IH.
    + destruct (split_on sep s) as [|l0 ls] eqn:Hs.
      * intros ->%list_elem_of_singleton.
        intros [->|?%elem_of_nil]%elem_of_cons; [by left|done].
      * intros [->|Hl]%elem_of_cons.
        -- intros [->|Hc]%elem_of_cons; [by left|].
           right. eapply IH; [by left|done].
        -- intros Hc. right. eapply IH; [by right|done].
Qed.

Lemma join_cons sep l ls :
  ls <> [] -> join sep (l :: ls) = l ++ sep ++ join sep ls.
Proof. by destruct ls. Qed.

Lemma join_app sep l1 l2 :
  l1 <> [] -> l2 <> [] ->
  join sep (l1 ++ l2) = join sep l1 ++ sep ++ join sep l2.
Proof.
  intros H1 H2. induction l1 as [|l l1 IH]; [done|].
  destruct l1 as [|l' l1].
  - simpl. by destruct l2.
  - change ((l :: l' :: l1) ++ l2) with (l :: (l' :: l1) ++ l2).
    rewrite !join_cons by done. rewrite IH by done.
    by rewrite <- !app_assoc.
Qed.

Lemma join_split sep s : join [sep] (split_on sep s) = s.
Proof.
  induction s as [|c s IH]; simpl; [done|].
  destruct (chr_eqb c sep) eqn:Heq.
  - apply chr_eqb_eq in Heq as ->.
    rewrite join_cons by apply split_on_nonempty. simpl. by rewrite IH.
  - pose proof (split_on_nonempty sep s) as Hne.
    destruct (split_on sep s) as [|l ls]; [done|].
    destruct ls as [|l' ls]; simpl in *; by rewrite <- IH.
Qed.

Lemma split_on_join sep ls :
  ls <> [] -> Forall (fun l => sep ∉ l) ls ->
  split_on sep (join [sep] ls) = ls.
Proof.
  intros Hne Hls. induction Hls as [|l ls Hl Hls IH]; [done|].
  destruct ls as [|l' ls].
  - simpl. by apply split_on_without.
  - rewrite join_cons by done.
    change (l ++ [sep] ++ join [sep] (l' :: ls))
      with (l ++ sep :: join [sep] (l' :: ls)).
    apply Forall_cons in Hls as [Hl' Hls'].
    rewrite split_on_app, split_on_without, IH by (done || by constructor).
    done.
Qed.

Lemma remove_cr_app a b : remove_cr (a ++ b) = remove_cr a ++ remove_cr b.
Proof. unfold remove_cr. apply List.filter_app. Qed.

Lemma remove_cr_id s : CR ∉ s -> remove_cr s = s.
Proof.
  induction s as [|c s IH]; intros Hs; [done|].
  apply not_elem_of_cons in Hs as [Hc Hs]. unfold remove_cr. simpl.
  destruct (chr_eqb c CR) eqn:Heq.
  - apply chr_eqb_eq in Heq. congruence.
  - simpl. f_equal. by apply IH.
Qed.

Lemma remove_cr_clean s : CR ∉ remove_cr s.
Proof.
  intros Hin%list_elem_of_In. apply filter_In in Hin as [_ Hc].
  unfold chr_eqb in Hc. by rewrite Ascii.eqb_refl in Hc.
Qed.

Lemma remove_cr_cons c s :
  remove_cr (c :: s) = if chr_eqb c CR then remove_cr s else c :: remove_cr s.
Proof. unfold remove_cr. simpl. by destruct (chr_eqb c CR). Qed.

Lemma split_on_remove_cr s :
  split_on LF (remove_cr s) = remove_cr <$> split_on LF s.
Proof.
  induction s as [|c s IH]; [done|].
  rewrite remove_cr_cons. pose proof (split_on_nonempty LF s) as Hne.
  destruct (chr_eqb c CR) eqn:Hcr.
  - rewrite IH. apply chr_eqb_eq in Hcr as ->. simpl.
    replace (chr_eqb CR LF) with false by done.
    by destruct (split_on LF s).
  - simpl. destruct (chr_eqb c LF) eqn:Hlf; [by rewrite IH|].
    rewrite IH. destruct (split_on LF s); [done|].
    by rewrite !fmap_cons, remove_cr_cons, Hcr.
Qed.

Lemma remove_cr_join ls :
  remove_cr (join [LF] ls) = join [LF] (remove_cr <$> ls).
Proof.
  induction ls as [|l ls IH]; [done|].
  destruct ls as [|l' ls]; [done|].
  rewrite join_cons by done. rewrite !fmap_cons.
  rewrite (join_cons _ (remove_cr l)) by done.
  rewrite !remove_cr_app, IH. by rewrite !fmap_cons.
Qed.

Lemma join_without c ls :
  c <> LF -> Forall (fun l => c ∉ l) ls -> c ∉ join [LF] ls.
Proof.
  intros Hc Hls. induction Hls as [|l ls Hl Hls IH]; [apply not_elem_of_nil|].
  destruct ls as [|l' ls]; [done|].
  rewrite join_cons by done. rewrite !not_elem_of_app. repeat split; try done.
  apply not_elem_of_cons. split; [done|apply not_elem_of_nil].
Qed.

(** ** [indexOf] *)

Lemma indexOf_from_first x pos l1 l2 :
  x ∉ l1 -> indexOf_from x pos (l1 ++ x :: l2) = Some (pos + length l1).
Proof.
  revert pos. induction l1 as [|y l1 IH]; intros pos Hx; simpl.
  - unfold jsstring_eqb. rewrite bool_decide_true by done. f_equal. lia.
  - apply not_elem_of_cons in Hx as [Hy Hx]. unfold jsstring_eqb.
    rewrite bool_decide_false by done. rewrite (IH _ Hx). f_equal. lia.
Qed.

Lemma indexOf_from_Some x pos l k :
  indexOf_from x pos l = Some k -> pos <= k /\ l !! (k - pos) = Some x.
Proof.
  revert pos. induction l as [|y l IH]; intros pos; simpl; [done|].
  unfold jsstring_eqb. case_bool_decide as Hy.
  - intros [= <-]. rewrite Nat.sub_diag. by subst.
  - intros [Hle Hk]%IH. split; [lia|].
    replace (k - pos) with (S (k - S pos)) by lia. done.
Qed.

(** ** Fix mode *)

Lemma content_bodyAfter idx data :
  join [LF] (drop (idx + 1) (fileLines data)) = remove_cr (bodyAfter idx data).
Proof.
  unfold fileLines, bodyAfter. rewrite Nat.add_1_r. simpl.
  by rewrite split_on_remove_cr, <- fmap_drop, remove_cr_join.
Qed.

Lemma bodyAfter_suffix idx data :
  0 < idx < length (split_on LF data) ->
  data = join [LF] (take idx (split_on LF data)) ++ [LF] ++ bodyAfter idx data.
Proof.
  intros Hidx. unfold bodyAfter.
  rewrite <- join_app.
  - by rewrite take_drop, join_split.
  - intros H%(f_equal length). rewrite length_take in H. simpl in H. lia.
  - intros H%(f_equal length). rewrite length_drop in H. simpl in H. lia.
Qed.

Section Fix.
Context {A : Type}.
Variable load : jsstring -> YAMLException + A.
Variable dump : A -> YAMLException + jsstring.
Implicit Types st : State A.

Lemma lintFileCatch_keeps filePath text fmLines error st :
  let st' := (lintFileCatch filePath text fmLines error st).2 in
  args st' = args st /\ config st' = config st /\ files st' = files st
  /\ readOnly st' = readOnly st.
Proof.
  unfold lintFileCatch.
  by destruct text; destruct (quiet (args st)) eqn:Hq; simpl; rewrite ?Hq.
Qed.

(** What a run of [lintFile] in fix mode leaves behind when the front
    matter is found, loaded and dumped and the file can be written. *)
Lemma lintFile_fix_files filePath text a c st data st0 idx attributes dumped :
  lintFileInput filePath text a c st = Some (data, st0) ->
  fix_ (args st0) = true ->
  startsWith (lineAt (fileLines data) 1) (js "---") = true ->
  indexOf (fileLines data) (js "---") 2 = Some idx ->
  load (loadInput (take (idx + 1) (fileLines data))) = inr attributes ->
  dump attributes = inr dumped ->
  filePath ∉ readOnly st0 ->
  let st' := (lintFile load dump filePath text a c st).2 in
  files st'
  = <[filePath := join [LF] (drop 1 (fixedFrontMatter dumped)) ++ [LF]
                  ++ join [LF] (drop (idx + 1) (fileLines data))]> (files st0)
  /\ args st' = args st0 /\ config st' = config st0
  /\ readOnly st' = readOnly st0.
Proof.
  intros Hin Hfix Hstart Hidx Hload Hdump Hrw. unfold lintFile.
  rewrite Hin, Hstart, Hidx. unfold lintFrontMatter.
  rewrite Hload, Hfix, Hdump. unfold writeFileSync.
  rewrite bool_decide_eq_false_2 by done.
  set (w := join [LF] (drop 1 (fixedFrontMatter dumped)) ++ _).
  set (s1 := mkStateOn _ _ _ _ _ _ _ _ _).
  pose proof (lintLineByLine_frame (fixedFrontMatter dumped) filePath s1)
    as (Ha1 & Hc1 & _ & _ & _ & Hf1).
  pose proof (lintLineByLine_readOnly (fixedFrontMatter dumped) filePath s1)
    as Hr1.
  destruct (lintLineByLine (fixedFrontMatter dumped) filePath s1)
    as [basic s2].
  pose proof (extraLinters_frame attributes (fixedFrontMatter dumped)
                filePath s2) as (Ha2 & Hc2 & _ & _ & _ & _ & Hf2).
  pose proof (extraLinters_readOnly attributes (fixedFrontMatter dumped)
                filePath s2) as Hr2.
  destruct (extraLinters attributes (fixedFrontMatter dumped) filePath s2)
    as [[thrown s3]|[extra s3]].
  - pose proof (lintFileCatch_keeps filePath text
                  (take (idx + 1) (fileLines data)) thrown s3)
      as (Ha3 & Hc3 & Hf3 & Hr3).
    destruct (lintFileCatch _ _ _ _ _) as [outcome s4].
    simpl in *. by rewrite Hf3, Hf2, Hf1, Ha3, Ha2, Ha1, Hc3, Hc2, Hc1,
                           Hr3, Hr2, Hr1.
  - simpl in *. by rewrite Hf2, Hf1, Ha2, Ha1, Hc2, Hc1, Hr2, Hr1.
Qed.

(** C1 (as the code has it). When fix mode rewrites a file -- the front
    matter is found, loaded and dumped and the file can be written -- the
    text it hands to [writeFileSync] is the fixed front matter, a line
    feed, and the text after the closing delimiter line, as [readFileSync]
    decoded it or as it was passed in, with its carriage returns removed
    and every other character unchanged and in place; a body without
    carriage returns is written back character for character. *)
Theorem fix_mode_writes_body_without_cr
    filePath text a c st data st0 idx attributes dumped :
  lintFileInput filePath text a c st = Some (data, st0) ->
  fix_ (args st0) = true ->
  startsWith (lineAt (fileLines data) 1) (js "---") = true ->
  indexOf (fileLines data) (js "---") 2 = Some idx ->
  load (loadInput (take (idx + 1) (fileLines data))) = inr attributes ->
  dump attributes = inr dumped ->
  filePath ∉ readOnly st0 ->
  let body := bodyAfter idx data in
  files (lintFile load dump filePath text a c st).2 !! filePath
  = Some (join [LF] (drop 1 (fixedFrontMatter dumped)) ++ [LF]
          ++ remove_cr body)
  /\ (idx < length (split_on LF data) ->
      data = join [LF] (take idx (split_on LF data)) ++ [LF] ++ body)
  /\ (CR ∉ body -> remove_cr body = body).
Proof.
  intros Hin Hfix Hstart Hidx Hload Hdump Hrw body.
  destruct (lintFile_fix_files filePath text a c st data st0 idx attributes
              dumped Hin Hfix Hstart Hidx Hload Hdump Hrw) as (Hfiles & _).
  rewrite Hfiles, lookup_insert_eq, content_bodyAfter.
  repeat split.
  - intros Hlt. apply bodyAfter_suffix.
    apply indexOf_from_Some in Hidx as [Hge _]. lia.
  - apply remove_cr_id.
Qed.
End Fix.

Lemma fix_mode_writes_body_without_cr_witness :
  let a := PlainYaml.fixArgs in
  let data := text_of ["---"; "title:   x"; "---"; "# Heading"; "text"] in
  let st := PlainYaml.start a ∅ in
  lintFileInput PlainYaml.post data a PlainYaml.noPlugins st
  = Some (data, setArgsConfig a PlainYaml.noPlugins st)
  /\ (PlainYaml.post ∉ readOnly (setArgsConfig a PlainYaml.noPlugins st))
  /\ files (lintFile PlainYaml.load PlainYaml.dump PlainYaml.post data a
                     PlainYaml.noPlugins st).2 !! PlainYaml.post
     = Some (text_of ["---"; "title: x"; "---"; "# Heading"; "text"]).
Proof.
  intros a data st.
  assert (H1 : lintFileInput PlainYaml.post data a PlainYaml.noPlugins st
               = Some (data, setArgsConfig a PlainYaml.noPlugins st))
    by reflexivity.
  assert (H2 : PlainYaml.post
               ∉ readOnly (setArgsConfig a PlainYaml.noPlugins st))
    by apply not_elem_of_empty.
  refine (conj H1 (conj H2 _)).
  rewrite (proj1 (fix_mode_writes_body_without_cr PlainYaml.load PlainYaml.dump
             PlainYaml.post data a PlainYaml.noPlugins st data
             (setArgsConfig a PlainYaml.noPlugins st) 3
             [(js "title", js "x")] (js "title: x" ++ [LF])
             H1 eq_refl eq_refl eq_refl eq_refl eq_refl H2)).
  reflexivity.
Defined.

(** C1, the claim as stated fails: a body with Windows line ends is not
    written back unchanged; fix mode drops its carriage returns. *)
Lemma fix_mode_strips_carriage_returns_from_body :
  let a := PlainYaml.fixArgs in
  let data := js "---" ++ [LF] ++ js "title: x" ++ [LF] ++ js "---" ++ [LF]
              ++ js "first" ++ [CR; LF] ++ js "second" in
  let st' := (lintFile PlainYaml.load PlainYaml.dump PlainYaml.post data a
                       PlainYaml.noPlugins (PlainYaml.start a ∅)).2 in
  bodyAfter 3 data = js "first" ++ [CR; LF] ++ js "second"
  /\ bodyAfter 3 <$> files st' !! PlainYaml.post
     = Some (js "first" ++ [LF] ++ js "second")
  /\ bodyAfter 3 <$> files st' !! PlainYaml.post <> Some (bodyAfter 3 data).
Proof.
  vm_compute. split; [done|]. split; [done|]. intros H. discriminate H.
Qed.

Lemma stripTrailingComma_subset line c :
  c ∈ stripTrailingComma line -> c ∈ line.
Proof.
  unfold stripTrailingComma. destruct (exec _ _ _) as [m|]; [|done].
  intros [H|H]%elem_of_app;
    [by apply (subseteq_take (index m))|by eapply subseteq_drop].
Qed.

(** The block fix mode builds is well formed: the sentinel, the opening
    delimiter, lines without line feeds, and the closing delimiter. *)
Lemma fixedFrontMatter_shape dumped :
  fixedFrontMatter dumped
  = [] :: js "---" :: blockBody (fixedFrontMatter dumped) ++ [js "---"]
  /\ Forall (fun l => LF ∉ l) (blockBody (fixedFrontMatter dumped)).
Proof.
  unfold fixedFrontMatter.
  set (ls := stripTrailingComma <$> split_on LF dumped).
  assert (Hfree : Forall (fun l => LF ∉ l) ls).
  { subst ls. apply Forall_fmap, Forall_forall. intros l Hl Hc.
    apply stripTrailingComma_subset in Hc.
    pose proof (split_on_elems LF dumped) as Hs. rewrite Forall_forall in Hs.
    by apply (Hs l). }
  assert (Hne : ls <> []).
  { subst ls. pose proof (split_on_nonempty LF dumped).
    by destruct (split_on LF dumped). }
  clearbody ls. destruct (exists_last Hne) as (body & x & ->).
  apply Forall_app in Hfree as [Hbody _].
  assert (Hfix : <[length ([] :: js "---" :: body ++ [x]) - 1 := js "---"]>
                   ([] :: js "---" :: body ++ [x])
                 = [] :: js "---" :: body ++ [js "---"]).
  { change ([] :: js "---" :: body ++ [x])
      with (([] :: js "---" :: body) ++ [x]).
    rewrite length_app. simpl length.
    replace (S (S (length body)) + 1 - 1)
      with (length ([] :: js "---" :: body) + 0) by (simpl; lia).
    by rewrite insert_app_r. }
  rewrite Hfix.
  assert (Hbb : blockBody ([] :: js "---" :: body ++ [js "---"]) = body).
  { unfold blockBody.
    change ([] :: js "---" :: body ++ [js "---"])
      with (([] :: js "---" :: body) ++ [js "---"]).
    rewrite length_app. simpl length.
    rewrite take_app_length' by (simpl; lia). done. }
  by rewrite Hbb.
Qed.

(** Reading back a file that fix mode wrote. *)
Lemma fileLines_rewritten body content :
  Forall (fun l => LF ∉ l) body -> Forall (fun l => CR ∉ l) body ->
  CR ∉ content ->
  fileLines (join [LF] (js "---" :: body ++ [js "---"]) ++ [LF] ++ content)
  = ([] :: js "---" :: body ++ [js "---"]) ++ split_on LF content.
Proof.
  intros Hlf Hcr Hcontent. unfold fileLines.
  assert (Hdash : forall c, c ∈ js "---" -> c = "-"%char).
  { intros c Hc. repeat (apply elem_of_cons in Hc as [->|Hc]; [done|]).
    by apply elem_of_nil in Hc. }
  assert (Hlf' : Forall (fun l => LF ∉ l) (js "---" :: body ++ [js "---"])).
  { constructor; [by intros ?%Hdash|]. apply Forall_app. split; [done|].
    constructor; [by intros ?%Hdash|done]. }
  assert (Hcr' : Forall (fun l => CR ∉ l) (js "---" :: body ++ [js "---"])).
  { constructor; [by intros ?%Hdash|]. apply Forall_app. split; [done|].
    constructor; [by intros ?%Hdash|done]. }
  rewrite remove_cr_id.
  - change ([LF] ++ content) with (LF :: content).
    by rewrite split_on_app, split_on_join by done.
  - rewrite !not_elem_of_app.
    repeat split; [|by intros ?%list_elem_of_singleton|done].
    by apply join_without.
Qed.

Lemma fileLines_clean data l : l ∈ fileLines data -> CR ∉ l.
Proof.
  unfold fileLines. intros [->|Hl]%elem_of_cons; [apply not_elem_of_nil|].
  intros Hc. apply (remove_cr_clean data). by eapply split_on_subset.
Qed.

(** What [/\s*,$/] matches holds a comma of the line. *)
Lemma exec_dumpComma line m :
  exec dumpCommaRegex line 0 = Some m ->
  index m < length line /\ 1 <= match_len m.
Proof.
  intros (_ & Hm & _)%exec_Some. unfold dumpCommaRegex in Hm.
  simpl in Hm. apply backtrack_Some in Hm as (j & ls & Hls & _ & Hrest).
  destruct (drop j (drop (index m) line)) as [|c s] eqn:Hd; [done|].
  destruct (chr_eqb "," c); [|done].
  destruct s; [|done]. simpl in Hrest. injection Hrest as <-.
  apply (f_equal length) in Hd. rewrite !length_drop in Hd. simpl in Hd.
  unfold match_len. rewrite Hls. simpl. lia.
Qed.

Lemma stripTrailingComma_length line :
  length (stripTrailingComma line) <= length line.
Proof.
  unfold stripTrailingComma.
  destruct (exec dumpCommaRegex line 0) as [m|]; [|done].
  rewrite length_app, length_take, length_drop. lia.
Qed.

(** A line that ends in a comma gets shorter. *)
Lemma stripTrailingComma_comma line :
  last line = Some ","%char ->
  length (stripTrailingComma line) < length line.
Proof.
  intros Hlast. unfold stripTrailingComma.
  destruct (exec dumpCommaRegex line 0) as [m|] eqn:Hex.
  - apply exec_dumpComma in Hex as [Hi Hl].
    rewrite length_app, length_take, length_drop. lia.
  - apply last_Some in Hlast as [pre ->].
    pose proof (exec_None _ _ _ Hex (length pre)) as Hnone.
    rewrite length_app, drop_app_length in Hnone. simpl in Hnone.
    discriminate Hnone. lia.
Qed.

(** The block fix mode builds, from the lines of the dump. *)
Lemma fixedFrontMatter_lines dumped body x :
  split_on LF dumped = body ++ [x] ->
  fixedFrontMatter dumped
  = [] :: js "---" :: (stripTrailingComma <$> body) ++ [js "---"].
Proof.
  intros Hsplit. unfold fixedFrontMatter. rewrite Hsplit, fmap_app.
  set (ls := stripTrailingComma <$> body). simpl fmap.
  change ([] :: js "---" :: ls ++ [stripTrailingComma x])
    with (([] :: js "---" :: ls) ++ [stripTrailingComma x]).
  rewrite length_app. simpl length.
  replace (S (S (length ls)) + 1 - 1)
    with (length ([] :: js "---" :: ls) + 0) by (simpl; lia).
  by rewrite insert_app_r.
Qed.

Section Twice.
Context {A : Type}.
Variable load : jsstring -> YAMLException + A.
Variable dump : A -> YAMLException + jsstring.
Implicit Types st : State A.

(** Why fix mode is not idempotent, whatever the YAML library.  Let fix
    mode rewrite a file that can be written, and let the block it wrote
    hold no carriage return and no inner [---] line.  Let the YAML
    library be as stable as it can be on that block: loading the block
    and dumping the result gives the lines of the block back, unchanged.
    If a line of the block ends in a comma -- the first run took one
    comma off a line that ended in several -- the second run of fix mode
    takes the next comma off, and the file it writes differs from the
    file the first run wrote. *)
Lemma fix_mode_second_run_strips_again
    filePath a c st data idx attributes dumped attributes' dumped' line :
  files st !! filePath = Some data ->
  filePath ∉ readOnly st ->
  fix_ (args st) = true ->
  startsWith (lineAt (fileLines data) 1) (js "---") = true ->
  indexOf (fileLines data) (js "---") 2 = Some idx ->
  load (loadInput (take (idx + 1) (fileLines data))) = inr attributes ->
  dump attributes = inr dumped ->
  let block := fixedFrontMatter dumped in
  Forall (fun l => l <> js "---" /\ CR ∉ l) (blockBody block) ->
  load (loadInput block) = inr attributes' ->
  dump attributes' = inr dumped' ->
  split_on LF dumped' = blockBody block ++ [[]] ->
  line ∈ blockBody block ->
  last line = Some ","%char ->
  let once := (lintFile load dump filePath [] a c st).2 in
  let twice := (lintFile load dump filePath [] a c once).2 in
  files once !! filePath
  = Some (join [LF] (drop 1 block) ++ [LF] ++ remove_cr (bodyAfter idx data))
  /\ files twice !! filePath
     = Some (join [LF] (js "---"
                        :: (stripTrailingComma <$> blockBody block)
                        ++ [js "---"])
             ++ [LF] ++ remove_cr (bodyAfter idx data))
  /\ files twice !! filePath <> files once !! filePath.
Proof.
  intros Hdata Hrw Hfix Hstart Hidx Hload Hdump block Hbody Hload' Hdump'
    Hstable Hline Hcomma once twice.
  assert (Hin : lintFileInput filePath [] a c st = Some (data, st)).
  { unfold lintFileInput. by rewrite Hdata. }
  destruct (lintFile_fix_files load dump filePath [] a c st data st idx
              attributes dumped Hin Hfix Hstart Hidx Hload Hdump Hrw)
    as (Hfiles & Hargs & _ & Hro).
  fold once in Hfiles, Hargs, Hro. fold block in Hfiles.
  rewrite <- content_bodyAfter.
  set (content := join [LF] (drop (idx + 1) (fileLines data))) in *.
  set (w := join [LF] (drop 1 block) ++ [LF] ++ content) in *.
  assert (Hw : files once !! filePath = Some w).
  { by rewrite Hfiles, lookup_insert_eq. }
  split; [done|].
  destruct (fixedFrontMatter_shape dumped) as [Hshape Hlf].
  fold block in Hshape, Hlf.
  set (body := blockBody block) in *.
  assert (Hcontent : CR ∉ content).
  { subst content. apply join_without; [done|]. apply Forall_forall.
    intros l Hl. apply (fileLines_clean data).
    by apply (subseteq_drop (idx + 1)). }
  assert (Hlines : fileLines w = block ++ split_on LF content).
  { subst w. rewrite Hshape. simpl drop.
    apply fileLines_rewritten; [done| |done].
    eapply Forall_impl; [exact Hbody|]. by intros l [_ ?]. }
  assert (Hlen : length block = 2 + length body + 1).
  { rewrite Hshape. simpl. rewrite length_app. simpl. lia. }
  assert (Hin' : lintFileInput filePath [] a c once = Some (w, once)).
  { unfold lintFileInput. by rewrite Hw. }
  assert (Hidx' : indexOf (fileLines w) (js "---") 2
                  = Some (2 + length body)).
  { rewrite Hlines, Hshape. unfold indexOf. simpl drop.
    rewrite <- app_assoc. apply indexOf_from_first. intros Hd.
    rewrite Forall_forall in Hbody. by destruct (Hbody _ Hd). }
  assert (Htake : take (2 + length body + 1) (fileLines w) = block).
  { rewrite Hlines. by apply take_app_length'. }
  assert (Hdrop : join [LF] (drop (2 + length body + 1) (fileLines w))
                  = content).
  { rewrite Hlines, drop_app_length' by done. apply join_split. }
  assert (Hstart' : startsWith (lineAt (fileLines w) 1) (js "---") = true).
  { by rewrite Hlines, Hshape. }
  assert (Hfix' : fix_ (args once) = true) by (by rewrite Hargs).
  assert (Hrw' : filePath ∉ readOnly once) by (by rewrite Hro).
  rewrite <- Htake in Hload'.
  destruct (lintFile_fix_files load dump filePath [] a c once w once
              (2 + length body) attributes' dumped'
              Hin' Hfix' Hstart' Hidx' Hload' Hdump' Hrw') as (Hfiles' & _).
  fold twice in Hfiles'.
  assert (Hw' : files twice !! filePath
                = Some (join [LF] (js "---"
                                   :: (stripTrailingComma <$> body)
                                   ++ [js "---"])
                        ++ [LF] ++ content)).
  { rewrite Hfiles', lookup_insert_eq, Hdrop.
    by rewrite (fixedFrontMatter_lines dumped' body []). }
  split; [done|].
  rewrite Hw', Hw. subst w. rewrite Hshape. simpl drop.
  intros Heq. apply (inj Some), app_inv_tail in Heq.
  assert (Hdash : LF ∉ js "---").
  { intros Hc. repeat (apply elem_of_cons in Hc as [Hc|Hc]; [done|]).
    by apply elem_of_nil in Hc. }
  apply (f_equal (split_on LF)) in Heq.
  change ["-"%char; "-"%char; "-"%char] with (js "---") in Heq.
  rewrite (split_on_join LF (js "---" :: (stripTrailingComma <$> body)
                             ++ [js "---"])),
          (split_on_join LF (js "---" :: body ++ [js "---"])) in Heq;
    [|done| |done|].
  - injection Heq as Heq. apply app_inv_tail in Heq.
    apply list_elem_of_lookup in Hline as [i Hi].
    apply (f_equal (fun ls => ls !! i)) in Heq.
    rewrite list_lookup_fmap, Hi in Heq. injection Heq as Heq.
    pose proof (stripTrailingComma_comma line Hcomma) as Hlt.
    rewrite Heq in Hlt. lia.
  - constructor; [done|]. apply Forall_app. split; [done|].
    by constructor.
  - constructor; [done|]. apply Forall_app. split; [|by constructor].
    apply Forall_fmap, Forall_forall. intros l Hl Hc.
    apply stripTrailingComma_subset in Hc.
    rewrite Forall_forall in Hlf. by apply (Hlf l).
Qed.
End Twice.

(** C9, the code at the failing input: a file whose front matter holds a
    block scalar in literal style with a line that ends in two commas,
    fixed twice, with a YAML library that writes the lines of such a
    scalar as they are.  The first run takes one comma off the line, the
    second run the other: the front matter the second run writes is not
    the front matter the first run wrote. *)
Theorem fix_mode_twice_strips_again :
  let a := PlainYaml.fixArgs in
  let data := text_of ["---"; "summary: |-"; "  one,,"; "  two"; "---";
                       "text"] in
  let st := LiteralYaml.start a {[ PlainYaml.post := data ]} in
  let once := (lintFile LiteralYaml.load LiteralYaml.dump PlainYaml.post [] a
                        LiteralYaml.noPlugins st).2 in
  let twice := (lintFile LiteralYaml.load LiteralYaml.dump PlainYaml.post [] a
                         LiteralYaml.noPlugins once).2 in
  files once !! PlainYaml.post
  = Some (text_of ["---"; "summary: |-"; "  one,"; "  two"; "---"; "text"])
  /\ files twice !! PlainYaml.post
     = Some (text_of ["---"; "summary: |-"; "  one"; "  two"; "---"; "text"])
  /\ files twice !! PlainYaml.post <> files once !! PlainYaml.post.
Proof.
  intros a data st once twice.
  set (lines := js <$> ["summary: |-"; "  one,,"; "  two"]).
  set (lines' := js <$> ["summary: |-"; "  one,"; "  two"]).
  assert (H1 : files st !! PlainYaml.post = Some data) by reflexivity.
  assert (H2 : PlainYaml.post ∉ readOnly st) by apply not_elem_of_empty.
  assert (H3 : Forall (fun l => l <> js "---" /\ CR ∉ l)
                 (blockBody (fixedFrontMatter (join [LF] lines ++ [LF])))).
  { repeat constructor; try discriminate;
      intros Hc;
      repeat (apply elem_of_cons in Hc as [Hc|Hc]; [discriminate|]);
      by apply elem_of_nil in Hc. }
  assert (H4 : js "  one,"
               ∈ blockBody (fixedFrontMatter (join [LF] lines ++ [LF]))).
  { right. left. }
  exact (fix_mode_second_run_strips_again LiteralYaml.load LiteralYaml.dump
           PlainYaml.post a LiteralYaml.noPlugins st data 5 lines
           (join [LF] lines ++ [LF]) lines' (join [LF] lines' ++ [LF])
           (js "  one,")
           H1 H2 eq_refl eq_refl eq_refl eq_refl eq_refl H3
           eq_refl eq_refl eq_refl H4 eq_refl).
Qed.

(** * Further properties of [lintLineByLine] *)

Ltac scan_field p g :=
  unfold scanLines; rewrite (foldl_pushes _ p g); [done|]; lintLine_cases.

Lemma scan_spacesBeforeColon fix_ fm req fx :
  noWhitespaceBeforeColon (scanBasicErrors (scanLines fix_ fm req fx))
  = concat (errorRule spacesBeforeColon fix_ fm <$> bodyRows fm).
Proof.
  scan_field (fun s => noWhitespaceBeforeColon (scanBasicErrors s))
             (errorRule spacesBeforeColon fix_ fm).
Qed.

Lemma scan_quotes fix_ fm req fx :
  noQuotes (scanBasicErrors (scanLines fix_ fm req fx))
  = concat (errorRule quotes fix_ fm <$> bodyRows fm).
Proof.
  scan_field (fun s => noQuotes (scanBasicErrors s))
             (errorRule quotes fix_ fm).
Qed.

Lemma scan_brackets fix_ fm req fx :
  noBrackets (scanBasicErrors (scanLines fix_ fm req fx))
  = concat (errorRule brackets fix_ fm <$> bodyRows fm).
Proof.
  scan_field (fun s => noBrackets (scanBasicErrors s))
             (errorRule brackets fix_ fm).
Qed.

Lemma scan_curlyBraces fix_ fm req fx :
  noCurlyBraces (scanBasicErrors (scanLines fix_ fm req fx))
  = concat (errorRule curlyBraces fix_ fm <$> bodyRows fm).
Proof.
  scan_field (fun s => noCurlyBraces (scanBasicErrors s))
             (errorRule curlyBraces fix_ fm).
Qed.

Lemma scan_trailingCommas fix_ fm req fx :
  noTrailingCommas (scanBasicErrors (scanLines fix_ fm req fx))
  = concat (errorRule trailingCommas fix_ fm <$> bodyRows fm).
Proof.
  scan_field (fun s => noTrailingCommas (scanBasicErrors s))
             (errorRule trailingCommas fix_ fm).
Qed.

Lemma scan_whitespace fix_ fm req fx :
  unintendedWhitespace (scanBasicWarnings (scanLines fix_ fm req fx))
  = concat ((fun i => warningRule repeatingSpaces fix_ fm i
                      ++ errorRule oneSpaceAfterColon fix_ fm i)
              <$> bodyRows fm).
Proof.
  scan_field (fun s => unintendedWhitespace (scanBasicWarnings s))
             (fun i => warningRule repeatingSpaces fix_ fm i
                       ++ errorRule oneSpaceAfterColon fix_ fm i).
Qed.

Lemma scan_emptyLines fix_ fm req fx :
  noEmptyLines (scanBasicErrors (scanLines fix_ fm req fx))
  = concat ((fun i => if negb fix_ && blank (lineAt fm i) then [i] else [])
              <$> bodyRows fm).
Proof.
  scan_field (fun s => noEmptyLines (scanBasicErrors s))
             (fun i => if negb fix_ && blank (lineAt fm i) then [i] else []).
Qed.

Lemma scan_counts fix_ fm req fx :
  let sc := scanLines fix_ fm req fx in
  scanErrors sc = fixableEntries (scanBasicErrors sc)
  /\ scanWarnings sc = warningEntries (scanBasicWarnings sc)
  /\ scanFixable sc = fx + scanErrors sc.
Proof.
  unfold scanLines.
  apply (foldl_invariant _ (fun sc =>
           scanErrors sc = fixableEntries (scanBasicErrors sc)
           /\ scanWarnings sc = warningEntries (scanBasicWarnings sc)
           /\ scanFixable sc = fx + scanErrors sc)).
  - intros acc i (He & Hw & Hf).
    unfold lintLine, fixableEntries, warningEntries in *.
    destruct (negb _ && _); simpl; rewrite ?length_app; simpl; lia.
  - unfold scanStart, fixableEntries, warningEntries. simpl. lia.
Qed.

(** X1. The counts [lintLineByLine] returns are the sizes of its arrays:
    [fileErrors] is the number of entries in the error arrays, the missing
    attributes included; [fileWarnings] is the number of entries in the two
    warning arrays; and the module's [fixableErrors] grows by the number of
    errors other than missing attributes. *)
Theorem lintLineByLine_counts {A} fm filePath (st : State A) :
  let r := (lintLineByLine fm filePath st).1 in
  Basic.fileErrors r = errorEntries (Basic.errors r)
  /\ Basic.fileWarnings r = warningEntries (Basic.warnings r)
  /\ fixableErrors (lintLineByLine fm filePath st).2
     = fixableErrors st + fixableEntries (Basic.errors r).
Proof.
  rewrite lintLineByLine_result. simpl.
  destruct (scan_counts (fix_ (args st)) fm (requiredAttributes (config st))
              (fixableErrors st)) as (He & Hw & Hf).
  unfold errorEntries. repeat split; lia.
Qed.

Lemma exec_while_Forall {B} (P : B -> Prop) r line (body : rmatch -> nat * B) :
  (forall m, P (body m).2) ->
  forall fuel lastIndex, Forall P (exec_while fuel r line lastIndex body).
Proof.
  intros Hbody fuel. induction fuel as [|fuel IH]; intros lastIndex; simpl.
  - constructor.
  - destruct (exec r line lastIndex); [|constructor].
    constructor; [apply Hbody|apply IH].
Qed.

(** Every rule pushes violations of the row it is looking at, with the
    snippet of that row and of the column it reports. *)
Lemma rules_wellPlaced fm i line :
  Forall (wellPlaced fm i) (spacesBeforeColon fm i line)
  /\ Forall (wellPlaced fm i) (quotes fm i line)
  /\ Forall (wellPlaced fm i) (trailingSpaces fm i line)
  /\ Forall (wellPlaced fm i) (brackets fm i line)
  /\ Forall (wellPlaced fm i) (curlyBraces fm i line)
  /\ Forall (wellPlaced fm i) (indentation fm i line)
  /\ Forall (wellPlaced fm i) (repeatingSpaces fm i line)
  /\ Forall (wellPlaced fm i) (oneSpaceAfterColon fm i line)
  /\ Forall (wellPlaced fm i) (trailingCommas fm i line)
  /\ Forall (wellPlaced fm i) (warnCommas fm i line).
Proof.
  repeat split;
    first [ by apply exec_while_Forall
          | unfold trailingSpaces; destruct (bool_decide _); [|constructor];
            destruct (exec _ _ _); by repeat constructor
          | unfold indentation; repeat (destruct (bool_decide _));
            by repeat constructor
          | unfold trailingCommas; destruct (bool_decide _);
            by repeat constructor ].
Qed.

Lemma errorRule_origin (rule : Rule) fix_ fm j v :
  (forall line, Forall (wellPlaced fm j) (rule fm j line)) ->
  v ∈ errorRule rule fix_ fm j ->
  wellPlaced fm j v /\ blank (lineAt fm j) = false.
Proof.
  intros Hrule. unfold errorRule. destruct fix_; [by intros ?%elem_of_nil|].
  destruct (blank _); [by intros ?%elem_of_nil|].
  intros Hv. split; [|done].
  specialize (Hrule (lineAt fm j)). rewrite Forall_forall in Hrule. auto.
Qed.

Lemma warningRule_origin (rule : Rule) fix_ fm j v :
  (forall line, Forall (wellPlaced fm j) (rule fm j line)) ->
  v ∈ warningRule rule fix_ fm j ->
  wellPlaced fm j v /\ (fix_ = false -> blank (lineAt fm j) = false).
Proof.
  intros Hrule. unfold warningRule.
  destruct fix_, (blank _); simpl; try (by intros ?%elem_of_nil);
    (intros Hv; split; [|done]);
    specialize (Hrule (lineAt fm j)); rewrite Forall_forall in Hrule; auto.
Qed.

(** Where a positioned violation comes from: a row of the block, whose line
    is not blank unless fix mode is on. *)
Lemma positioned_origin {A} fm filePath (st : State A) v :
  v ∈ positioned (lintLineByLine fm filePath st).1 ->
  exists j, j ∈ bodyRows fm /\ wellPlaced fm j v
            /\ (fix_ (args st) = false -> blank (lineAt fm j) = false).
Proof.
  unfold positioned. rewrite lintLineByLine_result. simpl.
  rewrite scan_spacesBeforeColon, scan_quotes, scan_trailingSpaces,
    scan_brackets, scan_curlyBraces, scan_indentation, scan_trailingCommas,
    scan_whitespace, scan_warnCommas.
  rewrite !elem_of_app, !elem_of_concat_fmap.
  intros H.
  repeat match type of H with
         | _ \/ _ => destruct H as [H|H]
         end;
    destruct H as (j & Hj & Hv); exists j; (split; [done|]);
    try (apply elem_of_app in Hv as [Hv|Hv]);
    first [ apply errorRule_origin in Hv as [? ?];
            [by split|intros line; apply (rules_wellPlaced fm j line)]
          | apply warningRule_origin in Hv as [? ?];
            [by split|intros line; apply (rules_wellPlaced fm j line)] ].
Qed.

(** X2. Every positioned violation [lintLineByLine] returns, error or
    warning, has the row of a line it scanned (never the sentinel, never the
    closing delimiter) and carries the snippet of its own row and column;
    the rows of the empty-line array are scanned rows as well. *)
Theorem lintLineByLine_rows_in_block {A} fm filePath (st : State A) :
  let r := (lintLineByLine fm filePath st).1 in
  (forall v, v ∈ positioned r ->
             1 <= row v < length fm - 1
             /\ snippet v = getSnippet fm (col v) (row v))
  /\ (forall i, i ∈ noEmptyLines (Basic.errors r) -> 1 <= i < length fm - 1).
Proof.
  split.
  - intros v (j & Hj & [Hrow Hsnip] & _)%positioned_origin.
    apply bodyRows_elem in Hj. rewrite Hrow. by split.
  - intros i. rewrite lintLineByLine_result. simpl. rewrite scan_emptyLines.
    intros (j & Hj & Hi)%elem_of_concat_fmap.
    destruct (negb _ && _); [|by apply elem_of_nil in Hi].
    apply list_elem_of_singleton in Hi as ->. by apply bodyRows_elem.
Qed.

(** X3. Outside fix mode a row is in the empty-line array iff it is a
    scanned row whose line is blank, and a blank line yields nothing else:
    no positioned violation, error or warning, has the row of a blank
    line. *)
Theorem blank_line_is_reported_alone {A} fm filePath (st : State A) i :
  fix_ (args st) = false ->
  let r := (lintLineByLine fm filePath st).1 in
  (i ∈ noEmptyLines (Basic.errors r)
   <-> i ∈ bodyRows fm /\ blank (lineAt fm i) = true)
  /\ (blank (lineAt fm i) = true -> forall v, v ∈ positioned r -> row v <> i).
Proof.
  intros Hfix r. split.
  - subst r. rewrite lintLineByLine_result. simpl.
    rewrite Hfix, scan_emptyLines, elem_of_concat_fmap. simpl. split.
    + intros (j & Hj & Hi). destruct (blank (lineAt fm j)) eqn:Hb.
      * apply list_elem_of_singleton in Hi as ->. by split.
      * by apply elem_of_nil in Hi.
    + intros [Hi Hb]. exists i. rewrite Hb. split; [done|by left].
  - intros Hb v (j & _ & [Hrow _] & Hnb)%positioned_origin Heq.
    specialize (Hnb Hfix). congruence.
Qed.

Lemma blank_line_is_reported_alone_witness :
  let fm := [[]; js "---"; js "a: x"; js "  "; js "---"] in
  fix_ (args PlainYaml.linting) = false
  /\ 3 ∈ noEmptyLines (Basic.errors (lintBlock fm PlainYaml.linting)).
Proof.
  intros fm.
  assert (H1 : fix_ (args PlainYaml.linting) = false) by reflexivity.
  refine (conj H1 _). unfold lintBlock.
  apply (proj1 (blank_line_is_reported_alone fm PlainYaml.post
                  PlainYaml.linting 3 H1)).
  split; [apply bodyRows_elem; simpl; lia|reflexivity].
Defined.

(** ** Missing attributes *)

Lemma list_indexOf_Some x l n :
  list_indexOf x l = Some n -> l !! n = Some x.
Proof.
  revert n. induction l as [|y l IH]; intros n; simpl; [done|].
  unfold jsstring_eqb. case_bool_decide as Hy.
  - intros [= <-]. by subst.
  - destruct (list_indexOf x l) as [k|]; [|done]. intros [= <-].
    simpl. by apply IH.
Qed.

Lemma list_indexOf_None x l : list_indexOf x l = None -> x ∉ l.
Proof.
  induction l as [|y l IH]; simpl; [intros _; apply not_elem_of_nil|].
  unfold jsstring_eqb. case_bool_decide as Hy; [done|].
  destruct (list_indexOf x l); [done|]. intros _.
  apply not_elem_of_cons. split; [congruence|by apply IH].
Qed.

Lemma splice1_delete {B} n (l : list B) : splice1 n l = delete n l.
Proof. unfold splice1. by rewrite delete_take_drop. Qed.

Lemma splice1_elem n (l : list jsstring) x key :
  NoDup l -> l !! n = Some x ->
  key ∈ splice1 n l <-> key ∈ l /\ key <> x.
Proof.
  intros Hnd Hn. unfold splice1.
  rewrite <- (take_drop_middle l n x Hn) in Hnd at 1.
  apply NoDup_app in Hnd as (_ & Hdisj & Hnd).
  apply NoDup_cons in Hnd as [Hx _].
  rewrite <- (take_drop_middle l n x Hn) at 3.
  rewrite !elem_of_app, elem_of_cons. split.
  - intros [Hk|Hk]; (split; [tauto|]); intros ->; [|done].
    apply (Hdisj x Hk). by left.
  - intros [[Hk|[->|Hk]] Hne]; tauto.
Qed.

Lemma seenAttribute_sublist line ms : seenAttribute line ms `sublist_of` ms.
Proof.
  unfold seenAttribute. destruct (exec _ _ _); [|done].
  destruct (list_indexOf _ _); [|done].
  rewrite splice1_delete. apply sublist_delete.
Qed.

Lemma seenAttribute_elem line ms key :
  NoDup ms ->
  key ∈ seenAttribute line ms <-> key ∈ ms /\ ~ declares line key.
Proof.
  intros Hnd. unfold seenAttribute, declares.
  destruct (exec attributeRegex line 0) as [m|] eqn:Hex.
  - destruct (list_indexOf _ ms) as [n|] eqn:Hidx.
    + rewrite (splice1_elem n ms _ key Hnd (list_indexOf_Some _ _ _ Hidx)).
      split; intros [Hk Hne]; (split; [done|]).
      * intros [_ Heq]. congruence.
      * intros ->. apply Hne. split; [by eexists|done].
    + apply list_indexOf_None in Hidx. split.
      * intros Hk. split; [done|]. intros [_ Heq]. congruence.
      * by intros [Hk _].
  - split; [|by intros [? _]]. intros Hk. split; [done|].
    by intros [[? ?] _].
Qed.

(** X4. The missing attributes [lintLineByLine] returns are required
    attributes, in the order of the configuration: the scan only ever
    removes entries from its copy of [config.requiredAttributes]. *)
Theorem missing_attributes_are_required {A} fm filePath (st : State A) :
  missingRequiredAttribute (Basic.errors (lintLineByLine fm filePath st).1)
  `sublist_of` requiredAttributes (config st).
Proof.
  rewrite lintLineByLine_result. simpl. rewrite scan_missing.
  generalize (requiredAttributes (config st)) as ms.
  induction (bodyRows fm) as [|i rows IH]; intros ms; simpl; [done|].
  etrans; [apply IH|apply seenAttribute_sublist].
Qed.

(** X5. When no required attribute is listed twice, a required attribute
    is reported missing iff no scanned line declares it, that is, starts
    with the key (in optional double quotes, at column 0) and has exactly the
    key, after trimming, in front of its first colon. *)
Theorem missing_attribute_iff {A} fm filePath (st : State A) key :
  NoDup (requiredAttributes (config st)) ->
  key ∈ missingRequiredAttribute
          (Basic.errors (lintLineByLine fm filePath st).1)
  <-> key ∈ requiredAttributes (config st)
      /\ forall i, i ∈ bodyRows fm -> ~ declares (lineAt fm i) key.
Proof.
  rewrite lintLineByLine_result. simpl. rewrite scan_missing.
  generalize (requiredAttributes (config st)) as ms.
  induction (bodyRows fm) as [|i rows IH]; intros ms Hnd; simpl.
  - split; [|by intros [? _]]. intros Hk. split; [done|].
    by intros i ?%elem_of_nil.
  - rewrite IH by (eapply sublist_NoDup; [done|apply seenAttribute_sublist]).
    rewrite (seenAttribute_elem _ _ _ Hnd). split.
    + intros [[Hk Hi] Hrows]. split; [done|].
      intros j [->|Hj]%elem_of_cons; auto.
    + intros [Hk Hall]. repeat split; [done| |].
      * apply Hall. by left.
      * intros j Hj. apply Hall. by right.
Qed.

Lemma missing_attribute_iff_witness :
  let fm := [[]; js "---"; js "title: x"; js "---"] in
  let st : State PlainYaml.Attributes :=
    mkState PlainYaml.lintArgs (mkConfig [js "title"; js "date"] true None)
            0 0 0 None ∅ [] in
  NoDup (requiredAttributes (config st))
  /\ js "date" ∈ missingRequiredAttribute (Basic.errors (lintBlock fm st)).
Proof.
  intros fm st.
  assert (H1 : NoDup (requiredAttributes (config st))).
  { apply NoDup_cons. split; [|apply NoDup_singleton].
    intros H%list_elem_of_singleton. discriminate H. }
  refine (conj H1 _). unfold lintBlock.
  apply (proj2 (missing_attribute_iff fm PlainYaml.post st (js "date") H1)).
  split; [by right; left|].
  intros i Hi [_ Hkey]. apply bodyRows_elem in Hi. simpl in Hi.
  assert (i = 1 \/ i = 2) as [-> | ->] by lia; by vm_compute in Hkey.
Defined.

(** ** The character rules: quotes, brackets, curly braces *)

Ltac ascii_cases c :=
  destruct c as [[] [] [] [] [] [] [] []]; vm_compute; try done.

Lemma space_not_quote c : is_s c = true -> is_quote c = false.
Proof. ascii_cases c. Qed.

Lemma space_not_bracket c : is_s c = true -> is_bracket c = false.
Proof. ascii_cases c. Qed.

Lemma space_not_curly c : is_s c = true -> is_curly c = false.
Proof. ascii_cases c. Qed.

Lemma exec_while_same_exec {B} fuel r line li li' (body : rmatch -> nat * B) :
  exec r line li = exec r line li' ->
  exec_while (S fuel) r line li body = exec_while (S fuel) r line li' body.
Proof. simpl. by intros ->. Qed.

Lemma exec_at r line pre s :
  line = pre ++ s -> exec r line (length pre) = exec_from r (length pre) s.
Proof.
  intros ->. unfold exec. rewrite length_app.
  rewrite (proj2 (Nat.leb_le _ _)) by lia. by rewrite drop_app_length.
Qed.

(** A loop over a one-character regex pushes one violation per character
    of the class, from left to right. *)
Lemma charRule_list fm i line q :
  exec_while (loop_fuel line) [Cls q] line 0 (charRule_body fm i line [Cls q])
  = charViolation fm i <$> indices q line.
Proof.
  unfold indices, loop_fuel.
  assert (H : forall s pre fuel,
             line = pre ++ s -> length s < fuel ->
             exec_while fuel [Cls q] line (length pre)
                        (charRule_body fm i line [Cls q])
             = charViolation fm i <$> indices_from q (length pre) s).
  { induction s as [|c s IH]; intros pre fuel Hline Hfuel.
    - destruct fuel as [|fuel]; [lia|]. simpl.
      by rewrite (exec_at _ _ _ _ Hline).
    - destruct fuel as [|fuel]; [simpl in Hfuel; lia|].
      assert (Hline' : line = (pre ++ [c]) ++ s) by (by rewrite <- app_assoc).
      assert (Hlen : length (pre ++ [c]) = S (length pre))
        by (rewrite length_app; simpl; lia).
      simpl in Hfuel. cbn [indices_from]. destruct (q c) eqn:Hc.
      + cbn [exec_while]. rewrite (exec_at _ _ _ _ Hline). cbn.
        rewrite Hc. cbn.
        assert (Hm : take 1 (drop (length pre) line) = [c]).
        { rewrite Hline. by rewrite drop_app_length. }
        rewrite Hm.
        assert (Hs : search [Cls q] [c] = 0%Z).
        { unfold search, exec. cbn. by rewrite Hc. }
        rewrite Hs. f_equal.
        * unfold charViolation. do 2 f_equal; lia.
        * replace (length pre + 1) with (length (pre ++ [c])) by lia.
          rewrite (IH (pre ++ [c]) fuel Hline') by lia. by rewrite Hlen.
      + rewrite <- Hlen.
        rewrite <- (IH (pre ++ [c]) (S fuel) Hline') by lia.
        apply exec_while_same_exec.
        rewrite (exec_at _ _ _ _ Hline), (exec_at _ _ _ _ Hline').
        rewrite exec_from_cons. cbn. rewrite Hc. by rewrite Hlen. }
  apply (H line [] _ eq_refl). lia.
Qed.

Lemma indices_from_none q pos s :
  Forall (fun c => q c = false) s -> indices_from q pos s = [].
Proof.
  intros Hs. revert pos. induction Hs as [|c s Hc _ IH]; intros pos; simpl;
    [done|]. by rewrite Hc.
Qed.

Lemma indices_from_elem q pos s p :
  p ∈ indices_from q pos s
  <-> exists c, pos <= p /\ s !! (p - pos) = Some c /\ q c = true.
Proof.
  revert pos. induction s as [|c s IH]; intros pos; simpl.
  - split; [by intros ?%elem_of_nil|]. by intros (? & _ & ? & _).
  - assert (Htail : p ∈ indices_from q (S pos) s
                    <-> exists c', S pos <= p
                          /\ (c :: s) !! (p - pos) = Some c' /\ q c' = true).
    { rewrite IH. split.
      - intros (c' & Hp & Hl & Hq). exists c'. repeat split; [done| |done].
        by replace (p - pos) with (S (p - S pos)) by lia.
      - intros (c' & Hp & Hl & Hq). exists c'. repeat split; [done| |done].
        by replace (p - pos) with (S (p - S pos)) in Hl by lia. }
    destruct (q c) eqn:Hc.
    + rewrite elem_of_cons, Htail. split.
      * intros [->|(c' & Hp & Hl & Hq)].
        -- exists c. rewrite Nat.sub_diag. by repeat split.
        -- exists c'. repeat split; [lia|done|done].
      * intros (c' & Hp & Hl & Hq).
        destruct (decide (p = pos)) as [->|Hne]; [by left|].
        right. exists c'. repeat split; [lia|done|done].
    + rewrite Htail. split.
      * intros (c' & Hp & Hl & Hq). exists c'. repeat split; [lia|done|done].
      * intros (c' & Hp & Hl & Hq). exists c'.
        destruct (decide (p = pos)) as [->|Hne].
        { rewrite Nat.sub_diag in Hl. simpl in Hl. congruence. }
        repeat split; [lia|done|done].
Qed.

(** The indices of a class are the positions of its characters. *)
Lemma indices_elem q line p :
  p ∈ indices q line <-> exists c, line !! p = Some c /\ q c = true.
Proof.
  unfold indices. rewrite indices_from_elem. setoid_rewrite Nat.sub_0_r.
  split; intros (c & H); exists c; [tauto|]. split; [lia|tauto].
Qed.

Lemma charRule_row_list (rule : Rule) q {A} fm (st : State A)
    (field : BasicErrors -> list Violation) i line :
  (forall fm i line, rule fm i line
                     = charViolation fm i <$> indices q line) ->
  (forall c, is_s c = true -> q c = false) ->
  (forall fix_ req fx,
      field (scanBasicErrors (scanLines fix_ fm req fx))
      = concat (errorRule rule fix_ fm <$> bodyRows fm)) ->
  fix_ (args st) = false ->
  i ∈ bodyRows fm ->
  fm !! i = Some line ->
  forall filePath,
    filter (fun v => row v = i)
           (field (Basic.errors (lintLineByLine fm filePath st).1))
    = charViolation fm i <$> indices q line.
Proof.
  intros Hrule Hq Hscan Hfix Hi Hline filePath.
  rewrite lintLineByLine_result. simpl. rewrite Hfix, Hscan.
  rewrite filter_row_concat; [| |apply NoDup_seq|done].
  - unfold errorRule, lineAt. rewrite Hline. simpl.
    destruct (blank line) eqn:Hb; [|apply Hrule].
    unfold indices. rewrite indices_from_none; [done|].
    eapply Forall_impl; [by apply blank_spaces|]. apply Hq.
  - intros j v. apply errorRule_row. intros l w. rewrite Hrule.
    by intros (p & -> & _)%list_elem_of_fmap.
Qed.

(** X6. Outside fix mode, the no-quotes violations of a row are one per
    quote character of its line, single or double, from left to right, each
    with [col] the character's index plus 2. *)
Theorem quotes_each_occurrence {A} fm filePath (st : State A) i line :
  fix_ (args st) = false ->
  i ∈ bodyRows fm ->
  fm !! i = Some line ->
  filter (fun v => row v = i)
         (noQuotes (Basic.errors (lintLineByLine fm filePath st).1))
  = charViolation fm i <$> indices is_quote line.
Proof.
  intros Hfix Hi Hline.
  apply (charRule_row_list quotes is_quote fm st noQuotes i line); try done.
  - intros fm' i' line'. apply charRule_list.
  - apply space_not_quote.
  - intros. apply scan_quotes.
Qed.

Lemma quotes_each_occurrence_witness :
  let line := js "title: 'x'" in
  let fm := [[]; js "---"; line; js "---"] in
  fix_ (args PlainYaml.linting) = false /\ 2 ∈ bodyRows fm
  /\ fm !! 2 = Some line
  /\ col <$> filter (fun v => row v = 2)
               (noQuotes (Basic.errors (lintBlock fm PlainYaml.linting)))
     = [9%Z; 11%Z].
Proof.
  intros line fm.
  assert (H1 : fix_ (args PlainYaml.linting) = false) by reflexivity.
  assert (H2 : 2 ∈ bodyRows fm) by (apply bodyRows_elem; simpl; lia).
  assert (H3 : fm !! 2 = Some line) by reflexivity.
  refine (conj H1 (conj H2 (conj H3 _))). unfold lintBlock.
  rewrite (quotes_each_occurrence fm PlainYaml.post PlainYaml.linting 2 line
             H1 H2 H3).
  reflexivity.
Defined.

(** X7. Outside fix mode, the no-brackets violations of a row are one per
    square bracket of its line and the no-curly-braces violations one per
    curly brace, opening or closing, from left to right, each with [col] the
    character's index plus 2. *)
Theorem brackets_and_braces_each_occurrence {A} fm filePath (st : State A)
    i line :
  fix_ (args st) = false ->
  i ∈ bodyRows fm ->
  fm !! i = Some line ->
  filter (fun v => row v = i)
         (noBrackets (Basic.errors (lintLineByLine fm filePath st).1))
  = charViolation fm i <$> indices is_bracket line
  /\ filter (fun v => row v = i)
            (noCurlyBraces (Basic.errors (lintLineByLine fm filePath st).1))
     = charViolation fm i <$> indices is_curly line.
Proof.
  intros Hfix Hi Hline. split.
  - apply (charRule_row_list brackets is_bracket fm st noBrackets i line);
      try done.
    + intros fm' i' line'. apply charRule_list.
    + apply space_not_bracket.
    + intros. apply scan_brackets.
  - apply (charRule_row_list curlyBraces is_curly fm st noCurlyBraces i line);
      try done.
    + intros fm' i' line'. apply charRule_list.
    + apply space_not_curly.
    + intros. apply scan_curlyBraces.
Qed.

Lemma brackets_and_braces_each_occurrence_witness :
  let line := js "tags: [a, {b}]" in
  let fm := [[]; js "---"; line; js "---"] in
  fix_ (args PlainYaml.linting) = false /\ 2 ∈ bodyRows fm
  /\ fm !! 2 = Some line
  /\ col <$> filter (fun v => row v = 2)
               (noBrackets (Basic.errors (lintBlock fm PlainYaml.linting)))
     = [8%Z; 15%Z].
Proof.
  intros line fm.
  assert (H1 : fix_ (args PlainYaml.linting) = false) by reflexivity.
  assert (H2 : 2 ∈ bodyRows fm) by (apply bodyRows_elem; simpl; lia).
  assert (H3 : fm !! 2 = Some line) by reflexivity.
  refine (conj H1 (conj H2 (conj H3 _))). unfold lintBlock.
  rewrite (proj1 (brackets_and_braces_each_occurrence fm PlainYaml.post
                    PlainYaml.linting 2 line H1 H2 H3)).
  reflexivity.
Defined.

(** ** Trailing commas *)

Lemma run_length_all p s :
  length s <= run p s -> Forall (fun c => p c = true) s.
Proof.
  intros H. rewrite <- (take_ge s (length s)) by lia. by apply run_take.
Qed.

Lemma run_le_length p s : run p s <= length s.
Proof. induction s as [|c s IH]; simpl; [lia|]. destruct (p c); lia. Qed.

Lemma match_trailingComma p s :
  is_Some (match_here trailingCommaRegex p s)
  <-> exists ws, s = ","%char :: ws /\ Forall (fun c => is_s c = true) ws.
Proof.
  unfold trailingCommaRegex. split.
  - intros [ls Hm]. destruct s as [|c rest]; [done|]. cbn in Hm.
    destruct (chr_eqb ","%char c) eqn:Hc; [|done].
    apply chr_eqb_eq in Hc as <-.
    destruct (backtrack _ 0 (run is_s rest)) as [ls'|] eqn:Hb; [|done].
    apply backtrack_Some in Hb as (j & ls'' & _ & Hj & Hrest).
    destruct (drop j rest) eqn:Hd; [|done].
    exists rest. split; [done|]. apply run_length_all.
    apply (f_equal length) in Hd. rewrite length_drop in Hd. simpl in Hd.
    lia.
  - intros (ws & -> & Hws). cbn.
    replace (chr_eqb ","%char ","%char) with true by done.
    rewrite (run_all _ _ Hws).
    erewrite backtrack_first; [by eexists|lia|].
    by rewrite drop_all.
Qed.

(** [line.search(/,\s*$/g)] finds something iff the line ends in a comma
    and, possibly, whitespace after it. *)
Lemma search_trailingComma line :
  search trailingCommaRegex line <> (-1)%Z
  <-> exists pre ws,
        line = pre ++ ","%char :: ws /\ Forall (fun c => is_s c = true) ws.
Proof.
  unfold search. destruct (exec trailingCommaRegex line 0) as [m|] eqn:Hex.
  - split; [intros _|lia].
    destruct (exec_Some _ _ _ _ Hex) as (_ & Hm & _).
    destruct (proj1 (match_trailingComma _ _) (ex_intro _ _ Hm))
      as (ws & Hd & Hws).
    exists (take (index m) line), ws. split; [|done].
    by rewrite <- Hd, take_drop.
  - split; [done|]. intros (pre & ws & -> & Hws).
    pose proof (exec_None _ _ _ Hex (length pre)) as Hn.
    rewrite drop_app_length, length_app in Hn.
    destruct (proj2 (match_trailingComma (length pre) (","%char :: ws)))
      as [ls Hls]; [by exists ws|].
    rewrite Hn in Hls; [done|lia].
Qed.

(** X8. Outside fix mode, a row gets one no-trailing-commas violation,
    placed at the end of the line ([col] is the line length plus 1), when
    its line ends in a comma followed by nothing or by whitespace only, and
    none otherwise. *)
Theorem trailing_comma_iff {A} fm filePath (st : State A) i line :
  fix_ (args st) = false ->
  i ∈ bodyRows fm ->
  fm !! i = Some line ->
  let endsInComma :=
    exists pre ws,
      line = pre ++ ","%char :: ws /\ Forall (fun c => is_s c = true) ws in
  let found :=
    filter (fun v => row v = i)
      (noTrailingCommas (Basic.errors (lintLineByLine fm filePath st).1)) in
  let col := (Z.of_nat (length line) + 1)%Z in
  (endsInComma -> found = [mkViolation i col None None (getSnippet fm col i)])
  /\ (~ endsInComma -> found = []).
Proof.
  intros Hfix Hi Hline ends found c. subst found.
  rewrite lintLineByLine_result. simpl. rewrite Hfix, scan_trailingCommas.
  rewrite filter_row_concat; [| |apply NoDup_seq|done].
  - unfold errorRule, lineAt. rewrite Hline. simpl. split.
    + intros Hends. pose proof Hends as (pre & ws & Hl & Hws).
      rewrite (not_blank_nonspace line ","%char);
        [|rewrite Hl; apply elem_of_app; right; by left|done].
      unfold trailingCommas.
      by rewrite bool_decide_true by (by apply search_trailingComma).
    + intros Hno. destruct (blank line); [done|].
      unfold trailingCommas.
      by rewrite bool_decide_false by (by rewrite search_trailingComma).
  - intros j v. apply errorRule_row. intros l w Hw.
    pose proof (rules_wellPlaced fm j l) as (_&_&_&_&_&_&_&_& H & _).
    rewrite Forall_forall in H. by destruct (H w Hw).
Qed.

Lemma trailing_comma_iff_witness :
  let line := js "tags: a, " in
  let fm := [[]; js "---"; line; js "---"] in
  fix_ (args PlainYaml.linting) = false /\ 2 ∈ bodyRows fm
  /\ fm !! 2 = Some line
  /\ col <$> filter (fun v => row v = 2)
               (noTrailingCommas
                  (Basic.errors (lintBlock fm PlainYaml.linting)))
     = [10%Z].
Proof.
  intros line fm.
  assert (H1 : fix_ (args PlainYaml.linting) = false) by reflexivity.
  assert (H2 : 2 ∈ bodyRows fm) by (apply bodyRows_elem; simpl; lia).
  assert (H3 : fm !! 2 = Some line) by reflexivity.
  refine (conj H1 (conj H2 (conj H3 _))). unfold lintBlock.
  rewrite (proj1 (trailing_comma_iff fm PlainYaml.post PlainYaml.linting 2
                    line H1 H2 H3)).
  - reflexivity.
  - exists (js "tags: a"), (js " "). split; [reflexivity|].
    by repeat constructor.
Defined.

(** ** The span rules: repeating whitespace, spaces after a colon *)

Lemma run_app_stop q ws b post :
  Forall (fun c => q c = true) ws -> q b = false ->
  run q (ws ++ b :: post) = length ws.
Proof.
  intros Hws Hb. induction Hws as [|c ws Hc _ IH]; simpl.
  - by rewrite Hb.
  - by rewrite Hc, IH.
Qed.

Section Span.
Variables p1 q p2 : ascii -> bool.
Hypothesis p1_not_q : forall c, p1 c = true -> q c = false.
Hypothesis q_not_p2 : forall c, q c = true -> p2 c = false.

Lemma p2_not_q c : p2 c = true -> q c = false.
Proof.
  intros Hc. destruct (q c) eqn:Hq; [|done].
  apply q_not_p2 in Hq. congruence.
Qed.

Lemma match_span pos s ls :
  match_here (spanRegex p1 q p2) pos s = Some ls
  <-> exists a ws b post,
        s = a :: ws ++ b :: post /\ p1 a = true
        /\ Forall (fun c => q c = true) ws /\ 2 <= length ws /\ p2 b = true
        /\ ls = [1; length ws; 1].
Proof.
  unfold spanRegex. split.
  - destruct s as [|a rest]; [done|]. cbn.
    destruct (p1 a) eqn:Ha; [|done].
    destruct (backtrack _ 2 (run q rest)) as [ls'|] eqn:Hb; [|done].
    cbn. intros [= <-].
    apply backtrack_Some in Hb as (j & ls'' & -> & Hj & Hrest).
    destruct (drop j rest) as [|b post] eqn:Hd; [done|].
    destruct (p2 b) eqn:Hb; [|done]. cbn in Hrest. injection Hrest as <-.
    exists a, (take j rest), b, post.
    assert (Hlen : length (take j rest) = j).
    { rewrite length_take. pose proof (run_le_length q rest). lia. }
    rewrite Hlen. repeat split; try done; try lia.
    + by rewrite <- Hd, take_drop.
    + apply run_take. lia.
  - intros (a & ws & b & post & -> & Ha & Hws & Hk & Hb & ->). cbn.
    rewrite Ha. rewrite (run_app_stop _ _ _ _ Hws (p2_not_q _ Hb)).
    erewrite backtrack_first; [done|lia|].
    rewrite drop_app_length. cbn. by rewrite Hb.
Qed.

Lemma exec_from_inner pos ws b :
  ws <> [] -> Forall (fun c => q c = true) ws -> p2 b = true ->
  exec_from (spanInner q p2) pos (ws ++ [b])
  = Some (mkMatch (pos + length ws - 1) [1; 1]).
Proof.
  unfold spanInner. intros Hne Hws Hb. revert pos.
  induction Hws as [|x ws Hx Hws IH]; intros pos; [done|].
  destruct ws as [|y ws].
  - cbn. rewrite Hx, Hb. cbn. do 2 f_equal. lia.
  - change ((x :: y :: ws) ++ [b]) with (x :: (y :: ws) ++ [b]).
    rewrite exec_from_cons.
    assert (Hy : p2 y = false).
    { apply q_not_p2. by apply Forall_cons in Hws as [? _]. }
    cbn [match_here app]. rewrite Hx. cbn [match_here]. rewrite Hy.
    cbn [fmap option_fmap option_map].
    rewrite IH by done. simpl. do 2 f_equal. lia.
Qed.

Lemma search_inner a ws b :
  p1 a = true -> 2 <= length ws -> Forall (fun c => q c = true) ws ->
  p2 b = true ->
  search (spanInner q p2) (a :: ws ++ [b]) = Z.of_nat (length ws).
Proof.
  intros Ha Hk Hws Hb. unfold search, exec. simpl length. cbn [Nat.leb].
  rewrite drop_0, exec_from_cons.
  assert (Hm : match_here (spanInner q p2) 0 (a :: ws ++ [b]) = None).
  { unfold spanInner. cbn. by rewrite (p1_not_q _ Ha). }
  rewrite Hm, exec_from_inner;
    [|intros ->; simpl in Hk; lia|done|done].
  simpl. lia.
Qed.

Variable fm : list jsstring.
Variable i : nat.
Variable line : jsstring.
Variable body : rmatch -> nat * Violation.
Hypothesis body_eq : forall m,
  body m
  = (index m + 1,
     let spaceCount := (Z.of_nat (group_len m 1) + 1)%Z in
     let col :=
       (Z.of_nat (index m) + search (spanInner q p2) (matched line m)
        + 2)%Z in
     mkViolation i col (Some (col - spaceCount)%Z) (Some (col - 1)%Z)
                 (getSnippet fm col i)).

(** The loop of a span rule pushes exactly the spans of the line. *)
Lemma span_rule_elem v :
  v ∈ exec_while (loop_fuel line) (spanRegex p1 q p2) line 0 body
  <-> exists p k, spanAt p1 q p2 line p k /\ v = spanViolation fm i p k.
Proof.
  rewrite exec_while_elem;
    [|intros m; by rewrite body_eq|unfold loop_fuel; lia].
  assert (Hbody : forall pre a ws b post,
             line = pre ++ a :: ws ++ b :: post -> p1 a = true ->
             Forall (fun c => q c = true) ws -> 2 <= length ws ->
             p2 b = true ->
             (body (mkMatch (length pre) [1; length ws; 1])).2
             = spanViolation fm i (length pre) (length ws)).
  { intros pre a ws b post Hline Ha Hws Hk Hb. rewrite body_eq.
    cbn [snd].
    assert (Hm : matched line (mkMatch (length pre) [1; length ws; 1])
                 = a :: ws ++ [b]).
    { unfold matched, match_len. cbn [index lens foldr].
      rewrite Hline, drop_app_length.
      replace (1 + (length ws + (1 + 0))) with (S (length ws + 1)) by lia.
      cbn [take]. f_equal.
      by rewrite take_app_add'. }
    rewrite Hm, (search_inner a ws b Ha Hk Hws Hb).
    unfold spanViolation, group_len. cbn [index lens nth].
    f_equal; try f_equal; lia. }
  split.
  - intros (p & ls & Hp & Hm & ->).
    apply match_span in Hm
    as (a & ws & b & post & Hd & Ha & Hws & Hk & Hb & ->).
    assert (Hline : line = take p line ++ a :: ws ++ b :: post)
      by (by rewrite <- Hd, take_drop).
    assert (Hlen : length (take p line) = p) by (rewrite length_take; lia).
    exists p, (length ws). split.
    + exists (take p line), a, ws, b, post. by repeat split.
    + rewrite <- Hlen at 1. rewrite (Hbody _ _ _ _ _ Hline Ha Hws Hk Hb).
      by rewrite Hlen.
  - intros (p & k & (pre & a & ws & b & post & Hline & <- & <- & Ha & Hws
                     & Hk & Hb) & ->).
    exists (length pre), [1; length ws; 1]. split; [|split].
    + rewrite Hline, length_app. simpl. lia.
    + apply match_span. exists a, ws, b, post.
      repeat split; try done. by rewrite Hline, drop_app_length.
    + by rewrite (Hbody _ _ _ _ _ Hline Ha Hws Hk Hb).
Qed.

Lemma span_body_at pre a ws b post :
  line = pre ++ a :: ws ++ b :: post -> p1 a = true ->
  Forall (fun c => q c = true) ws -> 2 <= length ws -> p2 b = true ->
  body (mkMatch (length pre) [1; length ws; 1])
  = (length pre + 1, spanViolation fm i (length pre) (length ws)).
Proof.
  intros Hline Ha Hws Hk Hb. rewrite body_eq. cbn [index]. f_equal.
  assert (Hm : matched line (mkMatch (length pre) [1; length ws; 1])
               = a :: ws ++ [b]).
  { unfold matched, match_len. cbn [index lens foldr].
    rewrite Hline, drop_app_length.
    replace (1 + (length ws + (1 + 0))) with (S (length ws + 1)) by lia.
    cbn [take]. f_equal.
    by rewrite take_app_add'. }
  rewrite Hm, (search_inner a ws b Ha Hk Hws Hb).
  unfold spanViolation, group_len. cbn [index lens nth].
  f_equal; try f_equal; lia.
Qed.

(** Two spans of a line do not overlap in their runs. *)
Lemma spanAt_apart p k p' k' :
  spanAt p1 q p2 line p k -> spanAt p1 q p2 line p' k' -> p < p' ->
  p + k < p'.
Proof.
  intros (pre & a & ws & b & post & Hline & <- & <- & Ha & Hws & Hk & Hb)
         (pre' & a' & ws' & b' & post' & Hline' & <- & _ & Ha' & _) Hlt.
  destruct (decide (length pre + length ws < length pre')) as [|Hin];
    [done|]. exfalso.
  assert (Hat : line !! length pre' = Some a').
  { rewrite Hline', lookup_app_r by lia. by rewrite Nat.sub_diag. }
  rewrite Hline, lookup_app_r in Hat by lia.
  destruct (length pre' - length pre) as [|j] eqn:Hj; [lia|].
  simpl in Hat. rewrite lookup_app_l in Hat by lia.
  apply list_elem_of_lookup_2 in Hat.
  rewrite Forall_forall in Hws. apply Hws in Hat.
  rewrite (p1_not_q _ Ha') in Hat. done.
Qed.

(** The loop of a span rule pushes the spans from left to right, each
    once. *)
Lemma span_rule_sorted : forall fuel lastIndex,
  let found := exec_while fuel (spanRegex p1 q p2) line lastIndex body in
  leftToRight found
  /\ Forall (fun v => exists p k, lastIndex <= p /\ spanAt p1 q p2 line p k
                                  /\ v = spanViolation fm i p k) found.
Proof.
  unfold leftToRight.
  induction fuel as [|fuel IH]; intros lastIndex; cbn [exec_while].
  - split; constructor.
  - destruct (exec (spanRegex p1 q p2) line lastIndex) as [m|] eqn:Hex;
      [|split; constructor].
    destruct (exec_Some _ _ _ _ Hex) as (Hi & Hm & _).
    apply match_span in Hm
      as (a & ws & b & post & Hd & Ha & Hws & Hk & Hb & Hlens).
    assert (Hline : line = take (index m) line ++ a :: ws ++ b :: post)
      by (by rewrite <- Hd, take_drop).
    assert (Hlen : length (take (index m) line) = index m)
      by (rewrite length_take; lia).
    pose proof (span_body_at _ _ _ _ _ Hline Ha Hws Hk Hb) as Hbody.
    rewrite Hlen, <- Hlens in Hbody.
    replace (mkMatch (index m) (lens m)) with m in Hbody by (by destruct m).
    rewrite Hbody. cbn [fst snd].
    assert (Hat : spanAt p1 q p2 line (index m) (length ws)).
    { exists (take (index m) line), a, ws, b, post. by repeat split. }
    destruct (IH (index m + 1)) as [Hsorted Hall]. split.
    + constructor; [done|]. eapply Forall_impl; [exact Hall|].
      intros w (p' & k' & Hp' & Hat' & ->).
      pose proof (spanAt_apart _ _ _ _ Hat Hat') as Hapart.
      unfold spanViolation. simpl. lia.
    + constructor.
      * exists (index m), (length ws). split; [lia|by split].
      * eapply Forall_impl; [exact Hall|].
        intros w (p' & k' & Hp' & Hat' & ->). exists p', k'.
        split; [lia|by split].
Qed.
End Span.

Lemma word_not_space c : is_w c = true -> is_s c = false.
Proof. ascii_cases c. Qed.

Lemma space_not_word c : is_s c = true -> is_w c = false.
Proof. ascii_cases c. Qed.

Lemma colon_not_blank_tab c :
  chr_eqb ":"%char c = true -> is_blank_tab c = false.
Proof. ascii_cases c. Qed.

Lemma blank_tab_not_nonspace c : is_blank_tab c = true -> is_S c = false.
Proof. ascii_cases c. Qed.

Lemma colon_not_space c : chr_eqb ":"%char c = true -> is_s c = false.
Proof. ascii_cases c. Qed.

Lemma repeatingSpaces_elem fm i line v :
  v ∈ repeatingSpaces fm i line
  <-> exists p k, spanAt is_w is_s is_w line p k /\ v = spanViolation fm i p k.
Proof.
  apply span_rule_elem;
    [apply word_not_space|apply space_not_word|done].
Qed.

Lemma oneSpaceAfterColon_elem fm i line v :
  v ∈ oneSpaceAfterColon fm i line
  <-> exists p k, spanAt (chr_eqb ":"%char) is_blank_tab is_S line p k
                  /\ v = spanViolation fm i p k.
Proof.
  apply span_rule_elem;
    [apply colon_not_blank_tab|apply blank_tab_not_nonspace|done].
Qed.

Lemma spanAt_not_blank p1 q p2 line p k :
  (forall c, p1 c = true -> is_s c = false) ->
  spanAt p1 q p2 line p k -> blank line = false.
Proof.
  intros Hp1 (pre & a & ws & b & post & -> & _ & _ & Ha & _).
  apply (not_blank_nonspace _ a); [|by apply Hp1].
  apply elem_of_app. right. by left.
Qed.

Lemma repeatingSpaces_sorted fm i line :
  leftToRight (repeatingSpaces fm i line).
Proof.
  apply (span_rule_sorted is_w is_s is_w word_not_space space_not_word
           fm i line (repeatingSpaces_body fm i line) (fun m => eq_refl)).
Qed.

Lemma oneSpaceAfterColon_sorted fm i line :
  leftToRight (oneSpaceAfterColon fm i line).
Proof.
  apply (span_rule_sorted (chr_eqb ":"%char) is_blank_tab is_S
           colon_not_blank_tab blank_tab_not_nonspace
           fm i line (spacesAfterColon_body fm i line) (fun m => eq_refl)).
Qed.

(** X9. The whitespace warnings of a body row are, first, one for every
    run of two or more whitespace characters between two word characters,
    from left to right, and then, outside fix mode, one for every run of two
    or more spaces or tabs between a colon and a non-whitespace character,
    from left to right; there are no others. For a run of [k] characters
    that starts after index [p], [col] is [p + k + 2] and the span from
    [colStart] to [colEnd] is the run: [p + 1] to [p + k + 1]. *)
Theorem whitespace_warnings_are_the_runs {A} fm filePath (st : State A)
    i line :
  i ∈ bodyRows fm ->
  fm !! i = Some line ->
  exists words colons,
    filter (fun v => row v = i)
           (unintendedWhitespace
              (Basic.warnings (lintLineByLine fm filePath st).1))
    = words ++ colons
    /\ leftToRight words /\ leftToRight colons
    /\ (forall v,
          v ∈ words
          <-> exists p k, spanAt is_w is_s is_w line p k
                          /\ v = spanViolation fm i p k)
    /\ (forall v,
          v ∈ colons
          <-> fix_ (args st) = false
              /\ exists p k,
                   spanAt (chr_eqb ":"%char) is_blank_tab is_S line p k
                   /\ v = spanViolation fm i p k).
Proof.
  intros Hi Hline. rewrite lintLineByLine_result. simpl.
  rewrite scan_whitespace.
  assert (Hat : lineAt fm i = line) by (unfold lineAt; by rewrite Hline).
  assert (Hrow : forall j w,
             w ∈ warningRule repeatingSpaces (fix_ (args st)) fm j
                 ++ errorRule oneSpaceAfterColon (fix_ (args st)) fm j ->
             row w = j).
  { intros j w [Hw|Hw]%elem_of_app.
    - unfold warningRule in Hw.
      destruct (negb _ && _); [by apply elem_of_nil in Hw|].
      by apply repeatingSpaces_elem in Hw as (p & k & _ & ->).
    - unfold errorRule in Hw.
      destruct (fix_ (args st)); [by apply elem_of_nil in Hw|].
      destruct (blank _); [by apply elem_of_nil in Hw|].
      by apply oneSpaceAfterColon_elem in Hw as (p & k & _ & ->). }
  rewrite (filter_row_concat
             (fun j => warningRule repeatingSpaces (fix_ (args st)) fm j
                       ++ errorRule oneSpaceAfterColon (fix_ (args st)) fm j)
             (bodyRows fm) i Hrow (NoDup_seq _ _) Hi).
  exists (warningRule repeatingSpaces (fix_ (args st)) fm i),
         (errorRule oneSpaceAfterColon (fix_ (args st)) fm i).
  split; [done|]. unfold warningRule, errorRule. rewrite Hat.
  split; [|split; [|split]].
  - destruct (negb _ && _); [constructor|apply repeatingSpaces_sorted].
  - destruct (fix_ (args st)); [constructor|].
    destruct (blank line); [constructor|apply oneSpaceAfterColon_sorted].
  - intros v. rewrite <- repeatingSpaces_elem.
    destruct (negb _ && _) eqn:Hb; [|done].
    apply andb_true_iff in Hb as [_ Hb].
    split; [by intros ?%elem_of_nil|].
    intros (p & k & Hs & _)%repeatingSpaces_elem.
    by rewrite (spanAt_not_blank _ _ _ _ _ _ word_not_space Hs) in Hb.
  - intros v. rewrite <- oneSpaceAfterColon_elem.
    destruct (fix_ (args st)); [split; [by intros ?%elem_of_nil|by intros []]|].
    destruct (blank line) eqn:Hb; [|split; [by split|by intros []]].
    split; [by intros ?%elem_of_nil|].
    intros [_ (p & k & Hs & _)%oneSpaceAfterColon_elem].
    by rewrite (spanAt_not_blank _ _ _ _ _ _ colon_not_space Hs) in Hb.
Qed.

Lemma whitespace_warnings_are_the_runs_witness :
  let line := js "title:   a   b" in
  let fm := [[]; js "---"; line; js "---"] in
  let found :=
    filter (fun v => row v = 2)
           (unintendedWhitespace
              (Basic.warnings (lintBlock fm PlainYaml.linting))) in
  2 ∈ bodyRows fm /\ fm !! 2 = Some line
  /\ found = [spanViolation fm 2 9 3; spanViolation fm 2 5 3]
  /\ exists words colons,
       found = words ++ colons /\ leftToRight words /\ leftToRight colons.
Proof.
  intros line fm found.
  assert (H1 : 2 ∈ bodyRows fm) by (vm_compute; set_solver).
  assert (H2 : fm !! 2 = Some line) by reflexivity.
  refine (conj H1 (conj H2 (conj _ _))); [by vm_compute|].
  destruct (whitespace_warnings_are_the_runs fm PlainYaml.post
              PlainYaml.linting 2 line H1 H2)
    as (words & colons & Hfound & Hwords & Hcolons & _).
  by exists words, colons.
Defined.

(** ** The snippet *)

Lemma showNat_nonempty n : 1 <= length (showNat n).
Proof.
  unfold showNat. destruct (Nat.to_uint n); simpl; lia.
Qed.

(** X10. For a row from 1 on, in the snippet for column [j + 2], the line
    of the row, printed after its number and a bar, is followed by a marker
    line of dashes whose caret stands exactly under character [j] of the
    row's line: the marker has as many dashes as the number, the bar and
    [j] characters take. *)
Theorem getSnippet_caret_under_character lines (j row : nat) :
  1 <= row ->
  let prefix := showNat row ++ js " | " in
  exists before after,
    getSnippet lines (Z.of_nat j + 2) row
    = before ++ (prefix ++ elt lines row) ++ [LF]
      ++ (replicate (length prefix + j) "-"%char ++ js "^") ++ [LF] ++ after.
Proof.
  intros Hrow prefix. unfold getSnippet.
  rewrite (proj2 (Nat.eqb_neq row 0)) by lia.
  exists (showNat (row - 1) ++ js " | " ++ elt lines (row - 1) ++ [LF]),
         (showNat (row + 1) ++ js " | " ++ elt lines (row + 1) ++ [LF]).
  subst prefix. rewrite <- !app_assoc. do 7 f_equal.
  rewrite !app_assoc. f_equal. rewrite <- !app_assoc.
  unfold padStart_caret. pose proof (showNat_nonempty row) as Hd.
  rewrite length_app.
  change (length (js " | ")) with 3.
  replace (Z.to_nat (Z.of_nat j + 2 + 3
                      + Z.of_nat (length (showNat row) - 1) - 5))
    with (length (showNat row) + 3 + j - 4) by lia.
  change (js "----^") with (replicate 4 "-"%char ++ js "^").
  f_equal. rewrite <- !app_assoc.
  rewrite (app_assoc (replicate _ _) (replicate 4 _)), <- replicate_add.
  do 2 f_equal. lia.
Qed.

Lemma getSnippet_caret_under_character_witness :
  let lines := [[]; js "---"; js "title: 'x'"; js "---"] in
  1 <= 2
  /\ getSnippet lines 9 2
     = text_of ["1 | ---"; "2 | title: 'x'"; "-----------^"; "3 | ---"; ""]
  /\ exists before after,
       getSnippet lines 9 2
       = before ++ (js "2 | " ++ js "title: 'x'") ++ [LF]
         ++ (replicate 11 "-"%char ++ js "^") ++ [LF] ++ after.
Proof.
  intros lines.
  assert (H1 : 1 <= 2) by lia.
  refine (conj H1 (conj _ _)); [by vm_compute|].
  exact (getSnippet_caret_under_character lines 7 2 H1).
Defined.

(** ** [lintFile]: what it finds, what it touches *)

Lemma indexOf_from_None x pos l : indexOf_from x pos l = None <-> x ∉ l.
Proof.
  revert pos. induction l as [|y l IH]; intros pos; simpl.
  - split; [intros _; apply not_elem_of_nil|done].
  - unfold jsstring_eqb. case_bool_decide as Hy.
    + split; [done|]. intros H. destruct H. subst. by left.
    + rewrite IH, not_elem_of_cons. split; [by intros ?|by intros [_ ?]].
Qed.

Lemma located_iff data :
  (if startsWith (lineAt (fileLines data) 1) (js "---")
   then indexOf (fileLines data) (js "---") 2 else None) = None
  <-> ~ hasFrontMatter data.
Proof.
  unfold hasFrontMatter, fileLines, indexOf.
  change (lineAt ([] :: split_on LF (remove_cr data)) 1)
    with (lineAt (split_on LF (remove_cr data)) 0).
  change (drop 2 ([] :: split_on LF (remove_cr data)))
    with (drop 1 (split_on LF (remove_cr data))).
  destruct (startsWith _ _).
  - rewrite indexOf_from_None. tauto.
  - split; [by intros _ [? _]|done].
Qed.

Section Settling.
Context {A : Type}.
Variable load : jsstring -> YAMLException + A.
Variable dump : A -> YAMLException + jsstring.
Implicit Types st : State A.

Lemma lintFileInput_frame filePath text a c st data st0 :
  lintFileInput filePath text a c st = Some (data, st0) ->
  errorNumber st0 = errorNumber st /\ warningNumber st0 = warningNumber st
  /\ fixableErrors st0 = fixableErrors st /\ exitCode st0 = exitCode st
  /\ files st0 = files st /\ console st0 = console st.
Proof.
  unfold lintFileInput. destruct text.
  - destruct (files st !! filePath); intros; simplify_eq/=; done.
  - intros; simplify_eq/=; done.
Qed.

(** X11. A file without front matter -- its first line does not start
    with the delimiter, or no later line is the delimiter -- makes
    [lintFile] resolve with [noFrontMatter] and no warnings.  With
    [config.mandatory] this is one more error and exit code 1, otherwise
    one more warning and the exit code as it was; the file is not written,
    fix mode or not, and the console gets the one report unless [quiet]. *)
Theorem lintFile_front_matter_not_found filePath text a c st data st0 :
  lintFileInput filePath text a c st = Some (data, st0) ->
  ~ hasFrontMatter data ->
  exists outcome st',
    lintFile load dump filePath text a c st = (Resolved outcome, st')
    /\ Outcome.errors outcome = NoFrontMatter
    /\ Outcome.warnings outcome = ∅
    /\ Outcome.fileErrors outcome = errorNumber st'
    /\ Outcome.fileWarnings outcome = warningNumber st'
    /\ files st' = files st
    /\ fixableErrors st' = fixableErrors st
    /\ (if mandatory (config st0)
        then errorNumber st' = errorNumber st + 1
             /\ warningNumber st' = warningNumber st
             /\ exitCode st' = Some 1
        else errorNumber st' = errorNumber st
             /\ warningNumber st' = warningNumber st + 1
             /\ exitCode st' = exitCode st)
    /\ console st' = console st ++ notFoundReport filePath st0.
Proof.
  intros Hin Hno%located_iff. unfold lintFile. rewrite Hin, Hno.
  destruct (lintFileInput_frame _ _ _ _ _ _ _ Hin)
    as (He & Hw & Hf & Hx & Hfs & Hc).
  eexists _, _. split; [reflexivity|]. unfold notFoundReport.
  destruct (quiet (args st0)), (mandatory (config st0)) eqn:Hm; simpl;
    rewrite ?Hm; simpl; rewrite ?He, ?Hw, ?Hf, ?Hx, ?Hfs, ?Hc, ?app_nil_r;
    repeat split; try done; lia.
Qed.

Lemma lintFile_resolves filePath text a c st data st0 :
  lintFileInput filePath text a c st = Some (data, st0) ->
  exists o, (lintFile load dump filePath text a c st).1 = Resolved o.
Proof.
  intros Hin. unfold lintFile. rewrite Hin.
  destruct (if startsWith _ _ then _ else None);
    [destruct (lintFrontMatter _ _ _ _ _ _) as [[e s1]|[o s1]];
     [destruct (lintFileCatch _ _ _ _ _)|]|]; by eexists.
Qed.

(** X12. [lintFile] rejects exactly when it is given no text and the file
    cannot be read, and then it has changed nothing. *)
Theorem lintFile_rejects_iff filePath text a c st :
  ((lintFile load dump filePath text a c st).1 = Rejected
   <-> text = [] /\ files st !! filePath = None)
  /\ ((lintFile load dump filePath text a c st).1 = Rejected ->
      (lintFile load dump filePath text a c st).2 = st).
Proof.
  destruct (lintFileInput filePath text a c st) as [[data st0]|] eqn:Hin.
  - destruct (lintFile_resolves _ _ _ _ _ _ _ Hin) as [o Ho].
    rewrite Ho. split; [|done]. split; [done|]. intros [-> Hnone].
    unfold lintFileInput in Hin. by rewrite Hnone in Hin.
  - unfold lintFile. rewrite Hin. simpl. split; [|done]. split; [|done].
    intros _. unfold lintFileInput in Hin. destruct text; [|done].
    by destruct (files st !! filePath).
Qed.

Lemma grows_refl st : grows st st.
Proof. by repeat split. Qed.

Lemma grows_trans st1 st2 st3 : grows st1 st2 -> grows st2 st3 -> grows st1 st3.
Proof.
  intros (? & ? & ? & ?) (? & ? & ? & ?).
  repeat split; try lia. by etrans.
Qed.

Lemma scanFixable_ge fix_ fm req fx :
  fx <= scanFixable (scanLines fix_ fm req fx).
Proof.
  unfold scanLines.
  apply (foldl_invariant _ (fun sc => fx <= scanFixable sc)); [|done].
  intros acc i Hacc. unfold lintLine.
  destruct (negb _ && _); simpl; lia.
Qed.

Lemma lintLineByLine_grows fm filePath st :
  grows st (lintLineByLine fm filePath st).2.
Proof.
  unfold grows, lintLineByLine. simpl. repeat split; try done.
  - apply scanFixable_ge.
  - by apply prefix_app_r.
Qed.

Lemma extraLinters_grows attributes fmLines filePath st :
  grows st match extraLinters attributes fmLines filePath st with
           | inl thrown => thrown.2
           | inr returned => returned.2
           end.
Proof.
  unfold grows, extraLinters.
  destruct (extraLintFns (config st)); [|by repeat split].
  destruct (runLinters _ _ _ _ _ _) as [[thrown collected]|final]; simpl;
    repeat split; try done; by apply prefix_app_r.
Qed.

(** The state the inner [try] block leaves, whether it resolves or
    throws. *)
Lemma lintFrontMatter_frame filePath lines idx st :
  let st' := match lintFrontMatter load dump filePath lines idx st with
             | inl thrown => thrown.2
             | inr resolved => resolved.2
             end in
  args st' = args st /\ config st' = config st
  /\ exitCode st' = exitCode st /\ grows st st'
  /\ writesOnly filePath (fix_ (args st)) st st'.
Proof.
  assert (Hrefl : args st = args st /\ config st = config st
                  /\ exitCode st = exitCode st /\ grows st st
                  /\ writesOnly filePath (fix_ (args st)) st st).
  { split; [done|]. split; [done|]. split; [done|].
    split; [apply grows_refl|by split]. }
  unfold lintFrontMatter. destruct (load _) as [e|attributes]; [done|].
  set (fixed := if fix_ (args st) then _ else _).
  assert (Hfixed : let s := match fixed with
                            | inl thrown => thrown.2
                            | inr written => written.2
                            end in
                   args s = args st /\ config s = config st
                   /\ exitCode s = exitCode st /\ grows st s
                   /\ writesOnly filePath (fix_ (args st)) st s).
  { subst fixed. destruct (fix_ (args st)) eqn:Hfix; [|done].
    destruct (dump attributes); [done|]. unfold writeFileSync.
    case_bool_decide; [done|]. simpl.
    split; [done|]. split; [done|]. split; [done|].
    split; [by repeat split|]. split; [|done].
    intros p Hp. simpl. by rewrite lookup_insert_ne. }
  destruct fixed as [[thrown s]|[l s]]; [done|]. simpl in Hfixed.
  destruct Hfixed as (Ha & Hc & Hx & Hg & Hw1 & Hw2).
  pose proof (lintLineByLine_frame l filePath s)
    as (Ha1 & Hc1 & _ & _ & Hx1 & Hf1).
  pose proof (lintLineByLine_grows l filePath s) as Hg1.
  destruct (lintLineByLine l filePath s) as [basic s1].
  pose proof (extraLinters_frame attributes l filePath s1)
    as (Ha2 & Hc2 & _ & _ & _ & Hx2 & Hf2).
  pose proof (extraLinters_grows attributes l filePath s1) as Hg2.
  destruct (extraLinters attributes l filePath s1)
    as [[thrown s2]|[extra s2]]; simpl in *;
    destruct (grows_trans _ _ _ Hg (grows_trans _ _ _ Hg1 Hg2))
      as (? & ? & ? & ?);
    unfold writesOnly, grows; simpl;
    rewrite Ha2, Ha1, Hc2, Hc1, Hx2, Hx1, Hf2, Hf1;
    repeat split; try done; lia.
Qed.

Lemma lintFileCatch_frame filePath text fmLines error st :
  let st' := (lintFileCatch filePath text fmLines error st).2 in
  args st' = args st /\ config st' = config st
  /\ exitCode st' = exitCode st /\ grows st st' /\ files st' = files st.
Proof.
  unfold lintFileCatch, grows.
  destruct text; destruct (quiet (args st)) eqn:Hq; simpl; rewrite ?Hq;
    simpl; repeat split; try done; try lia;
    rewrite <- ?app_assoc; by apply prefix_app_r.
Qed.

(** From the state in which [lintFile] starts to work on its data. *)
Lemma lintFile_from_input filePath text a c st data st0 :
  lintFileInput filePath text a c st = Some (data, st0) ->
  let st' := (lintFile load dump filePath text a c st).2 in
  writesOnly filePath (fix_ (args st0)) st0 st'
  /\ grows st0 st'
  /\ args st' = args st0 /\ config st' = config st0
  /\ (hasFrontMatter data -> exitCode st' = exitCode st0)
  /\ (exitCode st' = exitCode st0 \/ exitCode st' = Some 1).
Proof.
  intros Hin. unfold lintFile. rewrite Hin.
  destruct (if startsWith _ _ then _ else None) as [idx|] eqn:Hloc.
  - pose proof (lintFrontMatter_frame filePath (fileLines data) idx st0)
      as (Ha1 & Hc1 & Hx1 & Hg1 & Hw1).
    destruct (lintFrontMatter _ _ _ _ _ _) as [[e s1]|[o s1]] eqn:Hfm;
      simpl in Ha1, Hc1, Hx1, Hg1, Hw1.
    + pose proof (lintFileCatch_frame filePath text
                    (take (idx + 1) (fileLines data)) e s1)
        as (Ha2 & Hc2 & Hx2 & Hg2 & Hf2).
      destruct (lintFileCatch _ _ _ _ _) as [o s2]. simpl in *.
      unfold writesOnly in *. rewrite Hf2, Hx2, Hx1, Ha2, Hc2.
      split; [done|]. split; [by apply (grows_trans _ s1)|].
      split; [done|]. split; [done|]. split; [done|by left].
    + simpl. rewrite Hx1.
      split; [done|]. split; [done|]. split; [done|]. split; [done|].
      split; [done|by left].
  - apply located_iff in Hloc.
    destruct (quiet (args st0)), (mandatory (config st0)) eqn:Hm; simpl;
      rewrite ?Hm; simpl; unfold writesOnly, grows; simpl;
      repeat split; try done; try lia; try (by apply prefix_app_r);
      try (by left); by right.
Qed.

(** X13. Whatever the file holds, [lintFile] leaves every other file as it
    was and, outside fix mode, this file too; the counters of the module
    never decrease and the console is only added to; the arguments and the
    configuration in effect stay; and the exit code changes only when the
    front matter is not found. *)
Theorem lintFile_touches_only_its_file filePath text a c st data st0 :
  lintFileInput filePath text a c st = Some (data, st0) ->
  let st' := (lintFile load dump filePath text a c st).2 in
  writesOnly filePath (fix_ (args st0)) st st'
  /\ grows st st'
  /\ args st' = args st0 /\ config st' = config st0
  /\ (hasFrontMatter data -> exitCode st' = exitCode st).
Proof.
  intros Hin st'.
  destruct (lintFileInput_frame _ _ _ _ _ _ _ Hin)
    as (He & Hw & Hf & Hx & Hfs & Hc).
  destruct (lintFile_from_input _ _ _ _ _ _ _ Hin)
    as ((Hw1 & Hw2) & Hg & Ha' & Hc' & Hx' & _).
  fold st' in Hw1, Hw2, Hg, Ha', Hc', Hx'.
  assert (Hg0 : grows st st0).
  { unfold grows. rewrite He, Hw, Hf, Hc. by repeat split. }
  split; [|split; [by apply (grows_trans _ st0)|]].
  - split.
    + intros p Hp. rewrite <- Hfs. by apply Hw1.
    + intros Hfix. rewrite <- Hfs. by apply Hw2.
  - rewrite <- Hx. by repeat split.
Qed.

(** X14. In fix mode a value [dump] refuses is handled like a block
    [load] refuses: [lintFile] resolves with the exception as the single
    [customError], counts one more error, and writes nothing; no rule has
    run. *)
Theorem lintFile_dump_failure
    filePath text a c st data st0 idx attributes error :
  lintFileInput filePath text a c st = Some (data, st0) ->
  startsWith (lineAt (fileLines data) 1) (js "---") = true ->
  indexOf (fileLines data) (js "---") 2 = Some idx ->
  load (loadInput (take (idx + 1) (fileLines data))) = inr attributes ->
  fix_ (args st0) = true ->
  dump attributes = inl error ->
  let row := (fun m : nat * nat => m.1 + 1) <$> mark error in
  let col := (fun m : nat * nat => m.2 + 1) <$> mark error in
  exists outcome st',
    lintFile load dump filePath text a c st = (Resolved outcome, st')
    /\ Outcome.errors outcome = CustomError (reason error) row col
    /\ Outcome.warnings outcome = ∅
    /\ Outcome.fileErrors outcome = errorNumber st'
    /\ errorNumber st' = errorNumber st + 1
    /\ warningNumber st' = warningNumber st
    /\ fixableErrors st' = fixableErrors st
    /\ files st' = files st.
Proof.
  intros Hin Hstart Hidx Hload Hfix Hdump row col. unfold lintFile.
  rewrite Hin, Hstart, Hidx. unfold lintFrontMatter.
  rewrite Hload, Hfix, Hdump.
  destruct (lintFileInput_frame _ _ _ _ _ _ _ Hin)
    as (He & Hw & Hf & Hx & Hfs & Hc).
  eexists _, _. split; [reflexivity|].
  unfold lintFileCatch.
  destruct text as [|ch text]; destruct (quiet (args st0)) eqn:Hq; simpl;
    rewrite ?Hq; simpl; rewrite ?He, ?Hw, ?Hf, ?Hfs;
    repeat split; try done; lia.
Qed.

(** X15. When fix mode rewrites a file -- the front matter is found,
    loaded and dumped and the file can be written -- what it writes has a
    front matter [lintFile] finds again: the text starts with a delimiter
    line and has a later delimiter line, whatever [dump] returned. *)
Theorem fix_mode_writes_front_matter
    filePath text a c st data st0 idx attributes dumped :
  lintFileInput filePath text a c st = Some (data, st0) ->
  fix_ (args st0) = true ->
  startsWith (lineAt (fileLines data) 1) (js "---") = true ->
  indexOf (fileLines data) (js "---") 2 = Some idx ->
  load (loadInput (take (idx + 1) (fileLines data))) = inr attributes ->
  dump attributes = inr dumped ->
  filePath ∉ readOnly st0 ->
  exists written,
    files (lintFile load dump filePath text a c st).2 !! filePath
    = Some written
    /\ hasFrontMatter written.
Proof.
  intros Hin Hfix Hstart Hidx Hload Hdump Hrw.
  destruct (lintFile_fix_files load dump filePath text a c st data st0 idx
              attributes dumped Hin Hfix Hstart Hidx Hload Hdump Hrw)
    as (Hfiles & _).
  rewrite Hfiles, lookup_insert_eq. eexists. split; [reflexivity|].
  destruct (fixedFrontMatter_shape dumped) as [Hshape Hlf].
  rewrite Hshape. simpl drop.
  set (body := blockBody (fixedFrontMatter dumped)) in *.
  set (content := join [LF] (drop (idx + 1) (fileLines data))).
  unfold hasFrontMatter.
  rewrite remove_cr_app, remove_cr_join.
  change (remove_cr ([LF] ++ content)) with (LF :: remove_cr content).
  rewrite split_on_app, split_on_join.
  - rewrite fmap_cons, fmap_app. simpl. split; [done|].
    apply elem_of_app. left. apply elem_of_app. right. by left.
  - done.
  - apply Forall_fmap, Forall_forall. intros l Hl. simpl.
    intros Hc. unfold remove_cr in Hc.
    apply list_elem_of_In, filter_In in Hc as [Hc%list_elem_of_In _].
    revert Hc. apply elem_of_cons in Hl as [->|Hl].
    + intros Hc. repeat (apply elem_of_cons in Hc as [Hc|Hc]; [done|]).
      by apply elem_of_nil in Hc.
    + apply elem_of_app in Hl as [Hl|Hl].
      * rewrite Forall_forall in Hlf. by apply Hlf.
      * apply list_elem_of_singleton in Hl as ->. intros Hc.
        repeat (apply elem_of_cons in Hc as [Hc|Hc]; [done|]).
        by apply elem_of_nil in Hc.
Qed.
End Settling.

Lemma lintFile_front_matter_not_found_witness :
  let a := PlainYaml.fixArgs in
  let data := text_of ["title: x"; "---"; "text"] in
  let st := PlainYaml.start a ∅ in
  let st0 := setArgsConfig a PlainYaml.noPlugins st in
  lintFileInput PlainYaml.post data a PlainYaml.noPlugins st = Some (data, st0)
  /\ ~ hasFrontMatter data
  /\ exists outcome st',
       lintFile PlainYaml.load PlainYaml.dump PlainYaml.post data a
                PlainYaml.noPlugins st = (Resolved outcome, st')
       /\ Outcome.errors outcome = NoFrontMatter
       /\ errorNumber st' = 1 /\ exitCode st' = Some 1 /\ files st' = ∅.
Proof.
  intros a data st st0.
  assert (H1 : lintFileInput PlainYaml.post data a PlainYaml.noPlugins st
               = Some (data, st0)) by reflexivity.
  assert (H2 : ~ hasFrontMatter data) by (intros [H _]; discriminate H).
  refine (conj H1 (conj H2 _)).
  destruct (lintFile_front_matter_not_found PlainYaml.load PlainYaml.dump
              PlainYaml.post data a PlainYaml.noPlugins st data st0 H1 H2)
    as (outcome & st' & Hrun & Hout & _ & _ & _ & Hfs & _ & Hm & _).
  exists outcome, st'. simpl in Hm. destruct Hm as (He & _ & Hx).
  by repeat split.
Defined.

Lemma lintFile_touches_only_its_file_witness :
  let a := PlainYaml.fixArgs in
  let data := text_of ["---"; "title:   x"; "---"; "text"] in
  let other := js "other.md" in
  let st := PlainYaml.start a {[other := js "kept"]} in
  let st0 := setArgsConfig a PlainYaml.noPlugins st in
  let st' := (lintFile PlainYaml.load PlainYaml.dump PlainYaml.post data a
                       PlainYaml.noPlugins st).2 in
  lintFileInput PlainYaml.post data a PlainYaml.noPlugins st = Some (data, st0)
  /\ files st' !! other = Some (js "kept")
  /\ exitCode st' = None.
Proof.
  intros a data other st st0 st'.
  assert (H1 : lintFileInput PlainYaml.post data a PlainYaml.noPlugins st
               = Some (data, st0)) by reflexivity.
  refine (conj H1 _).
  destruct (lintFile_touches_only_its_file PlainYaml.load PlainYaml.dump
              PlainYaml.post data a PlainYaml.noPlugins st data st0 H1)
    as ((Hother & _) & _ & _ & _ & Hexit).
  split.
  - fold st'. rewrite Hother; [|done]. apply lookup_singleton_eq.
  - apply Hexit. split; [done|]. vm_compute. set_solver.
Defined.

Lemma lintFile_dump_failure_witness :
  let a := PlainYaml.fixArgs in
  let data := text_of ["---"; "title: x"; "---"; "text"] in
  let st := PlainYaml.start a ∅ in
  let st0 := setArgsConfig a PlainYaml.noPlugins st in
  lintFileInput PlainYaml.post data a PlainYaml.noPlugins st = Some (data, st0)
  /\ startsWith (lineAt (fileLines data) 1) (js "---") = true
  /\ indexOf (fileLines data) (js "---") 2 = Some 3
  /\ PlainYaml.load (loadInput (take (3 + 1) (fileLines data)))
     = inr [(js "title", js "x")]
  /\ fix_ (args st0) = true
  /\ exists outcome st',
       lintFile PlainYaml.load refuse PlainYaml.post data a
                PlainYaml.noPlugins st = (Resolved outcome, st')
       /\ Outcome.errors outcome
          = CustomError (js "unacceptable kind of an object to dump")
                        None None
       /\ errorNumber st' = 1 /\ files st' = ∅.
Proof.
  intros a data st st0.
  assert (H1 : lintFileInput PlainYaml.post data a PlainYaml.noPlugins st
               = Some (data, st0)) by reflexivity.
  assert (H2 : startsWith (lineAt (fileLines data) 1) (js "---") = true)
    by reflexivity.
  assert (H3 : indexOf (fileLines data) (js "---") 2 = Some 3) by reflexivity.
  assert (H4 : PlainYaml.load (loadInput (take (3 + 1) (fileLines data)))
               = inr [(js "title", js "x")]) by reflexivity.
  assert (H5 : fix_ (args st0) = true) by reflexivity.
  refine (conj H1 (conj H2 (conj H3 (conj H4 (conj H5 _))))).
  destruct (lintFile_dump_failure PlainYaml.load refuse PlainYaml.post
              data a PlainYaml.noPlugins st data st0 3
              [(js "title", js "x")] _ H1 H2 H3 H4 H5 eq_refl)
    as (outcome & st' & Hrun & Hout & _ & _ & Herr & _ & _ & Hfs).
  exists outcome, st'. by repeat split.
Defined.

Lemma fix_mode_writes_front_matter_witness :
  let a := PlainYaml.fixArgs in
  let data := text_of ["---"; "title:   x"; "---"; "text"] in
  let st := PlainYaml.start a ∅ in
  let st0 := setArgsConfig a PlainYaml.noPlugins st in
  lintFileInput PlainYaml.post data a PlainYaml.noPlugins st = Some (data, st0)
  /\ (PlainYaml.post ∉ readOnly st0)
  /\ exists written,
       files (lintFile PlainYaml.load PlainYaml.dump PlainYaml.post data a
                       PlainYaml.noPlugins st).2 !! PlainYaml.post
       = Some written
       /\ hasFrontMatter written.
Proof.
  intros a data st st0.
  assert (H1 : lintFileInput PlainYaml.post data a PlainYaml.noPlugins st
               = Some (data, st0)) by reflexivity.
  assert (H2 : PlainYaml.post ∉ readOnly st0) by apply not_elem_of_empty.
  refine (conj H1 (conj H2 _)).
  exact (fix_mode_writes_front_matter PlainYaml.load PlainYaml.dump
           PlainYaml.post data a PlainYaml.noPlugins st data st0 3
           [(js "title", js "x")] (js "title: x" ++ [LF])
           H1 eq_refl eq_refl eq_refl eq_refl eq_refl H2).
Defined.

(** ** [extraLinters]: what the plugins' reports become *)

Section Plugins.
Context {A : Type}.
Implicit Types st : State A.

Lemma record_lookup (message : jsstring) (x : Affected)
    (o : gmap jsstring (list entry)) :
  message ∉ objectPrototype ->
  exists o',
    record message x o = Some o'
    /\ forall msg,
         o' !! msg
         = if decide (message = msg)
           then Some (default [] (o !! msg) ++ [EAffected x])
           else o !! msg.
Proof.
  intros Hown. unfold record. destruct (o !! message) as [es|] eqn:Ho.
  - eexists. split; [done|]. intros msg.
    destruct (decide (message = msg)) as [<-|Hne].
    + by rewrite lookup_insert_eq, Ho.
    + by rewrite lookup_insert_ne.
  - rewrite bool_decide_eq_false_2 by done.
    eexists. split; [done|]. intros msg.
    destruct (decide (message = msg)) as [<-|Hne].
    + by rewrite lookup_insert_eq, Ho.
    + by rewrite lookup_insert_ne.
Qed.

Lemma callback_step filePath acc r :
  dropped r = true \/ reportMessage r ∉ objectPrototype ->
  exists acc',
    showOnelineCallback filePath acc r = inr acc'
    /\ forall msg,
         extraErrors acc' !! msg
         = (if negb (dropped r) && Bool.eqb (isError r) true
               && jsstring_eqb (reportMessage r) msg
            then Some (default [] (extraErrors acc !! msg)
                       ++ [EAffected (recordedAs r)])
            else extraErrors acc !! msg)
         /\ extraWarnings acc' !! msg
            = (if negb (dropped r) && Bool.eqb (isError r) false
                  && jsstring_eqb (reportMessage r) msg
               then Some (default [] (extraWarnings acc !! msg)
                          ++ [EAffected (recordedAs r)])
               else extraWarnings acc !! msg).
Proof.
  intros Hok. unfold showOnelineCallback.
  fold (dropped r). fold (recordedAs r). fold (isError r).
  destruct (dropped r) eqn:Hd; [by exists acc|].
  destruct Hok as [|Hown]; [done|]. cbv zeta.
  destruct (isError r).
  - destruct (record_lookup (reportMessage r) (recordedAs r)
                (extraErrors acc) Hown) as (o' & -> & Ho').
    eexists. split; [done|]. intros msg. simpl. rewrite Ho'.
    unfold jsstring_eqb. case_bool_decide;
      by rewrite ?decide_True, ?decide_False by done.
  - destruct (record_lookup (reportMessage r) (recordedAs r)
                (extraWarnings acc) Hown) as (o' & -> & Ho').
    eexists. split; [done|]. intros msg. simpl. rewrite Ho'.
    unfold jsstring_eqb. case_bool_decide;
      by rewrite ?decide_True, ?decide_False by done.
Qed.

Lemma recordedUnder_cons err msg r rs :
  recordedUnder err msg (r :: rs)
  = (if negb (dropped r) && Bool.eqb (isError r) err
        && jsstring_eqb (reportMessage r) msg
     then [EAffected (recordedAs r)] else [])
    ++ recordedUnder err msg rs.
Proof. unfold recordedUnder. simpl. by destruct (_ && _). Qed.

Lemma callback_lookup filePath rs : forall acc,
  Forall (fun r => dropped r = true
                   \/ reportMessage r ∉ objectPrototype) rs ->
  exists acc',
    callAll filePath acc rs = inr acc'
    /\ forall msg,
         extraErrors acc' !! msg
         = match recordedUnder true msg rs with
           | [] => extraErrors acc !! msg
           | es => Some (default [] (extraErrors acc !! msg) ++ es)
           end
         /\ extraWarnings acc' !! msg
            = match recordedUnder false msg rs with
              | [] => extraWarnings acc !! msg
              | es => Some (default [] (extraWarnings acc !! msg) ++ es)
              end.
Proof.
  induction rs as [|r rs IH]; intros acc Hok; [by exists acc|].
  apply Forall_cons in Hok as [Hr Hrs]. cbn [callAll].
  destruct (callback_step filePath acc r Hr) as (acc1 & -> & Hstep).
  destruct (IH acc1 Hrs) as (acc' & -> & Hrest).
  exists acc'. split; [done|]. intros msg.
  destruct (Hrest msg) as [IHe IHw]. destruct (Hstep msg) as [He Hw].
  rewrite IHe, IHw, He, Hw, !recordedUnder_cons.
  clear. split.
  - destruct (_ && _); simpl; [|done].
    by destruct (recordedUnder true msg rs); simpl; rewrite <- ?app_assoc.
  - destruct (_ && _); simpl; [|done].
    by destruct (recordedUnder false msg rs); simpl; rewrite <- ?app_assoc.
Qed.

Lemma callAll_app filePath rs1 rs2 : forall acc,
  callAll filePath acc (rs1 ++ rs2)
  = match callAll filePath acc rs1 with
    | inl thrown => inl thrown
    | inr acc' => callAll filePath acc' rs2
    end.
Proof.
  induction rs1 as [|r rs1 IH]; intros acc; [done|]. cbn [app callAll].
  by destruct (showOnelineCallback filePath acc r).
Qed.

(** The turns of the [forEach] make the calls of all plugins in a row,
    and stop where the first of them throws. *)
Lemma runLinters_callAll (attributes : A) fmLines filePath fns :
  forall acc,
    runLinters A attributes fmLines filePath acc fns
    = match callAll filePath acc.1 (allReports attributes fmLines fns) with
      | inl thrown => inl thrown
      | inr collected =>
          inr (collected,
               (acc.2.1 + sum_list ((fun linter : Plugin A =>
                                       pluginErrors
                                         (linter attributes fmLines))
                                      <$> fns),
                acc.2.2 + sum_list ((fun linter : Plugin A =>
                                       pluginWarnings
                                         (linter attributes fmLines))
                                      <$> fns)))
      end.
Proof.
  induction fns as [|linter fns IH]; intros [c [e w]].
  - simpl. by rewrite !Nat.add_0_r.
  - cbn [runLinters]. unfold runLinter, allReports. cbn [fst snd].
    rewrite fmap_cons. cbn [concat]. rewrite callAll_app.
    destruct (callAll filePath c _) as [thrown|collected]; [done|].
    rewrite IH. unfold allReports. cbn [fst snd].
    destruct (callAll filePath collected _); [done|].
    rewrite !fmap_cons. cbn [sum_list]. by rewrite !Nat.add_assoc.
Qed.

(** X16. With plugins configured, and when no report that is kept has a
    message that names a property every object inherits, [extraLinters]
    returns, and it returns under each message the locations of the
    reports kept under it, in the order in which the plugins made them,
    and no property for a message nothing is kept under: a report is kept
    unless its descriptor has neither a row nor a snippet, it counts as an
    error only when its type is exactly [Error], and it is recorded with
    its descriptor when that has a row and with [{ row: 0, col: 3 }]
    otherwise.  The two counts are the sums of the numbers the plugins
    return, whatever they reported. *)
Theorem extraLinters_collects (attributes : A) fmLines filePath st fns :
  extraLintFns (config st) = Some fns ->
  let rs := allReports attributes fmLines fns in
  Forall (fun r => dropped r = true
                   \/ reportMessage r ∉ objectPrototype) rs ->
  exists x st',
    extraLinters attributes fmLines filePath st = inr (x, st')
    /\ (forall msg,
          Extra.extraErrors x !! msg
          = asProperty (recordedUnder true msg rs))
    /\ (forall msg,
          Extra.extraWarnings x !! msg
          = asProperty (recordedUnder false msg rs))
    /\ Extra.fileErrors x
       = sum_list ((fun linter : Plugin A =>
                      pluginErrors (linter attributes fmLines)) <$> fns)
    /\ Extra.fileWarnings x
       = sum_list ((fun linter : Plugin A =>
                      pluginWarnings (linter attributes fmLines)) <$> fns).
Proof.
  intros Hfns rs Hown. unfold extraLinters.
  rewrite Hfns, runLinters_callAll. fold rs. cbn [fst snd].
  destruct (callback_lookup filePath rs (mkCollected ∅ ∅ []) Hown)
    as (acc' & -> & Hlookup).
  eexists _, _. split; [done|].
  cbn [fst snd Extra.extraErrors Extra.extraWarnings Extra.fileErrors
       Extra.fileWarnings].
  split; [|split; [|done]]; intros msg;
    destruct (Hlookup msg) as [He Hw]; [rewrite He|rewrite Hw];
    cbn [extraErrors extraWarnings]; rewrite lookup_empty; clear;
    destruct (recordedUnder _ msg _); reflexivity.
Qed.
End Plugins.

Lemma extraLinters_collects_witness :
  let c := mkConfig [] true (Some [lengthPlugin; lengthPlugin]) in
  let st := setArgsConfig PlainYaml.lintArgs c PlainYaml.linting in
  let first := EAffected (mkAffected (Some 2%Z) (Some 9%Z) None) in
  let second := EAffected defaultAffected in
  extraLintFns (config st) = Some [lengthPlugin; lengthPlugin]
  /\ Forall (fun r => dropped r = true
                      \/ reportMessage r ∉ objectPrototype)
            (allReports [] [] [lengthPlugin; lengthPlugin])
  /\ exists x st',
       extraLinters [] [] PlainYaml.post st = inr (x, st')
       /\ Extra.extraErrors x !! js "too long"
          = Some [first; second; first; second]
       /\ Extra.extraErrors x !! js "too short" = None
       /\ Extra.fileErrors x = 2.
Proof.
  intros c st first second.
  assert (H1 : extraLintFns (config st) = Some [lengthPlugin; lengthPlugin])
    by reflexivity.
  assert (H2 : Forall (fun r => dropped r = true
                                \/ reportMessage r ∉ objectPrototype)
                 (allReports [] [] [lengthPlugin; lengthPlugin])).
  { apply (bool_decide_unpack _). vm_compute. exact I. }
  refine (conj H1 (conj H2 _)).
  destruct (extraLinters_collects [] [] PlainYaml.post st
              [lengthPlugin; lengthPlugin] H1 H2)
    as (x & st' & Hrun & He & _ & Hn & _).
  exists x, st'. rewrite !He, Hn. by repeat split.
Defined.

(** ** [lintFile]: the totals of a linted file *)

Section Totals.
Context {A : Type}.
Variable load : jsstring -> YAMLException + A.
Variable dump : A -> YAMLException + jsstring.
Implicit Types st : State A.

Lemma lintLineByLine_same fm filePath st1 st2 :
  fix_ (args st1) = fix_ (args st2) -> config st1 = config st2 ->
  fixableErrors st1 = fixableErrors st2 ->
  (lintLineByLine fm filePath st1).1 = (lintLineByLine fm filePath st2).1.
Proof.
  intros Hfix Hcfg Hfx. rewrite !lintLineByLine_result. simpl.
  by rewrite Hfix, Hcfg, Hfx.
Qed.

Lemma extraLinters_counts (attributes : A) fmLines filePath st :
  let fns := default [] (extraLintFns (config st)) in
  Forall (fun r => dropped r = true
                   \/ reportMessage r ∉ objectPrototype)
         (allReports attributes fmLines fns) ->
  exists x st',
    extraLinters attributes fmLines filePath st = inr (x, st')
    /\ Extra.fileErrors x
       = sum_list ((fun linter : Plugin A =>
                      pluginErrors (linter attributes fmLines)) <$> fns)
    /\ Extra.fileWarnings x
       = sum_list ((fun linter : Plugin A =>
                      pluginWarnings (linter attributes fmLines)) <$> fns).
Proof.
  intros fns Hown. subst fns. unfold extraLinters.
  destruct (extraLintFns (config st)) as [fns|]; [|by eexists _, _].
  simpl in Hown. rewrite runLinters_callAll. cbn [fst snd].
  destruct (callback_lookup filePath _ (mkCollected ∅ ∅ []) Hown)
    as (acc' & -> & _).
  by eexists _, _.
Qed.

(** X17. When the front matter of a file is found and loaded (and, in fix
    mode, dumped and written), and no report the plugins make on the
    block is kept under a message that names a property every object
    inherits, [lintFile] lints one block -- the lines up to the closing
    delimiter, or in fix mode the block it has just written -- and the
    totals of the run grow by what that block holds: the error total by
    the entries of its error arrays plus the errors the plugins return,
    the warning total by the entries of its warning arrays plus the
    warnings the plugins return, and the fixable total by its error
    entries other than missing attributes. *)
Theorem lintFile_totals
    filePath text a c st data st0 idx attributes block :
  lintFileInput filePath text a c st = Some (data, st0) ->
  startsWith (lineAt (fileLines data) 1) (js "---") = true ->
  indexOf (fileLines data) (js "---") 2 = Some idx ->
  load (loadInput (take (idx + 1) (fileLines data))) = inr attributes ->
  (if fix_ (args st0)
   then (filePath ∉ readOnly st0)
        /\ exists dumped,
             dump attributes = inr dumped /\ block = fixedFrontMatter dumped
   else block = take (idx + 1) (fileLines data)) ->
  let plugins := default [] (extraLintFns (config st0)) in
  Forall (fun r => dropped r = true
                   \/ reportMessage r ∉ objectPrototype)
         (allReports attributes block plugins) ->
  let basic := (lintLineByLine block filePath st0).1 in
  let st' := (lintFile load dump filePath text a c st).2 in
  errorNumber st'
  = errorNumber st + errorEntries (Basic.errors basic)
    + sum_list ((fun linter : Plugin A =>
                   pluginErrors (linter attributes block)) <$> plugins)
  /\ warningNumber st'
     = warningNumber st + warningEntries (Basic.warnings basic)
       + sum_list ((fun linter : Plugin A =>
                      pluginWarnings (linter attributes block)) <$> plugins)
  /\ fixableErrors st'
     = fixableErrors st + fixableEntries (Basic.errors basic).
Proof.
  intros Hin Hstart Hidx Hload Hblock plugins Hown basic. unfold lintFile.
  rewrite Hin, Hstart, Hidx. unfold lintFrontMatter. rewrite Hload.
  destruct (lintFileInput_frame _ _ _ _ _ _ _ Hin)
    as (He & Hw & Hf & _).
  set (fixed := if fix_ (args st0) then _ else _).
  assert (Hfixed : exists s, fixed = inr (block, s)
                             /\ args s = args st0 /\ config s = config st0
                             /\ errorNumber s = errorNumber st0
                             /\ warningNumber s = warningNumber st0
                             /\ fixableErrors s = fixableErrors st0).
  { subst fixed. destruct (fix_ (args st0)).
    - destruct Hblock as (Hrw & dumped & -> & ->). unfold writeFileSync.
      rewrite bool_decide_eq_false_2 by done. by eexists.
    - subst block. by eexists. }
  destruct Hfixed as (s & -> & Ha & Hc & Hes & Hws & Hfs).
  assert (Hb : (lintLineByLine block filePath s).1 = basic).
  { apply lintLineByLine_same; [by rewrite Ha|done|done]. }
  pose proof (lintLineByLine_frame block filePath s)
    as (_ & Hc1 & He1 & Hw1 & _).
  assert (Hf1 : fixableErrors (lintLineByLine block filePath s).2
                = fixableErrors s + fixableEntries (Basic.errors basic)).
  { rewrite <- Hb, lintLineByLine_result. simpl.
    destruct (scan_counts (fix_ (args s)) block
                (requiredAttributes (config s)) (fixableErrors s))
      as (Hse & _ & Hsf). lia. }
  assert (Hcounts : Basic.fileErrors basic
                    = errorEntries (Basic.errors basic)
                    /\ Basic.fileWarnings basic
                       = warningEntries (Basic.warnings basic)).
  { subst basic. rewrite lintLineByLine_result. simpl.
    destruct (scan_counts (fix_ (args st0)) block
                (requiredAttributes (config st0)) (fixableErrors st0))
      as (Hse & Hsw & _). unfold errorEntries.
    rewrite Hse. split; [apply Nat.add_comm|exact Hsw]. }
  destruct (lintLineByLine block filePath s) as [basic' s1].
  simpl in Hb, Hc1, He1, Hw1, Hf1. subst basic'.
  pose proof (extraLinters_frame attributes block filePath s1)
    as (_ & _ & He2 & Hw2 & Hf2 & _).
  destruct (extraLinters_counts attributes block filePath s1)
    as (extra & s2 & Hrun & Hxe & Hxw).
  { rewrite Hc1, Hc. exact Hown. }
  rewrite Hc1, Hc in Hxe, Hxw. fold plugins in Hxe, Hxw.
  rewrite Hrun in He2, Hw2, Hf2 |- *.
  simpl in He2, Hw2, Hf2. simpl.
  destruct Hcounts as [Hce Hcw]. unfold basic in Hce, Hcw.
  rewrite lintLineByLine_result in Hce, Hcw. simpl in Hce, Hcw. lia.
Qed.
End Totals.

Lemma lintFile_totals_witness :
  let a := PlainYaml.lintArgs in
  let c := mkConfig [js "title"; js "date"] true (Some [lengthPlugin]) in
  let data := text_of ["---"; "title: 'x'"; "---"; "text"] in
  let st := PlainYaml.start a ∅ in
  let st0 := setArgsConfig a c st in
  let st' := (lintFile PlainYaml.load PlainYaml.dump PlainYaml.post data a c
                       st).2 in
  lintFileInput PlainYaml.post data a c st = Some (data, st0)
  /\ startsWith (lineAt (fileLines data) 1) (js "---") = true
  /\ indexOf (fileLines data) (js "---") 2 = Some 3
  /\ PlainYaml.load (loadInput (take (3 + 1) (fileLines data)))
     = inr [(js "title", js "'x'")]
  /\ Forall (fun r => dropped r = true
                      \/ reportMessage r ∉ objectPrototype)
            (allReports [(js "title", js "'x'")]
                        (take (3 + 1) (fileLines data)) [lengthPlugin])
  /\ errorNumber st' = 4 /\ warningNumber st' = 1 /\ fixableErrors st' = 2.
Proof.
  intros a c data st st0 st'.
  assert (H1 : lintFileInput PlainYaml.post data a c st = Some (data, st0))
    by reflexivity.
  assert (H2 : startsWith (lineAt (fileLines data) 1) (js "---") = true)
    by reflexivity.
  assert (H3 : indexOf (fileLines data) (js "---") 2 = Some 3) by reflexivity.
  assert (H4 : PlainYaml.load (loadInput (take (3 + 1) (fileLines data)))
               = inr [(js "title", js "'x'")]) by reflexivity.
  assert (H5 : Forall (fun r => dropped r = true
                                \/ reportMessage r ∉ objectPrototype)
                 (allReports [(js "title", js "'x'")]
                             (take (3 + 1) (fileLines data)) [lengthPlugin])).
  { apply (bool_decide_unpack _). vm_compute. exact I. }
  refine (conj H1 (conj H2 (conj H3 (conj H4 (conj H5 _))))).
  destruct (lintFile_totals PlainYaml.load PlainYaml.dump PlainYaml.post
              data a c st data st0 3 [(js "title", js "'x'")]
              (take (3 + 1) (fileLines data)) H1 H2 H3 H4 eq_refl H5)
    as (He & Hw & Hf).
  fold st' in He, Hw, Hf. rewrite He, Hw, Hf. by vm_compute.
Defined.

(** ** The rule on whitespace before a colon *)

Lemma space_not_colon c : is_s c = true -> chr_eqb ":"%char c = false.
Proof. ascii_cases c. Qed.

Lemma match_wsbc pos s ls :
  match_here wsbcRegex pos s = Some ls
  <-> exists ws post,
        s = ws ++ ":"%char :: post /\ ws <> []
        /\ Forall (fun c => is_s c = true) ws /\ ls = [length ws; 1].
Proof.
  unfold wsbcRegex. split.
  - cbn. intros Hb.
    apply backtrack_Some in Hb as (j & ls' & -> & Hj & Hrest).
    destruct (drop j s) as [|c post] eqn:Hd; [done|].
    destruct (chr_eqb ":"%char c) eqn:Hc; [|done].
    apply chr_eqb_eq in Hc as <-. cbn in Hrest. injection Hrest as <-.
    assert (Hlen : length (take j s) = j).
    { rewrite length_take. pose proof (run_le_length is_s s). lia. }
    exists (take j s), post. rewrite Hlen. repeat split.
    + by rewrite <- Hd, take_drop.
    + intros Hnil. rewrite Hnil in Hlen. simpl in Hlen. lia.
    + apply run_take. lia.
  - intros (ws & post & -> & Hne & Hws & ->). cbn.
    rewrite (run_app_stop _ _ _ _ Hws) by done.
    erewrite backtrack_first; [done|by destruct ws; simpl; [|lia]|].
    rewrite drop_app_length. cbn. by rewrite Ascii.eqb_refl.
Qed.

Lemma search_colon ws :
  Forall (fun c => is_s c = true) ws ->
  search colonRegex (ws ++ [":"%char]) = Z.of_nat (length ws).
Proof.
  intros Hws. unfold search, exec, colonRegex. simpl Nat.leb. cbv iota.
  rewrite drop_0, exec_from_class_first; [done| |apply Ascii.eqb_refl].
  eapply Forall_impl; [exact Hws|]. apply space_not_colon.
Qed.

Lemma spacesBeforeColon_match fm i pre ws post :
  Forall (fun c => is_s c = true) ws ->
  spacesBeforeColon_body fm i (pre ++ ws ++ ":"%char :: post)
                         (mkMatch (length pre) [length ws; 1])
  = (length pre + length ws, colonViolation fm i (length pre) (length ws)).
Proof.
  intros Hws. unfold spacesBeforeColon_body, colonViolation.
  assert (Hm : matched (pre ++ ws ++ ":"%char :: post)
                       (mkMatch (length pre) [length ws; 1])
               = ws ++ [":"%char]).
  { unfold matched, match_len. cbn [index lens foldr].
    rewrite drop_app_length, Nat.add_0_r, take_app_add'; [|done].
    done. }
  rewrite Hm, (search_colon _ Hws). unfold group_len. cbn [index lens nth].
  f_equal; [lia|]. f_equal; try f_equal; lia.
Qed.

Lemma spaceBeforeColonAt_match line p k :
  spaceBeforeColonAt line p k ->
  match_here wsbcRegex p (drop p line) = Some [k; 1].
Proof.
  intros (pre & ws & post & -> & <- & <- & Hk & Hws & _).
  apply match_wsbc. exists ws, post. rewrite drop_app_length.
  repeat split; try done. intros ->. simpl in Hk. lia.
Qed.

Section BeforeColon.
Variable fm : list jsstring.
Variable i : nat.
Variable line : jsstring.

Lemma exec_wsbc lastIndex m :
  startsRun line lastIndex ->
  exec wsbcRegex line lastIndex = Some m ->
  exists k,
    lens m = [k; 1] /\ spaceBeforeColonAt line (index m) k
    /\ spacesBeforeColon_body fm i line m
       = (index m + k, colonViolation fm i (index m) k)
    /\ startsRun line (index m + k).
Proof.
  intros Hstart Hex.
  destruct (exec_Some _ _ _ _ Hex) as (Hi & Hm & Hnone).
  apply match_wsbc in Hm as (ws & post & Hd & Hne & Hws & Hlens).
  assert (Hline : line = take (index m) line ++ ws ++ ":"%char :: post)
    by (by rewrite <- Hd, take_drop).
  assert (Hlen : length (take (index m) line) = index m)
    by (rewrite length_take; lia).
  assert (Hk : 1 <= length ws) by (destruct ws; simpl; [done|lia]).
  exists (length ws). split; [done|]. split; [|split].
  - exists (take (index m) line), ws, post.
    repeat split; try done.
    intros c Hlast. destruct (is_s c) eqn:Hc; [|done]. exfalso.
    assert (Hpos : 0 < index m).
    { destruct (decide (index m = 0)) as [H0|]; [|lia].
      by rewrite H0, take_0 in Hlast. }
    rewrite last_lookup, Hlen in Hlast.
    rewrite lookup_take_lt in Hlast by lia.
    destruct (decide (lastIndex = index m)) as [Heq|Hne'].
    + destruct Hstart as [->|(c' & Hc' & Hs')]; [lia|].
      rewrite Heq in Hc'.
      assert (Hfirst : line !! index m = ws !! 0).
      { rewrite Hline at 1. rewrite lookup_app_r by lia.
        rewrite Hlen, Nat.sub_diag. by destruct ws. }
      rewrite Hfirst in Hc'. destruct ws as [|w ws']; [done|].
      simpl in Hc'. injection Hc' as ->.
      apply Forall_cons in Hws as [Hw _]. congruence.
    + assert (Hprev : match_here wsbcRegex (pred (index m))
                        (drop (pred (index m)) line) = None)
        by (apply Hnone; lia).
      assert (Hsome : match_here wsbcRegex (pred (index m))
                        (drop (pred (index m)) line)
                      = Some [length (c :: ws); 1]).
      { apply match_wsbc. exists (c :: ws), post.
        repeat split; [|done|by constructor].
        rewrite (drop_S _ c) by done.
        replace (S (pred (index m))) with (index m) by lia.
        by rewrite Hd. }
      congruence.
  - destruct m as [idx ls]. simpl in *. subst ls.
    pose proof (spacesBeforeColon_match fm i (take idx line) ws post Hws)
      as Hb.
    by rewrite <- Hline, Hlen in Hb.
  - right. exists ":"%char. split; [|done].
    rewrite Hline, lookup_app_r by lia.
    rewrite Hlen, lookup_app_r by lia.
    replace (index m + length ws - index m - length ws) with 0 by lia.
    done.
Qed.

Lemma spaceBeforeColonAt_inj p k k' :
  spaceBeforeColonAt line p k -> spaceBeforeColonAt line p k' -> k = k'.
Proof.
  intros H1%spaceBeforeColonAt_match H2%spaceBeforeColonAt_match.
  congruence.
Qed.

Lemma spaceBeforeColonAt_prev p k c :
  spaceBeforeColonAt line p k -> 0 < p -> line !! (p - 1) = Some c ->
  is_s c = false.
Proof.
  intros (pre & ws & post & Hline & <- & _ & _ & _ & Hlast) Hp Hc.
  apply Hlast. rewrite last_lookup.
  rewrite Hline, lookup_app_l in Hc by lia.
  by replace (pred (length pre)) with (length pre - 1) by lia.
Qed.

Lemma spacesBeforeColon_loop v : forall fuel lastIndex,
  startsRun line lastIndex -> length line + 2 <= fuel + lastIndex ->
  v ∈ exec_while fuel wsbcRegex line lastIndex
                 (spacesBeforeColon_body fm i line)
  <-> exists p k, lastIndex <= p /\ spaceBeforeColonAt line p k
                  /\ v = colonViolation fm i p k.
Proof.
  induction fuel as [|fuel IH]; intros lastIndex Hstart Hfuel.
  - simpl. split; [by intros ?%elem_of_nil|].
    intros (p & k & Hp & Hat%spaceBeforeColonAt_match & _).
    assert (Hlen : length line < p) by lia.
    rewrite drop_ge in Hat by lia. done.
  - cbn [exec_while].
    destruct (exec wsbcRegex line lastIndex) as [m|] eqn:Hex.
    + destruct (exec_wsbc _ _ Hstart Hex)
        as (k & Hlens & Hat & Hbody & Hnext).
      destruct (exec_Some _ _ _ _ Hex) as (Hi & _ & Hnone).
      assert (Hk : 1 <= k).
      { destruct Hat as (? & ? & ? & _ & _ & _ & ? & _). done. }
      rewrite Hbody. cbn [fst snd].
      rewrite elem_of_cons, (IH _ Hnext) by lia. split.
      * intros [->|(p & k' & Hp & Hat' & ->)].
        -- exists (index m), k. split; [lia|by split].
        -- exists p, k'. split; [lia|by split].
      * intros (p & k' & Hp & Hat' & ->).
        destruct (decide (p = index m)) as [->|Hne].
        -- left. by rewrite (spaceBeforeColonAt_inj _ _ _ Hat' Hat).
        -- right. exists p, k'. split; [|done].
           destruct (decide (p < index m)) as [Hlt|Hge].
           { pose proof (spaceBeforeColonAt_match _ _ _ Hat') as Hm.
             rewrite Hnone in Hm by lia. done. }
           destruct (decide (index m + k <= p)) as [|Hin]; [done|].
           exfalso.
           destruct Hat as (pre & ws & post & Hline & Hpre & Hws & _ & Hall
                            & _).
           assert (Hc : exists c, line !! (p - 1) = Some c
                                  /\ is_s c = true).
           { rewrite Hline, lookup_app_r by lia.
             rewrite lookup_app_l by lia.
             destruct (ws !! (p - 1 - length pre)) as [c|] eqn:Hc.
             - exists c. split; [done|].
               rewrite Forall_forall in Hall. apply Hall.
               by eapply list_elem_of_lookup_2.
             - apply lookup_ge_None in Hc. lia. }
           destruct Hc as (c & Hc & Hs).
           rewrite (spaceBeforeColonAt_prev p k' c Hat') in Hs;
             [done|lia|done].
    + split; [by intros ?%elem_of_nil|].
      intros (p & k & Hp & Hat%spaceBeforeColonAt_match & _).
      destruct (decide (p <= length line)) as [Hle|Hgt].
      * rewrite (exec_None _ _ _ Hex) in Hat by lia. done.
      * rewrite drop_ge in Hat by lia. done.
Qed.

Lemma spacesBeforeColon_elem v :
  v ∈ spacesBeforeColon fm i line
  <-> exists p k, spaceBeforeColonAt line p k
                  /\ v = colonViolation fm i p k.
Proof.
  unfold spacesBeforeColon.
  rewrite spacesBeforeColon_loop; [|by left|unfold loop_fuel; lia].
  split.
  - intros (p & k & _ & ? & ?). by exists p, k.
  - intros (p & k & ? & ?). exists p, k. split; [lia|by split].
Qed.

(** The loop pushes the colons from left to right, each once. *)
Lemma spacesBeforeColon_sorted : forall fuel lastIndex,
  startsRun line lastIndex ->
  let found := exec_while fuel wsbcRegex line lastIndex
                          (spacesBeforeColon_body fm i line) in
  leftToRight found
  /\ Forall (fun v => (Z.of_nat lastIndex + 1 < col v)%Z) found.
Proof.
  unfold leftToRight.
  induction fuel as [|fuel IH]; intros lastIndex Hstart; cbn [exec_while].
  - split; constructor.
  - destruct (exec wsbcRegex line lastIndex) as [m|] eqn:Hex;
      [|split; constructor].
    destruct (exec_wsbc _ _ Hstart Hex) as (k & _ & Hat & Hbody & Hnext).
    destruct (exec_Some _ _ _ _ Hex) as (Hi & _ & _).
    assert (Hk : 1 <= k).
    { destruct Hat as (? & ? & ? & _ & _ & _ & ? & _). done. }
    rewrite Hbody. cbn [fst snd].
    destruct (IH _ Hnext) as [Hsorted Hall]. split.
    + constructor; [done|]. eapply Forall_impl; [exact Hall|].
      intros w Hw. cbv beta in Hw. unfold colonViolation. simpl. lia.
    + constructor; [unfold colonViolation; simpl; lia|].
      eapply Forall_impl; [exact Hall|]. intros w Hw. cbv beta in Hw. lia.
Qed.
End BeforeColon.

(** X18. Outside fix mode, the violations of the rule on whitespace before
    colons with a given row are one for every colon of that line that has
    whitespace in front of it, from left to right, and no others.  With the
    whole run of whitespace before the colon starting at index [p] and
    being [k] characters long, [col] is the colon's column counted from
    one, [p + k + 1], and the span from [colStart] to [colEnd] is the run,
    [p] to [p + k]. *)
Theorem whitespace_before_colon_iff {A} fm filePath (st : State A) i line :
  fix_ (args st) = false ->
  i ∈ bodyRows fm ->
  fm !! i = Some line ->
  let found :=
    filter (fun v => row v = i)
           (noWhitespaceBeforeColon
              (Basic.errors (lintLineByLine fm filePath st).1)) in
  leftToRight found
  /\ forall v,
       v ∈ found
       <-> exists p k, spaceBeforeColonAt line p k
                       /\ v = colonViolation fm i p k.
Proof.
  intros Hfix Hi Hline. rewrite lintLineByLine_result. simpl.
  rewrite scan_spacesBeforeColon, Hfix.
  assert (Hat : lineAt fm i = line) by (unfold lineAt; by rewrite Hline).
  rewrite filter_row_concat; [| |apply NoDup_seq|done].
  - unfold errorRule. rewrite Hat.
    destruct (blank line) eqn:Hb.
    + split; [constructor|]. intros v. split; [by intros ?%elem_of_nil|].
      intros (p & k & (pre & ws & post & -> & _) & _).
      rewrite (not_blank_nonspace _ ":"%char) in Hb; [done| |done].
      apply elem_of_app. right. apply elem_of_app. right. by left.
    + split; [|apply spacesBeforeColon_elem].
      exact (proj1 (spacesBeforeColon_sorted fm i line (loop_fuel line) 0
                      (or_introl eq_refl))).
  - intros j v. apply errorRule_row. intros l w Hw.
    by apply spacesBeforeColon_elem in Hw as (p & k & _ & ->).
Qed.

Lemma whitespace_before_colon_iff_witness :
  let line := js "title  : x  : y" in
  let fm := [[]; js "---"; line; js "---"] in
  let found :=
    filter (fun v => row v = 2)
           (noWhitespaceBeforeColon
              (Basic.errors (lintBlock fm PlainYaml.linting))) in
  fix_ (args PlainYaml.linting) = false
  /\ 2 ∈ bodyRows fm /\ fm !! 2 = Some line
  /\ found = [colonViolation fm 2 5 2; colonViolation fm 2 10 2]
  /\ leftToRight found
  /\ colonViolation fm 2 5 2 ∈ found.
Proof.
  intros line fm found.
  assert (H0 : fix_ (args PlainYaml.linting) = false) by reflexivity.
  assert (H1 : 2 ∈ bodyRows fm) by (vm_compute; set_solver).
  assert (H2 : fm !! 2 = Some line) by reflexivity.
  refine (conj H0 (conj H1 (conj H2 (conj _ _)))); [by vm_compute|].
  destruct (whitespace_before_colon_iff fm PlainYaml.post
              PlainYaml.linting 2 line H0 H1 H2) as [Hsorted Hiff].
  split; [exact Hsorted|]. apply Hiff.
  exists 5, 2. split; [|done].
  exists (js "title"), (js "  "), (js " x  : y").
  repeat split; try done; try (simpl; lia).
  - by repeat constructor.
  - intros c [= <-]. done.
Defined.

(** * The walkers and [main] *)

Lemma endsWith_spec s p : endsWith s p = true <-> exists pre, s = pre ++ p.
Proof.
  unfold endsWith, jsstring_eqb. split.
  - intros [Hlen Heq%bool_decide_eq_true]%andb_true_iff.
    exists (take (length s - length p) s).
    rewrite <- Heq at 2. by rewrite take_drop.
  - intros [pre ->]. rewrite length_app. apply andb_true_iff. split.
    + apply Nat.leb_le. lia.
    + apply bool_decide_eq_true.
      replace (length pre + length p - length p) with (length pre) by lia.
      by rewrite drop_app_length.
Qed.

Lemma someEndsWith_spec s list :
  someEndsWith s list = true <-> endsWithOneOf s list.
Proof.
  unfold someEndsWith, endsWithOneOf. rewrite existsb_exists. split.
  - intros (p & Hp%list_elem_of_In & [pre ->]%endsWith_spec). by exists p, pre.
  - intros (p & pre & Hp%list_elem_of_In & ->). exists p.
    split; [done|]. apply endsWith_spec. by exists pre.
Qed.

Lemma someEndsWith_false s list :
  ~ endsWithOneOf s list -> someEndsWith s list = false.
Proof.
  intros Hno. destruct (someEndsWith s list) eqn:H; [|done].
  by apply someEndsWith_spec in H.
Qed.

(** Induction on what is at a path, with the hypothesis for every entry of
    a directory. *)
Lemma Node_induction (P : Node -> Prop) :
  P Missing -> P NotDir -> P (Dir None) ->
  (forall es, Forall (fun e : jsstring * Node => P e.2) es ->
              P (Dir (Some es))) ->
  forall n, P n.
Proof.
  intros Hmissing Hfile Hnone Hdir.
  fix IH 1. intros [| |[es|]]; [done|done| |done].
  apply Hdir. induction es as [|[file child] es IHes]; constructor.
  - apply IH.
  - apply IHes.
Qed.

Section Walks.
Context {A : Type}.
Variable load : jsstring -> YAMLException + A.
Variable dump : A -> YAMLException + jsstring.
Variable cwd : jsstring.
Variable red : jsstring -> jsstring.
Variable wc : WalkConfig.
Implicit Types w : World A.

Lemma steady_refl w : steady w w.
Proof. unfold steady, grows. repeat split; try done. by left. Qed.

Lemma steady_trans w1 w2 w3 : steady w1 w2 -> steady w2 w3 -> steady w1 w3.
Proof.
  intros (Hg1 & Hp1 & Ha1 & Hc1 & Hf1 & Hx1)
         (Hg2 & Hp2 & Ha2 & Hc2 & Hf2 & Hx2).
  split; [by eapply grows_trans|]. split; [by etrans|].
  split; [congruence|]. split; [congruence|]. split.
  - intros Hfix. rewrite Hf2, Hf1; [done|done|by rewrite Ha1].
  - destruct Hx2 as [Hx2|Hx2]; [rewrite Hx2; exact Hx1|by right].
Qed.

Lemma lintFileAt_steady filePath w :
  steady w (lintFileAt load dump filePath w).2.
Proof.
  unfold lintFileAt.
  destruct (lintFileInput filePath [] (args (module_ w))
              (config (module_ w)) (module_ w)) as [[data st0]|] eqn:Hin.
  - pose proof (lintFile_from_input load dump _ _ _ _ _ _ _ Hin)
      as ((_ & Hw) & Hg & Ha & Hc & _ & Hx).
    assert (Hst0 : st0 = module_ w).
    { unfold lintFileInput in Hin.
      destruct (files (module_ w) !! filePath); by simplify_eq/=. }
    subst st0.
    destruct (lintFile load dump filePath [] _ _ _) as [s st']. simpl in *.
    unfold steady. simpl. split; [done|]. by repeat split.
  - unfold lintFile. rewrite Hin. unfold steady, grows. simpl.
    repeat split; try done. by left.
Qed.

Lemma lintEach_steady paths : forall w,
  steady w (lintEach load dump paths w).2.
Proof.
  induction paths as [|p paths IH]; intros w; simpl; [apply steady_refl|].
  pose proof (lintFileAt_steady p w) as H1.
  destruct (lintFileAt load dump p w) as [r w1].
  pose proof (IH w1) as H2.
  destruct (lintEach load dump paths w1) as [rs w2].
  by apply (steady_trans _ w1).
Qed.

Lemma print_steady p w : steady w (print p w).
Proof.
  unfold steady, grows, print. simpl. repeat split; try done.
  - by apply prefix_app_r.
  - by left.
Qed.

Lemma lintNonRecursively_steady path n w :
  steady w (lintNonRecursively load dump cwd red wc path n w).2.
Proof.
  unfold lintNonRecursively. destruct n as [| |[es|]]; simpl;
    try apply steady_refl.
  - destruct (someEndsWith path (extensions wc));
      [apply lintFileAt_steady|apply steady_refl].
  - destruct (List.filter _ _) as [|file files]; [apply print_steady|].
    pose proof (lintEach_steady (childPath path <$> file :: files) w) as H.
    by destruct (lintEach load dump _ w).
Qed.

Lemma lintRecursively_steady n : forall path w,
  steady w (lintRecursively load dump wc path n w).2.
Proof.
  induction n as [| | |es IH] using Node_induction; intros path w; simpl;
    try apply steady_refl.
  - destruct (someEndsWith path (extensions wc));
      [apply lintFileAt_steady|apply steady_refl].
  - destruct (skipped wc path); apply steady_refl.
  - destruct (skipped wc path); [apply steady_refl|].
    set (f := fun file child => lintRecursively load dump wc
                                  (childPath path file) child).
    assert (H : forall w0, steady w0 (eachEntry f es w0).2).
    { clear w. induction IH as [|[file child] es Hchild _ IHes];
        intros w0; simpl; [apply steady_refl|].
      pose proof (Hchild (childPath path file) w0) as H1. simpl in H1.
      subst f. simpl.
      destruct (lintRecursively load dump wc _ child w0) as [r w1].
      pose proof (IHes w1) as H2.
      destruct (eachEntry _ es w1) as [rs w2].
      by apply (steady_trans _ w1). }
    specialize (H w). by destruct (eachEntry f es w).
Qed.

Lemma walk_steady (a : Args) root w :
  steady w (if negb (recursive a)
            then lintNonRecursively load dump cwd red wc (path a) root w
            else lintRecursively load dump wc (path a) root w).2.
Proof.
  destruct (recursive a); simpl;
    [apply lintRecursively_steady|apply lintNonRecursively_steady].
Qed.

(** X19. [main] installs the arguments and the configuration it was
    given and runs one walker on the path.  If the walker's promise
    resolves, the result has its value as [errors], beside the totals of
    the module as the walk left them, and nothing else happens.  If it
    was rejected -- a path that cannot be read, or a path without a valid
    extension given to the non-recursive walker -- the result has no
    [errors]; the rejection is printed and counts as exactly one more
    error beside those of the files that were linted all the same; no
    warning is added and no file changes; and the exit code is 1.  Either
    way the totals are never below what they were when [main] was
    called, [main] sets no other exit code than 1, and [args] and
    [config] are the ones it was given. *)
Theorem main_totals a c root w :
  let w0 := mkWorld (setArgsConfig a c (module_ w)) (prints w) in
  let walk :=
    if negb (recursive a)
    then lintNonRecursively load dump cwd red wc (path a) root w0
    else lintRecursively load dump wc (path a) root w0 in
  let r := (main load dump cwd red wc a c root w).1 in
  let w' := (main load dump cwd red wc a c root w).2 in
  Main.errorNumber r = errorNumber (module_ w')
  /\ Main.warningNumber r = warningNumber (module_ w')
  /\ match walk.1 with
     | Done errors => Main.errors r = Some errors /\ w' = walk.2
     | Failed reasons =>
         Main.errors r = None
         /\ errorNumber (module_ w') = errorNumber (module_ walk.2) + 1
         /\ warningNumber (module_ w') = warningNumber (module_ walk.2)
         /\ fixableErrors (module_ w') = fixableErrors (module_ walk.2)
         /\ files (module_ w') = files (module_ walk.2)
         /\ console (module_ w') = console (module_ walk.2)
         /\ exitCode (module_ w') = Some 1
         /\ prints w'
            = prints walk.2
              ++ [(length (console (module_ walk.2)),
                   PrintedReason reasons)]
     end
  /\ errorNumber (module_ w) <= errorNumber (module_ walk.2)
  /\ warningNumber (module_ w) <= warningNumber (module_ walk.2)
  /\ (exitCode (module_ w') = exitCode (module_ w)
      \/ exitCode (module_ w') = Some 1)
  /\ args (module_ w') = a /\ config (module_ w') = c.
Proof.
  intros w0 walk. unfold main. fold w0. fold walk.
  pose proof (walk_steady a root w0)
    as ((He & Hw & _) & _ & Ha & Hc & _ & Hx).
  fold walk in He, Hw, Ha, Hc, Hx.
  destruct walk as [[v|reasons] w1]; simpl in *;
    repeat split; try done. by right.
Qed.

(** X20. Without [fix], [main] changes no file, whatever is at the path
    and below it, recursively or not. *)
Theorem main_without_fix_writes_nothing a c root w :
  fix_ a = false ->
  files (module_ (main load dump cwd red wc a c root w).2)
  = files (module_ w).
Proof.
  intros Hfix. unfold main.
  set (w0 := mkWorld (setArgsConfig a c (module_ w)) (prints w)).
  pose proof (walk_steady a root w0) as (_ & _ & _ & _ & Hf & _).
  destruct (if negb (recursive a) then _ else _) as [[v|reasons] w1];
    simpl in *; by rewrite Hf.
Qed.

(** X21. A path that is not a directory and ends with none of the
    configured extensions is passed over in silence by the recursive
    walker -- [main] resolves with undefined [errors] and nothing is
    counted or printed -- but rejected by the non-recursive one: [main]
    prints the message about the extension, counts one error and sets the
    exit code 1.  No file is read or written either way. *)
Theorem main_path_without_extension a c w :
  ~ endsWithOneOf (path a) (extensions wc) ->
  let r := (main load dump cwd red wc a c NotDir w).1 in
  let w' := (main load dump cwd red wc a c NotDir w).2 in
  files (module_ w') = files (module_ w)
  /\ console (module_ w') = console (module_ w)
  /\ warningNumber (module_ w') = warningNumber (module_ w)
  /\ if recursive a
     then r = Main.mk (Some Undefined) (errorNumber (module_ w))
                      (warningNumber (module_ w))
          /\ exitCode (module_ w') = exitCode (module_ w)
          /\ prints w' = prints w
     else r = Main.mk None (errorNumber (module_ w) + 1)
                      (warningNumber (module_ w))
          /\ exitCode (module_ w') = Some 1
          /\ prints w'
             = prints w
               ++ [(length (console (module_ w)),
                    PrintedReason
                      [InvalidExtension
                         (invalidExtension red (colored a) (path a))])].
Proof.
  intros Hno%someEndsWith_false. unfold main.
  destruct (recursive a); simpl; rewrite Hno; simpl;
    rewrite ?Nat.add_0_r; by repeat split.
Qed.

(** X22. Given a directory none of whose entries ends with a configured
    extension, the non-recursive walker lints nothing, prints that no
    Markdown files were found in the directory, and [main] resolves with
    undefined [errors]: no error or warning is counted and the exit code
    stays. *)
Theorem main_directory_without_markdown a c entries w :
  recursive a = false ->
  (forall file, file ∈ entries.*1 ->
                ~ endsWithOneOf file (extensions wc)) ->
  let r := (main load dump cwd red wc a c (Dir (Some entries)) w).1 in
  let w' := (main load dump cwd red wc a c (Dir (Some entries)) w).2 in
  r = Main.mk (Some Undefined) (errorNumber (module_ w))
              (warningNumber (module_ w))
  /\ module_ w' = setArgsConfig a c (module_ w)
  /\ prints w'
     = prints w
       ++ [(length (console (module_ w)),
            PrintedText (noMarkdownFiles cwd (path a)))].
Proof.
  intros Hrec Hno. unfold main. rewrite Hrec. simpl.
  assert (Hnil : List.filter
                   (fun file => someEndsWith file (extensions wc))
                   entries.*1 = []).
  { induction entries.*1 as [|file files IH]; [done|]. simpl.
    rewrite someEndsWith_false by (apply Hno; by left).
    apply IH. intros f Hf. apply Hno. by right. }
  rewrite Hnil. by simpl.
Qed.

(** X23. The recursive walker does not enter a directory whose path ends
    with one of the excluded names, those of [excludeDirs] and of
    [extraExcludeDirs], unless it also ends with one of [includeDirs]:
    whatever the directory holds, readable or not, it resolves with
    undefined and nothing is linted, counted or printed. *)
Theorem lintRecursively_skips_excluded path entries w :
  endsWithOneOf path (excludeDirs wc ++ extraExcludeDirs wc) ->
  ~ endsWithOneOf path (includeDirs wc) ->
  lintRecursively load dump wc path (Dir entries) w = (Done Undefined, w).
Proof.
  intros Hex%someEndsWith_spec Hin%someEndsWith_false. simpl.
  unfold skipped, allExcludedDirs. by rewrite Hex, Hin.
Qed.
End Walks.

Lemma main_path_without_extension_witness :
  let a := mkArgs (js "notes.txt") false false true false false in
  let w := inWorld PlainYaml.linting in
  let r := (main PlainYaml.load PlainYaml.dump (js "/home") plainRed markdown
                 a PlainYaml.noPlugins NotDir w).1 in
  ~ endsWithOneOf (path a) (extensions markdown)
  /\ Main.errors r = None /\ Main.errorNumber r = 1.
Proof.
  intros a w r.
  assert (H1 : ~ endsWithOneOf (path a) (extensions markdown)).
  { intros H%someEndsWith_spec. discriminate H. }
  refine (conj H1 _).
  destruct (main_path_without_extension PlainYaml.load PlainYaml.dump
              (js "/home") plainRed markdown a PlainYaml.noPlugins w H1)
    as (_ & _ & _ & Hr).
  change (recursive a) with false in Hr. cbv iota in Hr.
  destruct Hr as (Hr & _). unfold r. by rewrite Hr.
Defined.

Lemma main_without_fix_writes_nothing_witness :
  let a := mkArgs (js "docs") false true true false false in
  let fs : gmap jsstring jsstring :=
    {[js "docs/a.md" := text_of ["---"; "title:   x"; "---"; "text"]]} in
  let root := Dir (Some [(js "a.md", NotDir); (js "img", Dir (Some []))]) in
  let w := inWorld (PlainYaml.start a fs) in
  fix_ a = false
  /\ files (module_ (main PlainYaml.load PlainYaml.dump (js "/home") plainRed
                          markdown a PlainYaml.noPlugins root w).2)
     = fs.
Proof.
  intros a fs root w.
  assert (H1 : fix_ a = false) by reflexivity.
  refine (conj H1 _).
  exact (main_without_fix_writes_nothing PlainYaml.load PlainYaml.dump
           (js "/home") plainRed markdown a PlainYaml.noPlugins root w H1).
Defined.

Lemma main_directory_without_markdown_witness :
  let a := mkArgs (js "docs") false false true false false in
  let entries := [(js "notes.txt", NotDir); (js "posts", Dir (Some []))] in
  let w := inWorld PlainYaml.linting in
  let r := (main PlainYaml.load PlainYaml.dump (js "/home") plainRed markdown
                 a PlainYaml.noPlugins (Dir (Some entries)) w).1 in
  recursive a = false
  /\ (forall file, file ∈ entries.*1 ->
                   ~ endsWithOneOf file (extensions markdown))
  /\ r = Main.mk (Some Undefined) 0 0.
Proof.
  intros a entries w r.
  assert (H1 : recursive a = false) by reflexivity.
  assert (H2 : forall file, file ∈ entries.*1 ->
                            ~ endsWithOneOf file (extensions markdown)).
  { intros file Hfile H%someEndsWith_spec.
    repeat (apply elem_of_cons in Hfile as [->|Hfile]; [discriminate H|]).
    by apply elem_of_nil in Hfile. }
  refine (conj H1 (conj H2 _)).
  exact (proj1 (main_directory_without_markdown PlainYaml.load PlainYaml.dump
                  (js "/home") plainRed markdown a PlainYaml.noPlugins
                  entries w H1 H2)).
Defined.

Lemma lintRecursively_skips_excluded_witness :
  let path := js "site/my_node_modules" in
  let w := inWorld PlainYaml.linting in
  endsWithOneOf path (excludeDirs markdown ++ extraExcludeDirs markdown)
  /\ ~ endsWithOneOf path (includeDirs markdown)
  /\ lintRecursively PlainYaml.load PlainYaml.dump markdown path
                     (Dir (Some [(js "a.md", NotDir)])) w
     = (Done Undefined, w).
Proof.
  intros path w.
  assert (H1 : endsWithOneOf path
                 (excludeDirs markdown ++ extraExcludeDirs markdown)).
  { exists (js "node_modules"), (js "site/my_"). split; [by left|done]. }
  assert (H2 : ~ endsWithOneOf path (includeDirs markdown)).
  { intros (p & pre & Hp & _). by apply elem_of_nil in Hp. }
  refine (conj H1 (conj H2 _)).
  exact (lintRecursively_skips_excluded PlainYaml.load PlainYaml.dump markdown
           path (Some [(js "a.md", NotDir)]) w H1 H2).
Defined.

Section Flat.
Context {A : Type}.
Variable load : jsstring -> YAMLException + A.
Variable dump : A -> YAMLException + jsstring.
Variable wc : WalkConfig.
Implicit Types w : World A.

Lemma lintEach_app paths1 paths2 : forall w,
  (lintEach load dump (paths1 ++ paths2) w).2
  = (lintEach load dump paths2 (lintEach load dump paths1 w).2).2.
Proof.
  induction paths1 as [|p paths1 IH]; intros w; simpl; [done|].
  destruct (lintFileAt load dump p w) as [r w1]. specialize (IH w1).
  destruct (lintEach load dump (paths1 ++ paths2) w1) as [rs w2].
  by destruct (lintEach load dump paths1 w1) as [rs1 w3].
Qed.

Lemma lintEach_one p w :
  (lintEach load dump [p] w).2 = (lintFileAt load dump p w).2.
Proof. simpl. by destruct (lintFileAt load dump p w). Qed.

(** X24. What the recursive walker does to the module is what linting,
    one after the other, the files it gets to does: the paths below that
    are not directories and end with a configured extension, in the order
    of the directories, with skipped and unreadable directories left out.
    The walker itself prints nothing and counts nothing. *)
Theorem lintRecursively_lints_reachable n : forall path w,
  (lintRecursively load dump wc path n w).2
  = (lintEach load dump (reachable wc path n) w).2.
Proof.
  induction n as [| | |es IH] using Node_induction; intros path w; simpl;
    try done.
  - destruct (someEndsWith path (extensions wc)); [|done].
    by rewrite lintEach_one.
  - by destruct (skipped wc path).
  - destruct (skipped wc path); [done|].
    set (f := fun file child => lintRecursively load dump wc
                                  (childPath path file) child).
    set (each := fix each (es : list (jsstring * Node)) : list jsstring :=
           match es with
           | [] => []
           | (file, child) :: es' =>
               reachable wc (childPath path file) child ++ each es'
           end).
    assert (H : forall w0,
               (eachEntry f es w0).2 = (lintEach load dump (each es) w0).2).
    { clear w. induction IH as [|[file child] es Hchild _ IHes];
        intros w0; simpl; [done|].
      simpl in Hchild.
      rewrite lintEach_app, <- (Hchild (childPath path file) w0).
      subst f. simpl.
      destruct (lintRecursively load dump wc _ child w0) as [r w1].
      simpl. rewrite <- IHes.
      by destruct (eachEntry _ es w1). }
    specialize (H w). by destruct (eachEntry f es w).
Qed.
End Flat.

Lemma endsWith_childPath path file ext :
  "/"%char ∉ ext ->
  endsWith (childPath path file) ext = endsWith file ext.
Proof.
  intros Hslash. unfold childPath, jsstring_eqb. case_bool_decide; [done|].
  apply eq_true_iff_eq. rewrite !endsWith_spec. split.
  - intros [pre Heq].
    destruct (decide (length ext <= length file)) as [Hle|Hgt].
    + exists (take (length file - length ext) file).
      pose proof (take_drop (length file - length ext) file) as Htd.
      rewrite <- Htd in Heq at 1.
      rewrite !app_assoc in Heq.
      apply app_inj_2 in Heq as [_ Heq];
        [|rewrite length_drop; lia].
      by rewrite Heq in Htd.
    + exfalso. apply Hslash.
      rewrite <- (take_drop (length ext - length file) ext) in Heq at 1.
      rewrite !app_assoc in Heq.
      apply app_inj_2 in Heq as [Heq _];
        [|rewrite length_drop; lia].
      assert (Hlast : last (path ++ js "/") = Some "/"%char)
        by apply last_snoc.
      rewrite Heq in Hlast.
      assert (Hne : take (length ext - length file) ext <> []).
      { intros Hnil%(f_equal length). rewrite length_take in Hnil.
        simpl in Hnil. lia. }
      destruct (exists_last Hne) as (l & c & Hl).
      rewrite Hl, app_assoc, last_snoc in Hlast. injection Hlast as ->.
      apply (subseteq_take (length ext - length file)). rewrite Hl.
      apply elem_of_app. right. by left.
  - intros [pre ->]. exists (path ++ js "/" ++ pre).
    by rewrite <- !app_assoc.
Qed.

Lemma someEndsWith_childPath path file exts :
  (forall ext, ext ∈ exts -> "/"%char ∉ ext) ->
  someEndsWith (childPath path file) exts = someEndsWith file exts.
Proof.
  intros Hexts. unfold someEndsWith.
  induction exts as [|ext exts IH]; [done|]. simpl.
  rewrite endsWith_childPath by (apply Hexts; by left).
  rewrite IH; [done|]. intros e He. apply Hexts. by right.
Qed.

Section Agree.
Context {A : Type}.
Variable load : jsstring -> YAMLException + A.
Variable dump : A -> YAMLException + jsstring.
Variable cwd : jsstring.
Variable red : jsstring -> jsstring.
Variable wc : WalkConfig.
Implicit Types w : World A.

(** X25. On a directory that is not skipped and holds no directories,
    the two walkers lint the same files in the same order, provided no
    configured extension contains a slash: the recursive walker tests the
    whole path of an entry for the extension where the non-recursive one
    tests its name.  The module ends in the same state; the non-recursive
    walker alone prints a line when there is nothing to lint. *)
Theorem walkers_agree_on_flat_directory path entries w :
  (forall ext, ext ∈ extensions wc -> "/"%char ∉ ext) ->
  Forall (fun e : jsstring * Node => e.2 = NotDir) entries ->
  skipped wc path = false ->
  module_ (lintRecursively load dump wc path (Dir (Some entries)) w).2
  = module_ (lintNonRecursively load dump cwd red wc path
                                (Dir (Some entries)) w).2.
Proof.
  intros Hexts Hflat Hskip. simpl. rewrite Hskip.
  set (f := fun file child => lintRecursively load dump wc
                                (childPath path file) child).
  set (files := List.filter _ _).
  assert (H : forall w0,
             (eachEntry f entries w0).2
             = (lintEach load dump (childPath path <$> files) w0).2).
  { subst files. clear w.
    induction Hflat as [|[file child] es Hchild _ IH]; intros w0; [done|].
    simpl in Hchild. subst child. simpl. unfold f at 1. simpl.
    rewrite someEndsWith_childPath by done.
    destruct (someEndsWith file (extensions wc)); simpl.
    - destruct (lintFileAt load dump (childPath path file) w0) as [r w1].
      specialize (IH w1). destruct (eachEntry f es w1) as [rs w2].
      by destruct (lintEach load dump _ w1).
    - specialize (IH w0). by destruct (eachEntry f es w0). }
  specialize (H w). destruct (eachEntry f entries w) as [rs w1].
  simpl in *. rewrite H. destruct files as [|file files]; [done|].
  by destruct (lintEach load dump _ w).
Qed.
End Agree.

Lemma walkers_agree_on_flat_directory_witness :
  let entries := [(js "a.md", NotDir); (js "logo.png", NotDir)] in
  let fs : gmap jsstring jsstring :=
    {[js "docs/a.md" := text_of ["---"; "title: 'x'"; "---"; "text"]]} in
  let w := inWorld (PlainYaml.start PlainYaml.lintArgs fs) in
  (forall ext, ext ∈ extensions markdown -> "/"%char ∉ ext)
  /\ Forall (fun e : jsstring * Node => e.2 = NotDir) entries
  /\ skipped markdown (js "docs") = false
  /\ errorNumber
       (module_ (lintRecursively PlainYaml.load PlainYaml.dump markdown
                                 (js "docs") (Dir (Some entries)) w).2)
     = 2
  /\ errorNumber
       (module_ (lintNonRecursively PlainYaml.load PlainYaml.dump
                                    (js "/home") plainRed markdown (js "docs")
                                    (Dir (Some entries)) w).2)
     = 2.
Proof.
  intros entries fs w.
  assert (H1 : forall ext, ext ∈ extensions markdown -> "/"%char ∉ ext).
  { intros ext ->%list_elem_of_singleton Hin.
    repeat (apply elem_of_cons in Hin as [Hin|Hin]; [done|]).
    by apply elem_of_nil in Hin. }
  assert (H2 : Forall (fun e : jsstring * Node => e.2 = NotDir) entries)
    by (by repeat constructor).
  assert (H3 : skipped markdown (js "docs") = false) by reflexivity.
  refine (conj H1 (conj H2 (conj H3 _))).
  rewrite (walkers_agree_on_flat_directory PlainYaml.load PlainYaml.dump
             (js "/home") plainRed markdown (js "docs") entries w H1 H2 H3).
  split; by vm_compute.
Defined.

(** * The command line *)

Lemma startsWith_nil s : startsWith s [] = true.
Proof. by destruct s. Qed.

Lemma split_on_first_dash curr :
  startsWith (lineAt (split_on "="%char curr) 0) (js "-")
  = startsWith curr (js "-").
Proof.
  destruct curr as [|c curr]; [done|]. cbn [split_on].
  destruct (chr_eqb c "="%char) eqn:Hc.
  - apply chr_eqb_eq in Hc as ->. reflexivity.
  - unfold lineAt. destruct (split_on "="%char curr); cbn;
      by rewrite !startsWith_nil.
Qed.

Section Tokens.
Variable cwd : jsstring.
Variables red yellow : jsstring -> jsstring.

#[local] Arguments js : simpl never.

(** What one token does to the accumulator when the function does not
    throw. *)
Lemma parseArgument_acc p curr p' :
  parseArgument cwd red yellow p curr = Some p' ->
  acc p' = <[tokenKey curr :=
               asValue (if jsstring_eqb (tokenKey curr) (js "path")
                        then storedPath cwd <$> tokenText curr
                        else tokenText curr)]> (acc p)
  /\ pathRead p' = pathRead p || positional curr
  /\ exit9 p' = exit9 p || (pathRead p && positional curr)
  /\ printedLines p'
     = printedLines p
       ++ (if pathRead p && positional curr
           then [invalidArgument red yellow curr] else []).
Proof.
  unfold parseArgument, tokenKey, tokenText, positional.
  rewrite split_on_first_dash.
  destruct (startsWith curr (js "-")) eqn:Hdash; simpl.
  - destruct (jsstring_eqb (stripDashes _) (js "path")) eqn:Hpath.
    + destruct (split_on "="%char curr !! 1) as [v|]; [|done].
      simpl. intros [= <-]. simpl.
      by rewrite !andb_false_r, !orb_false_r, app_nil_r.
    + simpl. intros [= <-]. simpl.
      by rewrite !andb_false_r, !orb_false_r, app_nil_r.
  - destruct (pathRead p) eqn:Hread; simpl; intros [= <-]; simpl.
    + by rewrite !orb_true_r.
    + by rewrite !orb_false_r, app_nil_r.
Qed.

Lemma valuesFor_cons key curr argv :
  valuesFor cwd key (curr :: argv)
  = (if jsstring_eqb (tokenKey curr) key
     then [asValue (if jsstring_eqb key (js "path")
                    then storedPath cwd <$> tokenText curr
                    else tokenText curr)]
     else [])
    ++ valuesFor cwd key argv.
Proof. unfold valuesFor. simpl. by destruct (jsstring_eqb _ _). Qed.

Lemma parseArguments_acc argv : forall p p',
  parseArguments cwd red yellow p argv = Some p' ->
  (forall key,
      acc p' !! key
      = match last (valuesFor cwd key argv) with
        | Some v => Some v
        | None => acc p !! key
        end)
  /\ pathRead p' = pathRead p || existsb positional argv
  /\ exit9 p'
     = exit9 p
       || (1 <? (if pathRead p then 1 else 0)
                + length (List.filter positional argv))
  /\ printedLines p'
     = printedLines p
       ++ (invalidArgument red yellow
             <$> drop (if pathRead p then 0 else 1)
                      (List.filter positional argv)).
Proof.
  induction argv as [|curr argv IH]; intros p p'; cbn [parseArguments].
  - intros [= <-]. split; [done|]. split; [by rewrite orb_false_r|].
    split.
    + destruct (pathRead p); simpl; by rewrite orb_false_r.
    + cbn [List.filter]. by rewrite drop_nil, app_nil_r.
  - destruct (parseArgument cwd red yellow p curr) as [p1|] eqn:Hone;
      [|done].
    apply parseArgument_acc in Hone as (Hacc & Hread & Hexit & Hout).
    intros (IHacc & IHread & IHexit & IHout)%IH.
    split; [|split; [|split]].
    + intros key. rewrite IHacc, Hacc, valuesFor_cons.
      destruct (decide (tokenKey curr = key)) as [<-|Hkey].
      * assert (Hrefl : jsstring_eqb (tokenKey curr) (tokenKey curr) = true)
          by (unfold jsstring_eqb; by rewrite bool_decide_true).
        rewrite Hrefl, lookup_insert_eq.
        destruct (valuesFor cwd (tokenKey curr) argv) as [|v vs]; [done|].
        cbn [app]. rewrite last_cons_cons.
        destruct (last (v :: vs)) eqn:Hl; [done|].
        by apply last_None in Hl.
      * assert (Hne : jsstring_eqb (tokenKey curr) key = false)
          by (unfold jsstring_eqb; by rewrite bool_decide_false).
        by rewrite Hne, lookup_insert_ne.
    + rewrite IHread, Hread. cbn [existsb]. by rewrite orb_assoc.
    + rewrite IHexit, Hexit, Hread. cbn [List.filter].
      destruct (pathRead p), (positional curr), (exit9 p); cbn [orb andb];
        try done; cbn [length]; by destruct (length _).
    + rewrite IHout, Hout, Hread. cbn [List.filter].
      destruct (pathRead p), (positional curr); cbn [orb andb drop];
        by rewrite ?app_nil_r, <- ?app_assoc, ?drop_0.
Qed.


(** X27. When [getArguments] returns, it has set the exit code 9 exactly
    when the command line does not hold exactly one token without a
    leading dash; it has printed one line for every such token after the
    first and, when there is none, the line that asks for a path. *)
Theorem getArguments_one_path argv a out bad :
  getArguments cwd red yellow argv = Some (a, out, bad) ->
  let paths := List.filter positional argv in
  (bad = true <-> length paths <> 1)
  /\ out = (invalidArgument red yellow <$> drop 1 paths)
           ++ match paths with
              | [] => [noPathArgument red]
              | _ :: _ => []
              end.
Proof.
  unfold getArguments.
  destruct (parseArguments _ _ _ _ argv) as [p|] eqn:Hparse; [|done].
  apply parseArguments_acc in Hparse as (_ & Hread & Hexit & Hout).
  simpl in Hread, Hexit, Hout. intros Heq.
  injection Heq as _ <- <-. set (paths := List.filter positional argv) in *.
  assert (Hsome : existsb positional argv = negb (bool_decide (paths = []))).
  { subst paths. clear. induction argv as [|curr argv IH]; [done|].
    simpl. destruct (positional curr); [done|]. by rewrite IH. }
  rewrite Hread, Hexit, Hout, Hsome. clear.
  destruct paths as [|p1 [|p2 paths]]; simpl; split; try done;
    try (split; [done|lia]); try (split; [lia|done]).
  by rewrite app_nil_r.
Qed.
End Tokens.


Lemma getArguments_one_path_witness :
  let argv := [js "docs"; js "--fix"; js "posts"] in
  let a := Cli.mk (Some (VString (js "posts"))) VTrue None VFalse VTrue
                  VFalse VFalse VTrue in
  let out := [invalidArgument plainRed plainYellow (js "posts")] in
  getArguments (js "/home") plainRed plainYellow argv = Some (a, out, true)
  /\ length (List.filter positional argv) <> 1.
Proof.
  intros argv a out.
  assert (Hrun : getArguments (js "/home") plainRed plainYellow argv
                 = Some (a, out, true)) by (by vm_compute).
  refine (conj Hrun _).
  by apply (proj1 (getArguments_one_path (js "/home") plainRed plainYellow
                     argv a out true Hrun)).
Defined.

(** * The configuration *)

Section Settings.
Context {V : Type}.
Variable readJson : jsstring -> option (gmap jsstring V).
Variable requireJs : jsstring -> option (gmap jsstring V).
Variables dirname cwd : jsstring.
Variables red yellow : jsstring -> jsstring.

(** X28. For the arguments [getArguments] returns, [getConfig] takes
    [mandatory] from the command line alone: it is the last [mandatory]
    option, or else the last [m] option, or else [true]; what the
    configuration files say about it is never used.  Every other
    property comes from the files: from the one named by [config] first,
    then from the project's, then from the defaults. *)
Theorem getConfig_mandatory_from_command_line argv a out bad config :
  getArguments cwd red yellow argv = Some (a, out, bad) ->
  getConfig readJson requireJs dirname cwd a = Some config ->
  config !! js "mandatory"
  = Some (FromCommandLine
            (firstDefined (last (valuesFor cwd (js "mandatory") argv))
                          (last (valuesFor cwd (js "m") argv)) VTrue))
  /\ exists defaults custom,
      readJson (slashes dirname ++ js "/config/default.json")
      = Some defaults
      /\ customConfig readJson requireJs cwd a = Some custom
      /\ forall key,
          key <> js "mandatory" ->
          config !! key
          = FromFile
              <$> match custom !! key with
                  | Some v => Some v
                  | None =>
                      match projectConfig readJson requireJs cwd !! key with
                      | Some v => Some v
                      | None => defaults !! key
                      end
                  end.
Proof.
  intros Hargs Hconfig. unfold getConfig in Hconfig.
  destruct (readJson _) as [defaults|] eqn:Hdefaults; [|done].
  destruct (customConfig _ _ _ a) as [custom|] eqn:Hcustom; [|done].
  injection Hconfig as <-. split.
  - rewrite lookup_insert_eq. do 2 f_equal.
    unfold getArguments in Hargs.
    destruct (parseArguments _ _ _ _ argv) as [p|] eqn:Hparse; [|done].
    apply parseArguments_acc in Hparse as (Hacc & _).
    injection Hargs as <- _ _. cbn [Cli.mandatory].
    rewrite !Hacc. cbn [acc]. rewrite !lookup_empty.
    assert (Hid : forall o : option argValue,
               match o with Some v => Some v | None => None end = o)
      by (by intros []).
    by rewrite !Hid.
  - exists defaults, custom. split; [done|]. split; [done|].
    intros key Hkey. rewrite lookup_insert_ne by done.
    rewrite lookup_fmap. f_equal.
    rewrite lookup_union. destruct (custom !! key) as [v|] eqn:Hc.
    + by destruct ((_ ∪ _) !! key).
    + rewrite lookup_union.
      destruct (projectConfig _ _ _ !! key) as [v|] eqn:Hp.
      * by destruct (defaults !! key).
      * by destruct (defaults !! key).
Qed.
End Settings.

Lemma getConfig_mandatory_from_command_line_witness :
  let argv := [js "docs"] in
  let a := Cli.mk (Some (VString (js "docs"))) VFalse None VFalse VTrue
                  VFalse VFalse VTrue in
  let config : gmap jsstring (setting bool) :=
    {[js "mandatory" := FromCommandLine VTrue]} in
  getArguments (js "/home") plainRed plainYellow argv = Some (a, [], false)
  /\ getConfig defaultsOnly noModule (js "/opt/lint") (js "/home") a
     = Some config
  /\ defaultsOnly (js "/opt/lint/config/default.json")
     = Some {[js "mandatory" := false]}
  /\ config !! js "mandatory" = Some (FromCommandLine VTrue).
Proof.
  intros argv a config.
  assert (H1 : getArguments (js "/home") plainRed plainYellow argv
               = Some (a, [], false)) by (by vm_compute).
  assert (H2 : getConfig defaultsOnly noModule (js "/opt/lint") (js "/home") a
               = Some config).
  { unfold getConfig, customConfig, projectConfig. simpl.
    unfold config. apply (f_equal Some).
    apply map_eq. intros key.
    destruct (decide (key = js "mandatory")) as [->|Hne].
    - by rewrite lookup_insert_eq, lookup_singleton_eq.
    - rewrite lookup_insert_ne, lookup_singleton_ne by done.
      rewrite lookup_fmap, !lookup_union, !lookup_empty.
      by rewrite lookup_singleton_ne. }
  assert (H3 : defaultsOnly (js "/opt/lint/config/default.json")
               = Some {[js "mandatory" := false]}) by reflexivity.
  refine (conj H1 (conj H2 (conj H3 _))).
  rewrite (proj1 (getConfig_mandatory_from_command_line defaultsOnly noModule
                    (js "/opt/lint") (js "/home") plainRed plainYellow
                    argv a [] false config H1 H2)).
  by vm_compute.
Defined.

(** * What the inner [try] of [lintFile] catches beside YAML exceptions *)

Section Caught.
Context {A : Type}.
Variable load : jsstring -> YAMLException + A.
Variable dump : A -> YAMLException + jsstring.
Implicit Types st : State A.

(** X29. In fix mode, when the file cannot be written, the exception of
    [writeFileSync] is caught like one of the YAML library: [lintFile]
    resolves with a [customError] whose message, row and column are all
    undefined, counts exactly one more error, and changes no file; no
    rule has run, so no warning and no fixable error is counted, and the
    console gets the exception, when a text was passed, and the one
    report, unless [quiet]. *)
Theorem lintFile_write_failure
    filePath text a c st data st0 idx attributes dumped :
  lintFileInput filePath text a c st = Some (data, st0) ->
  startsWith (lineAt (fileLines data) 1) (js "---") = true ->
  indexOf (fileLines data) (js "---") 2 = Some idx ->
  load (loadInput (take (idx + 1) (fileLines data))) = inr attributes ->
  fix_ (args st0) = true ->
  dump attributes = inr dumped ->
  filePath ∈ readOnly st0 ->
  exists outcome st',
    lintFile load dump filePath text a c st = (Resolved outcome, st')
    /\ Outcome.errors outcome = CustomErrorUndefined
    /\ Outcome.warnings outcome = ∅
    /\ Outcome.fileErrors outcome = errorNumber st'
    /\ errorNumber st' = errorNumber st + 1
    /\ warningNumber st' = warningNumber st
    /\ fixableErrors st' = fixableErrors st
    /\ files st' = files st
    /\ console st'
       = console st
         ++ (if bool_decide (text = []) then [] else [ConsoleLogThrown])
         ++ (if quiet (args st0) then []
             else [ShowErrorUndefined filePath
                     (ShownMark None None
                        (markSnippet (take (idx + 1) (fileLines data))
                                     None))]).
Proof.
  intros Hin Hstart Hidx Hload Hfix Hdump Hro. unfold lintFile.
  rewrite Hin, Hstart, Hidx. unfold lintFrontMatter.
  rewrite Hload, Hfix, Hdump. unfold writeFileSync.
  rewrite bool_decide_eq_true_2 by done.
  destruct (lintFileInput_frame _ _ _ _ _ _ _ Hin)
    as (He & Hw & Hf & Hx & Hfs & Hc).
  eexists _, _. split; [reflexivity|].
  unfold lintFileCatch.
  destruct text as [|ch text]; destruct (quiet (args st0)) eqn:Hq; simpl;
    rewrite ?Hq; simpl; rewrite ?He, ?Hw, ?Hf, ?Hfs, ?Hc, ?app_nil_r;
    repeat split; try done; try lia; by rewrite <- ?app_assoc.
Qed.

Lemma recordedUnder_inherited err msg rs :
  msg ∈ objectPrototype ->
  Forall (fun r => dropped r = true
                   \/ reportMessage r ∉ objectPrototype) rs ->
  recordedUnder err msg rs = [].
Proof.
  intros Hmsg Hrs. induction Hrs as [|r rs Hr _ IH]; [done|].
  rewrite recordedUnder_cons, IH, app_nil_r.
  destruct Hr as [->|Hown]; [done|].
  unfold jsstring_eqb. rewrite bool_decide_eq_false_2, andb_false_r; [done|].
  intros Heq. by rewrite Heq in Hown.
Qed.

(** The first kept report under the name of a property every object
    inherits makes the callback throw, after it has been shown. *)
Lemma callAll_inherited filePath rs1 r rs2 :
  Forall (fun r => dropped r = true
                   \/ reportMessage r ∉ objectPrototype) rs1 ->
  dropped r = false ->
  reportMessage r ∈ objectPrototype ->
  exists collected,
    callAll filePath (mkCollected ∅ ∅ []) (rs1 ++ r :: rs2)
    = inl (ThrownBySpread (reportMessage r), collected).
Proof.
  intros Hrs1 Hkept Hmsg. rewrite callAll_app.
  destruct (callback_lookup filePath rs1 (mkCollected ∅ ∅ []) Hrs1)
    as (acc & -> & Hlookup).
  destruct (Hlookup (reportMessage r)) as [He Hw].
  rewrite recordedUnder_inherited in He, Hw by done.
  cbn [extraErrors extraWarnings] in He, Hw.
  rewrite lookup_empty in He, Hw.
  cbn [callAll]. unfold showOnelineCallback.
  fold (dropped r). rewrite Hkept. cbv zeta. unfold record.
  rewrite He, Hw, bool_decide_eq_true_2 by done.
  destruct (jsstring_eqb _ _); by eexists.
Qed.

(** X30. When a plugin makes a report that is kept under a message naming
    a property every object inherits, such as [constructor] or
    [toString], and no earlier report does, the callback throws on it;
    the exception is caught, and [lintFile] resolves with a [customError]
    whose message, row and column are all undefined and with no
    warnings, whatever the rules and the plugins found before: the error
    total grows by exactly one and the warning total stays. *)
Theorem lintFile_inherited_message
    filePath text a c st data st0 idx attributes block fns rs1 r rs2 :
  lintFileInput filePath text a c st = Some (data, st0) ->
  startsWith (lineAt (fileLines data) 1) (js "---") = true ->
  indexOf (fileLines data) (js "---") 2 = Some idx ->
  load (loadInput (take (idx + 1) (fileLines data))) = inr attributes ->
  (if fix_ (args st0)
   then (filePath ∉ readOnly st0)
        /\ exists dumped,
             dump attributes = inr dumped /\ block = fixedFrontMatter dumped
   else block = take (idx + 1) (fileLines data)) ->
  extraLintFns (config st0) = Some fns ->
  allReports attributes block fns = rs1 ++ r :: rs2 ->
  Forall (fun r => dropped r = true
                   \/ reportMessage r ∉ objectPrototype) rs1 ->
  dropped r = false ->
  reportMessage r ∈ objectPrototype ->
  exists outcome st',
    lintFile load dump filePath text a c st = (Resolved outcome, st')
    /\ Outcome.errors outcome = CustomErrorUndefined
    /\ Outcome.warnings outcome = ∅
    /\ errorNumber st' = errorNumber st + 1
    /\ warningNumber st' = warningNumber st.
Proof.
  intros Hin Hstart Hidx Hload Hblock Hfns Hrs Hrs1 Hkept Hmsg.
  unfold lintFile.
  rewrite Hin, Hstart, Hidx. unfold lintFrontMatter. rewrite Hload.
  destruct (lintFileInput_frame _ _ _ _ _ _ _ Hin)
    as (He & Hw & _).
  set (fixed := if fix_ (args st0) then _ else _).
  assert (Hfixed : exists s, fixed = inr (block, s)
                             /\ config s = config st0
                             /\ errorNumber s = errorNumber st0
                             /\ warningNumber s = warningNumber st0).
  { subst fixed. destruct (fix_ (args st0)).
    - destruct Hblock as (Hrw & dumped & -> & ->). unfold writeFileSync.
      rewrite bool_decide_eq_false_2 by done. by eexists.
    - subst block. by eexists. }
  destruct Hfixed as (s & -> & Hc & Hes & Hws).
  pose proof (lintLineByLine_frame block filePath s)
    as (_ & Hc1 & He1 & Hw1 & _).
  destruct (lintLineByLine block filePath s) as [basic s1].
  simpl in Hc1, He1, Hw1.
  pose proof (extraLinters_frame attributes block filePath s1)
    as (_ & _ & He2 & Hw2 & _).
  assert (Hthrows : exists s2,
             extraLinters attributes block filePath s1
             = inl (ThrownBySpread (reportMessage r), s2)).
  { unfold extraLinters. rewrite Hc1, Hc, Hfns, runLinters_callAll, Hrs.
    cbn [fst].
    destruct (callAll_inherited filePath rs1 r rs2 Hrs1 Hkept Hmsg)
      as (collected & ->).
    by eexists. }
  destruct Hthrows as (s2 & Hthrows).
  rewrite Hthrows in He2, Hw2 |- *. simpl in He2, Hw2.
  eexists _, _. split; [reflexivity|].
  unfold lintFileCatch.
  destruct text; destruct (quiet (args s2)) eqn:Hq; simpl; rewrite ?Hq;
    simpl; repeat split; try done; lia.
Qed.
End Caught.

Lemma lintFile_write_failure_witness :
  let a := PlainYaml.fixArgs in
  let data := text_of ["---"; "title:   x"; "---"; "text"] in
  let st := mkStateOn a PlainYaml.noPlugins 0 0 0 None
                      {[ PlainYaml.post := data ]} [] {[ PlainYaml.post ]} in
  lintFileInput PlainYaml.post [] a PlainYaml.noPlugins st = Some (data, st)
  /\ PlainYaml.post ∈ readOnly st
  /\ exists outcome st',
       lintFile PlainYaml.load PlainYaml.dump PlainYaml.post [] a
                PlainYaml.noPlugins st = (Resolved outcome, st')
       /\ Outcome.errors outcome = CustomErrorUndefined
       /\ errorNumber st' = 1
       /\ files st' !! PlainYaml.post = Some data.
Proof.
  intros a data st.
  assert (H1 : lintFileInput PlainYaml.post [] a PlainYaml.noPlugins st
               = Some (data, st)) by reflexivity.
  assert (H2 : PlainYaml.post ∈ readOnly st)
    by apply elem_of_singleton_2, eq_refl.
  refine (conj H1 (conj H2 _)).
  destruct (lintFile_write_failure PlainYaml.load PlainYaml.dump
              PlainYaml.post [] a PlainYaml.noPlugins st data st 3
              [(js "title", js "x")] (js "title: x" ++ [LF])
              H1 eq_refl eq_refl eq_refl eq_refl eq_refl H2)
    as (outcome & st' & Hrun & Hout & _ & _ & Herr & _ & _ & Hfs & _).
  exists outcome, st'. rewrite Hfs. by repeat split.
Defined.

Lemma lintFile_inherited_message_witness :
  let a := PlainYaml.lintArgs in
  let c := mkConfig [] true (Some [constructorPlugin]) in
  let data := text_of ["---"; "title: 'x'"; "---"; "text"] in
  let st := PlainYaml.start a ∅ in
  let st0 := setArgsConfig a c st in
  let r := mkReport (js "Error") (js "constructor") None in
  lintFileInput PlainYaml.post data a c st = Some (data, st0)
  /\ allReports [(js "title", js "'x'")] (take (3 + 1) (fileLines data))
                [constructorPlugin]
     = [] ++ r :: []
  /\ dropped r = false
  /\ reportMessage r ∈ objectPrototype
  /\ exists outcome st',
       lintFile PlainYaml.load PlainYaml.dump PlainYaml.post data a c st
       = (Resolved outcome, st')
       /\ Outcome.errors outcome = CustomErrorUndefined
       /\ errorNumber st' = 1
       /\ fixableErrors st' = 2.
Proof.
  intros a c data st st0 r.
  assert (H1 : lintFileInput PlainYaml.post data a c st = Some (data, st0))
    by reflexivity.
  assert (H2 : allReports [(js "title", js "'x'")]
                 (take (3 + 1) (fileLines data)) [constructorPlugin]
               = [] ++ r :: []) by reflexivity.
  assert (H3 : dropped r = false) by reflexivity.
  assert (H4 : reportMessage r ∈ objectPrototype) by (by left).
  refine (conj H1 (conj H2 (conj H3 (conj H4 _)))).
  destruct (lintFile_inherited_message PlainYaml.load PlainYaml.dump
              PlainYaml.post data a c st data st0 3 [(js "title", js "'x'")]
              (take (3 + 1) (fileLines data)) [constructorPlugin] [] r []
              eq_refl eq_refl eq_refl eq_refl eq_refl eq_refl H2
              (Forall_nil_2 _) H3 H4)
    as (outcome & st' & Hrun & Hout & _ & Herr & _).
  exists outcome, st'. split; [exact Hrun|]. split; [exact Hout|].
  split; [exact Herr|].
  apply (f_equal snd) in Hrun. simpl in Hrun. rewrite <- Hrun.
  by vm_compute.
Defined.
